(** * QuadTree: a shallow embedding of [src/index.ts]

    The development follows the TypeScript source function by function:
    the geometry primitives ([getCenter], [boundingBoxCollision],
    [calculateDirection], [splitTree], [fitting]), [validateElement], the
    constructor and the lazy children, [clear], [push] and [pushAll],
    [remove], [find], [each], [colliding], [onCollision], [filter] and
    [reject], [where] with its alias [get], and [visit].  [pretty] formats a
    text from the [toString] of the elements, and [observe] and [unobserve]
    redefine properties of the elements: they are not modelled.

    - JavaScript numbers are modelled by [Z]: the tree indexes an integer
      coordinate space, and every arithmetic operation of the source
      ([+], [-], [Math.floor (n / 2)], [Math.ceil (n / 2)], comparisons) is
      exact on integers.
    - Objects are compared by reference in the source ([===], [indexOf]);
      an element carries its reference [ref] and two elements are the same
      object exactly when the records are equal.  Elements are not mutated
      while they are indexed (the README requires it), so a reference
      determines the coordinates.
    - A thrown [Error] is modelled by its message; a method that may throw
      and mutate returns an [Outcome] and the state of the receiver at the
      moment it returns or throws.
    - The [while (fifo.length > 0)] loops hold references to nodes of the
      tree.  Read-only traversals keep the nodes themselves in the queue;
      [pushAll], which mutates the nodes it dequeues, addresses a node by its
      path from the root.  A loop takes its number of iterations as fuel; the
      traversals are given the number of nodes, which is enough
      ([find_returns], [each_returns], [colliding_returns]); for [pushAll]
      the fuel that is enough is computed by [visits] ([pushAll_pushNode]).
    - Names are those of the source, except where a projection or a list
      function has the name already: the fields [x], [y], [width], [height]
      of a node are [qx], [qy], [qwidth], [qheight], [filter] is
      [filter_tree], [where] is [where_] and the method [get] is
      [QuadTree_get]. *)

From Stdlib Require Import String ZArith List Bool Lia Permutation PeanoNat.
Import ListNotations.
Local Open Scope Z_scope.

(** ** Data model *)

(** The geometric fields of the [ElementRect] interface: [x] and [y] are
    mandatory, [width] and [height] optional. *)
Record Rect := mkRect {
  x : Z;
  y : Z;
  width : option Z;
  height : option Z
}.

(** An [ElementRect] object: its reference and its geometric fields. *)
Record ElementRect := mkElement {
  ref : nat;
  rect :> Rect
}.

Inductive Direction := NW | NE | SW | SE.

(** The class [QuadTree].  The four [LazyQuadTree] slots [children.NW], ...
    are represented by their [tree] field ([None] is [null]); their [create]
    closure is the function [create] below, which reads the parent.  The
    induction principle of the type is [QuadTree_induction], proved below. *)
#[local] Unset Elimination Schemes.
Inductive QuadTree := mkQuadTree {
  qx : Z;
  qy : Z;
  qwidth : Z;
  qheight : Z;
  maxElements : Z;
  contents : list ElementRect;
  oversized : list ElementRect;
  size : Z;
  treeNW : option QuadTree;
  treeNE : option QuadTree;
  treeSW : option QuadTree;
  treeSE : option QuadTree
}.
#[local] Set Elimination Schemes.

(** [QuadTree implements ElementRect]: a node seen as a rectangle. *)
Definition bounds (tree : QuadTree) : Rect :=
  mkRect (qx tree) (qy tree) (Some (qwidth tree)) (Some (qheight tree)).

(** [children[d].tree] *)
Definition child (d : Direction) (tree : QuadTree) : option QuadTree :=
  match d with
  | NW => treeNW tree
  | NE => treeNE tree
  | SW => treeSW tree
  | SE => treeSE tree
  end.

(** The key order of [this.children], which [for (let child in ...)] follows. *)
Definition directions : list Direction := [NW; NE; SW; SE].

Definition Direction_eqb (a b : Direction) : bool :=
  match a, b with
  | NW, NW | NE, NE | SW, SW | SE, SE => true
  | _, _ => false
  end.

(** ** Geometry primitives *)

(** [v != null ? v : 1] *)
Definition or_one (v : option Z) : Z :=
  match v with
  | Some n => n
  | None => 1
  end.

(** [Math.floor (n / 2)] and [Math.ceil (n / 2)] on an integer [n]. *)
Definition floor_half (n : Z) : Z := n / 2.
Definition ceil_half (n : Z) : Z := - ((- n) / 2).

(** [getCenter] *)
Definition getCenter (item : Rect) : Z * Z :=
  (floor_half (or_one (width item)) + x item,
   floor_half (or_one (height item)) + y item).

(** [boundingBoxCollision] *)
Definition boundingBoxCollision (elt1 elt2 : Rect) : bool :=
  negb ((x elt1 >=? x elt2 + or_one (width elt2))
        || (x elt1 + or_one (width elt1) <=? x elt2)
        || (y elt1 >=? y elt2 + or_one (height elt2))
        || (y elt1 + or_one (height elt1) <=? y elt2)).

(** [calculateDirection] *)
Definition calculateDirection (element : Rect) (tree : QuadTree) : Direction :=
  let quadCenter := getCenter (bounds tree) in
  if x element <? fst quadCenter then
    if y element <? snd quadCenter then NW else SW
  else
    if y element <? snd quadCenter then NE else SE.

(** [splitTree]: the object it returns, as the list of its entries in key
    order. *)
Definition splitTree (tree : QuadTree) : list (Direction * Rect) :=
  let leftWidth := Z.max (floor_half (qwidth tree)) 1 in
  let rightWidth := ceil_half (qwidth tree) in
  let topHeight := Z.max (floor_half (qheight tree)) 1 in
  let bottomHeight := ceil_half (qheight tree) in
  [ (NW, mkRect (qx tree) (qy tree) (Some leftWidth) (Some topHeight));
    (NE, mkRect (qx tree + leftWidth) (qy tree) (Some rightWidth) (Some topHeight));
    (SW, mkRect (qx tree) (qy tree + topHeight) (Some leftWidth) (Some bottomHeight));
    (SE, mkRect (qx tree + leftWidth) (qy tree + topHeight)
                (Some rightWidth) (Some bottomHeight)) ].

(** [fitting] *)
Definition fitting (element : Rect) (tree : QuadTree) : list Direction :=
  map fst (filter (fun entry => boundingBoxCollision element (snd entry))
                  (splitTree tree)).

(** ** Reading rectangles as sets of cells *)

(** The half-open extent of a rectangle on each axis. *)
Definition in_rect (r : Rect) (px py : Z) : Prop :=
  x r <= px < x r + or_one (width r) /\ y r <= py < y r + or_one (height r).

(** The half-open interval test: [lo1, hi1) and [lo2, hi2) overlap. *)
Definition half_open_overlap (lo1 hi1 lo2 hi2 : Z) : Prop :=
  lo1 < hi2 /\ lo2 < hi1.


Definition positive_extent (r : Rect) : Prop :=
  0 < or_one (width r) /\ 0 < or_one (height r).

(** The quadrant of [tree] in direction [d], as [splitTree] computes it. *)
Definition quadrant (tree : QuadTree) (d : Direction) : Rect :=
  match List.find (fun entry => Direction_eqb d (fst entry)) (splitTree tree) with
  | Some entry => snd entry
  | None => bounds tree
  end.

(** No cell lies in two quadrants. *)
Definition quadrants_disjoint (tree : QuadTree) : Prop :=
  forall d1 d2 px py,
    in_rect (quadrant tree d1) px py -> in_rect (quadrant tree d2) px py -> d1 = d2.

(** Every cell of the node lies in a quadrant. *)
Definition quadrants_cover (tree : QuadTree) : Prop :=
  forall px py, in_rect (bounds tree) px py ->
    exists d, in_rect (quadrant tree d) px py.

(** Every cell of a quadrant lies in the node. *)
Definition quadrants_inside (tree : QuadTree) : Prop :=
  forall d px py, in_rect (quadrant tree d) px py -> in_rect (bounds tree) px py.

(** The four quadrants partition the rectangle of the node. *)
Definition quadrants_partition (tree : QuadTree) : Prop :=
  quadrants_disjoint tree /\ quadrants_cover tree /\ quadrants_inside tree.

(** ** Exceptions *)

(** The message of a thrown [Error]. *)
Definition Error := string.

Inductive Outcome (A : Type) : Type :=
| Returns (a : A)
| Throws (message : Error).
Arguments Returns {A} a.
Arguments Throws {A} message.

Definition MissingDimensions : Error := "Missing quadtree dimensions."%string.
Definition InvalidDimensions : Error := "Dimensions must be positive integers."%string.
Definition InvalidCoordinates : Error := "Coordinates must be integers"%string.
Definition InvalidMaxElements : Error :=
  "The maximum number of elements before a split must be a positive integer."%string.
Definition NotAnElement : Error := "Element must be an Object."%string.
Definition MissingCoordinates : Error := "Coordinates properties are missing."%string.
Definition InvalidExtent : Error := "Width and height must be positive integers."%string.
(** Raised by the engine, not by the source: a property read on [null] or
    [undefined]. *)
Definition TypeError : Error := "TypeError"%string.

(** [for (let a of l) body], where the body may throw: the loop stops at the
    first throw, with the state reached. *)
Fixpoint for_of {A S : Type} (body : A -> S -> Outcome unit * S) (l : list A) (s : S)
  : Outcome unit * S :=
  match l with
  | [] => (Returns tt, s)
  | a :: l' =>
      match body a s with
      | (Returns _, s') => for_of body l' s'
      | (Throws m, s') => (Throws m, s')
      end
  end.

(** ** Values received from callers *)

(** What a caller may pass where an [ElementRect] is expected. *)
Inductive JsValue :=
| JsPrimitive
| JsNull
| JsObject (ref : nat) (x y width height : option Z).

(** [v || d] on a number that may be absent: [undefined], [null] and [0] are
    falsy. *)
Definition or_falsy (v : option Z) (d : Z) : Z :=
  match v with
  | Some n => if n =? 0 then d else n
  | None => d
  end.

Definition is_null (v : option Z) : bool :=
  match v with
  | Some _ => false
  | None => true
  end.

(** [validateElement] *)
Definition validateElement (element : JsValue) : Outcome unit :=
  match element with
  | JsPrimitive => Throws NotAnElement
  | JsNull => Throws TypeError
  | JsObject _ ex ey ewidth eheight =>
      if is_null ex || is_null ey then Throws MissingCoordinates
      else if (or_falsy ewidth 0 <? 0) || (or_falsy eheight 0 <? 0)
      then Throws InvalidExtent
      else Returns tt
  end.

(** A typed element as the value it is at run time. *)
Definition to_js (e : ElementRect) : JsValue :=
  JsObject (ref e) (Some (x e)) (Some (y e)) (width e) (height e).

(** A value that has its coordinates, as a typed element. *)
Definition as_element (v : JsValue) : option ElementRect :=
  match v with
  | JsObject r (Some ex) (Some ey) ewidth eheight =>
      Some (mkElement r (mkRect ex ey ewidth eheight))
  | _ => None
  end.

Definition as_elements (items : list JsValue) : list ElementRect :=
  flat_map (fun v => match as_element v with Some e => [e] | None => [] end) items.

(** Reference equality [a === b] of two elements. *)
Definition option_Z_eqb (a b : option Z) : bool :=
  match a, b with
  | Some m, Some n => m =? n
  | None, None => true
  | _, _ => false
  end.

Definition same_object (a b : ElementRect) : bool :=
  Nat.eqb (ref a) (ref b) && (x a =? x b) && (y a =? y b)
  && option_Z_eqb (width a) (width b) && option_Z_eqb (height a) (height b).

(** [l.indexOf (item)], [None] for [-1]. *)
Fixpoint indexOf (item : ElementRect) (l : list ElementRect) : option nat :=
  match l with
  | [] => None
  | e :: l' =>
      if same_object e item then Some O
      else match indexOf item l' with
           | Some i => Some (S i)
           | None => None
           end
  end.

(** [l.splice (index, 1)]: what is left in [l]. *)
Fixpoint splice (index : nat) (l : list ElementRect) : list ElementRect :=
  match l, index with
  | [], _ => []
  | _ :: l', O => l'
  | e :: l', S i => e :: splice i l'
  end.

(** A callback received where a predicate is expected. *)
Inductive JsPredicate :=
| PredicateNull
| PredicateFunction (f : ElementRect -> bool)
| PredicateOther.

(** [typeof predicate === "function" ? predicate (i) : undefined], as a
    condition. *)
Definition call_predicate (predicate : JsPredicate) (i : ElementRect) : bool :=
  match predicate with
  | PredicateFunction f => f i
  | _ => false
  end.

(** ** Field updates *)

Definition set_size (n : Z) (t : QuadTree) : QuadTree :=
  mkQuadTree (qx t) (qy t) (qwidth t) (qheight t) (maxElements t)
             (contents t) (oversized t) n
             (treeNW t) (treeNE t) (treeSW t) (treeSE t).

Definition set_contents (l : list ElementRect) (t : QuadTree) : QuadTree :=
  mkQuadTree (qx t) (qy t) (qwidth t) (qheight t) (maxElements t)
             l (oversized t) (size t)
             (treeNW t) (treeNE t) (treeSW t) (treeSE t).

Definition set_oversized (l : list ElementRect) (t : QuadTree) : QuadTree :=
  mkQuadTree (qx t) (qy t) (qwidth t) (qheight t) (maxElements t)
             (contents t) l (size t)
             (treeNW t) (treeNE t) (treeSW t) (treeSE t).

(** [children] replaced slot by slot. *)
Definition set_children (f : Direction -> option QuadTree) (t : QuadTree) : QuadTree :=
  mkQuadTree (qx t) (qy t) (qwidth t) (qheight t) (maxElements t)
             (contents t) (oversized t) (size t)
             (f NW) (f NE) (f SW) (f SE).

(** [children[d].tree = c] *)
Definition set_child (d : Direction) (c : option QuadTree) (t : QuadTree) : QuadTree :=
  set_children (fun d' => if Direction_eqb d' d then c else child d' t) t.

(** ** Construction *)

Record QuadTreeUserOptions := mkOptions {
  opt_x : option Z;
  opt_y : option Z;
  opt_width : option Z;
  opt_height : option Z;
  opt_maxElements : option Z
}.

(** The constructor.  [Number.isInteger] holds of every coordinate of the
    model, so the third check never throws here. *)
Definition new_QuadTree (options : QuadTreeUserOptions) : Outcome QuadTree :=
  match opt_width options, opt_height options with
  | Some width, Some height =>
      let x := or_falsy (opt_x options) 0 in
      let y := or_falsy (opt_y options) 0 in
      let maxElements := or_falsy (opt_maxElements options) 1 in
      if (width <? 1) || (height <? 1) then Throws InvalidDimensions
      else if maxElements <? 1 then Throws InvalidMaxElements
      else Returns (mkQuadTree x y width height maxElements [] [] 0
                               None None None None)
  | _, _ => Throws MissingDimensions
  end.

(** The options of the [create] closure of slot [d] of the node [that]. *)
Definition child_options (that : QuadTree) (d : Direction) : QuadTreeUserOptions :=
  match d with
  | NW => mkOptions (Some (qx that)) (Some (qy that))
                    (Some (Z.max (floor_half (qwidth that)) 1))
                    (Some (Z.max (floor_half (qheight that)) 1))
                    (Some (maxElements that))
  | NE => mkOptions (Some (qx that + Z.max (floor_half (qwidth that)) 1)) (Some (qy that))
                    (Some (ceil_half (qwidth that)))
                    (Some (Z.max (floor_half (qheight that)) 1))
                    (Some (maxElements that))
  | SW => mkOptions (Some (qx that)) (Some (qy that + Z.max (floor_half (qheight that)) 1))
                    (Some (Z.max (floor_half (qwidth that)) 1))
                    (Some (ceil_half (qheight that)))
                    (Some (maxElements that))
  | SE => mkOptions (Some (qx that + Z.max (floor_half (qwidth that)) 1))
                    (Some (qy that + Z.max (floor_half (qheight that)) 1))
                    (Some (ceil_half (qwidth that)))
                    (Some (ceil_half (qheight that)))
                    (Some (maxElements that))
  end.

(** [children[d].create ()] *)
Definition create (that : QuadTree) (d : Direction) : Outcome QuadTree :=
  new_QuadTree (child_options that d).

(** [children[d].get ()]: the node with the slot filled, and the child. *)
Definition get (d : Direction) (tree : QuadTree) : Outcome (QuadTree * QuadTree) :=
  match child d tree with
  | Some c => Returns (tree, c)
  | None =>
      match create tree d with
      | Returns c => Returns (set_child d (Some c) tree, c)
      | Throws m => Throws m
      end
  end.

(** [clear]: the state it leaves (it returns an array of four [null]). *)
Definition clear (this : QuadTree) : QuadTree :=
  mkQuadTree (qx this) (qy this) (qwidth this) (qheight this) (maxElements this)
             [] [] 0 None None None None.

(** ** Insertion *)

(** [fifoCandidates]: per direction, the [elements] of the candidate, or
    [null].  The [tree] of a candidate is the child in that direction. *)
Record Candidates := mkCandidates {
  candNW : option (list ElementRect);
  candNE : option (list ElementRect);
  candSW : option (list ElementRect);
  candSE : option (list ElementRect)
}.

Definition no_candidates : Candidates := mkCandidates None None None None.

Definition candidate (d : Direction) (c : Candidates) : option (list ElementRect) :=
  match d with
  | NW => candNW c
  | NE => candNE c
  | SW => candSW c
  | SE => candSE c
  end.

Definition set_candidate (d : Direction) (v : option (list ElementRect)) (c : Candidates)
  : Candidates :=
  match d with
  | NW => mkCandidates v (candNE c) (candSW c) (candSE c)
  | NE => mkCandidates (candNW c) v (candSW c) (candSE c)
  | SW => mkCandidates (candNW c) (candNE c) v (candSE c)
  | SE => mkCandidates (candNW c) (candNE c) (candSW c) v
  end.

(** [if (fifoCandidates[d] == null) fifoCandidates[d] = { tree:
    tree.children[d].get (), elements: [] };
    fifoCandidates[d].elements.push (element)] *)
Definition enqueue (d : Direction) (element : ElementRect) (st : QuadTree * Candidates)
  : Outcome unit * (QuadTree * Candidates) :=
  let (tree, fifoCandidates) := st in
  match candidate d fifoCandidates with
  | Some elements =>
      (Returns tt, (tree, set_candidate d (Some (elements ++ [element])) fifoCandidates))
  | None =>
      match get d tree with
      | Returns (tree', _) =>
          (Returns tt, (tree', set_candidate d (Some [element]) fifoCandidates))
      | Throws m => (Throws m, st)
      end
  end.

(** The body of [for (let content of Array.from (tree.contents))]. *)
Definition flush_content (content : ElementRect) (st : QuadTree * Candidates)
  : Outcome unit * (QuadTree * Candidates) :=
  match fitting content (fst st) with
  | contentDir :: _ => enqueue contentDir content st
  | [] => (Throws TypeError, st)
  end.

(** The body of [for (let element of Array.from (elements))]. *)
Definition push_element (element : ElementRect) (st : QuadTree * Candidates)
  : Outcome unit * (QuadTree * Candidates) :=
  let (tree0, fifoCandidates) := st in
  let tree := set_size (size tree0 + 1) tree0 in
  let fits := fitting element tree in
  if negb (Nat.eqb (length fits) 1) || (qwidth tree =? 1) || (qheight tree =? 1) then
    (Returns tt, (set_oversized (oversized tree ++ [element]) tree, fifoCandidates))
  else if size tree - Z.of_nat (length (oversized tree)) <=? maxElements tree then
    (Returns tt, (set_contents (contents tree ++ [element]) tree, fifoCandidates))
  else
    match fits with
    | direction :: _ =>
        match enqueue direction element (tree, fifoCandidates) with
        | (Returns _, st1) =>
            match for_of flush_content (contents tree) st1 with
            | (Returns _, (tree2, fifoCandidates2)) =>
                (Returns tt, (set_contents [] tree2, fifoCandidates2))
            | (Throws m, st2) => (Throws m, st2)
            end
        | (Throws m, st1) => (Throws m, st1)
        end
    | [] => (Throws TypeError, (tree, fifoCandidates))
    end.

(** A node of the tree, by the directions that lead to it from the root. *)
Definition Path := list Direction.

Fixpoint node_at (path : Path) (root : QuadTree) : option QuadTree :=
  match path with
  | [] => Some root
  | d :: path' =>
      match child d root with
      | Some c => node_at path' c
      | None => None
      end
  end.

(** The root after the node at [path] has become [node]. *)
Fixpoint replace_at (path : Path) (node : QuadTree) (root : QuadTree) : QuadTree :=
  match path with
  | [] => node
  | d :: path' =>
      match child d root with
      | Some c => set_child d (Some (replace_at path' node c)) root
      | None => root
      end
  end.

(** [for (direction in fifoCandidates) if (candidate != null) fifo.push
    (candidate)], for the candidates of the node at [path]. *)
Definition candidate_entries (path : Path) (fifoCandidates : Candidates)
  : list (Path * list ElementRect) :=
  flat_map (fun direction =>
              match candidate direction fifoCandidates with
              | Some elements => [(path ++ [direction], elements)]
              | None => []
              end) directions.

(** [while (fifo.length > 0)] of [pushAll].  An entry of the queue is the
    path of its [tree] and its [elements].  [None]: the loop is not over after
    [fuel] iterations, or an entry names no node; the latter does not happen,
    an entry being enqueued for a child that [get] has just returned
    ([pushAll_pushNode]). *)
Fixpoint pushAll_loop (fuel : nat) (fifo : list (Path * list ElementRect))
  (root : QuadTree) : option (Outcome unit * QuadTree) :=
  match fifo with
  | [] => Some (Returns tt, root)
  | (path, elements) :: rest =>
      match fuel with
      | O => None
      | S fuel' =>
          match node_at path root with
          | None => None
          | Some tree =>
              match for_of push_element elements (tree, no_candidates) with
              | (Returns _, (tree', fifoCandidates)) =>
                  pushAll_loop fuel' (rest ++ candidate_entries path fifoCandidates)
                               (replace_at path tree' root)
              | (Throws m, (tree', _)) => Some (Throws m, replace_at path tree' root)
              end
          end
      end
  end.

(** [pushAll (items)], with [doObserve] left to its default [false]. *)
Definition pushAll (fuel : nat) (items : list JsValue) (this : QuadTree)
  : option (Outcome unit * QuadTree) :=
  match for_of (fun item s => (validateElement item, s)) items tt with
  | (Throws m, _) => Some (Throws m, this)
  | (Returns _, _) => pushAll_loop fuel [([], as_elements items)] this
  end.

(** [push (item)] *)
Definition push (fuel : nat) (item : JsValue) (this : QuadTree)
  : option (Outcome unit * QuadTree) :=
  pushAll fuel [item] this.

(** ** Removal *)

(** [remove (item, stillObserve)]; [unobserve] does not touch the tree. *)
Fixpoint remove (item : ElementRect) (this : QuadTree) : Outcome bool * QuadTree :=
  match validateElement (to_js item) with
  | Throws m => (Throws m, this)
  | Returns _ =>
      match indexOf item (oversized this) with
      | Some index =>
          (Returns true,
           set_size (size this - 1) (set_oversized (splice index (oversized this)) this))
      | None =>
          match indexOf item (contents this) with
          | Some index =>
              (Returns true,
               set_size (size this - 1) (set_contents (splice index (contents this)) this))
          | None =>
              let d := calculateDirection item this in
              match child d this with
              | None => (Returns false, this)
              | Some relatedChild =>
                  match remove item relatedChild with
                  | (Returns true, relatedChild') =>
                      let this' :=
                        set_size (size this - 1) (set_child d (Some relatedChild') this) in
                      (Returns true,
                       if size relatedChild' =? 0 then set_child d None this' else this')
                  | (Returns false, relatedChild') =>
                      (Returns false, set_child d (Some relatedChild') this)
                  | (Throws m, relatedChild') =>
                      (Throws m, set_child d (Some relatedChild') this)
                  end
              end
          end
      end
  end.

(** ** Traversals *)

(** The children that exist, in key order. *)
Definition live_children (top : QuadTree) : list QuadTree :=
  flat_map (fun d => match child d top with Some c => [c] | None => [] end) directions.

(** [while (fifo.length > 0) { const top = fifo.shift (); ... }] of the
    methods that only read the tree: [body] gives the new accumulator and the
    nodes pushed on the queue. *)
Fixpoint while_fifo {A : Type} (body : QuadTree -> A -> A * list QuadTree)
  (fuel : nat) (fifo : list QuadTree) (acc : A) : option A :=
  match fifo with
  | [] => Some acc
  | top :: rest =>
      match fuel with
      | O => None
      | S fuel' =>
          let (acc', pushed) := body top acc in
          while_fifo body fuel' (rest ++ pushed) acc'
      end
  end.

(** The number of nodes of a tree: the iterations a traversal needs. *)
Fixpoint node_count (t : QuadTree) : nat :=
  S (fold_right (fun d n =>
                   match child d t with
                   | Some c => (node_count c + n)%nat
                   | None => n
                   end) O directions).

(** [find] *)
Definition find (predicate : JsPredicate) (this : QuadTree) : option (list ElementRect) :=
  while_fifo
    (fun top items =>
       (items ++ filter (call_predicate predicate) (oversized top)
              ++ filter (call_predicate predicate) (contents top),
        live_children top))
    (node_count this) [this] [].

(** [each]: [action] acts on a state of the caller. *)
Definition each {S : Type} (action : option (ElementRect -> S -> S)) (this : QuadTree)
  (s : S) : option S :=
  while_fifo
    (fun top s =>
       (match action with
        | Some f => fold_left (fun s i => f i s) (oversized top ++ contents top) s
        | None => s
        end,
        live_children top))
    (node_count this) [this] s.

(** The selection of the children to visit in [colliding] and [onCollision]
    (the two methods hold the same lines). *)
Definition colliding_fits (item : Rect) (top : QuadTree) : list Direction :=
  let fits := fitting item top in
  if Nat.eqb (length fits) 0 then
    let fits := [] in
    let fits := if x item >=? qx top + qwidth top then fits ++ [NE] else fits in
    let fits := if y item >=? qy top + qheight top then fits ++ [SW] else fits in
    if Nat.ltb 0 (length fits) then
      if Nat.eqb (length fits) 1 then fits ++ [SE] else [SE]
    else fits
  else fits.

(** [for (let child of Array.from (fits)) if (top.children[child].tree !=
    null) fifo.push (top.children[child].tree)] *)
Definition children_in (fits : list Direction) (top : QuadTree) : list QuadTree :=
  flat_map (fun d => match child d top with Some c => [c] | None => [] end) fits.

Definition collides (collisionFunction : Rect -> Rect -> bool) (item elt : ElementRect)
  : bool :=
  negb (same_object elt item) && collisionFunction item elt.

(** [colliding] *)
Definition colliding (item : ElementRect) (collisionFunction : Rect -> Rect -> bool)
  (this : QuadTree) : option (Outcome (list ElementRect)) :=
  match validateElement (to_js item) with
  | Throws m => Some (Throws m)
  | Returns _ =>
      option_map Returns
        (while_fifo
           (fun top items =>
              (items ++ filter (collides collisionFunction item) (oversized top)
                     ++ filter (collides collisionFunction item) (contents top),
               children_in (colliding_fits item top) top))
           (node_count this) [this] [])
  end.

(** [onCollision]: [callback] acts on a state of the caller. *)
Definition onCollision {S : Type} (item : ElementRect) (callback : ElementRect -> S -> S)
  (collisionFunction : Rect -> Rect -> bool) (this : QuadTree) (s : S)
  : option (Outcome unit * S) :=
  match validateElement (to_js item) with
  | Throws m => Some (Throws m, s)
  | Returns _ =>
      option_map (fun s' => (Returns tt, s'))
        (while_fifo
           (fun top s =>
              (fold_left (fun s elt => callback elt s)
                         (filter (collides collisionFunction item)
                                 (oversized top ++ contents top)) s,
               children_in (colliding_fits item top) top))
           (node_count this) [this] s)
  end.

(** ** Cloning *)

(** [predicate == null || (typeof predicate === "function" ? predicate (item)
    : undefined)] *)
Definition keeps (predicate : JsPredicate) (item : ElementRect) : bool :=
  match predicate with
  | PredicateNull => true
  | _ => call_predicate predicate item
  end.

(** [deepclone] of [filter]; [None] is [null]. *)
Fixpoint deepclone (predicate : JsPredicate) (target : QuadTree)
  : Outcome (option QuadTree) :=
  match new_QuadTree (mkOptions (Some (qx target)) (Some (qy target))
                                (Some (qwidth target)) (Some (qheight target))
                                (Some (maxElements target))) with
  | Throws m => Throws m
  | Returns copycat0 =>
      let copycat := set_size 0 copycat0 in
      let cloned :=
        fold_left
          (fun acc d =>
             match acc with
             | Throws m => Throws m
             | Returns copycat =>
                 match child d target with
                 | None => Returns copycat
                 | Some c =>
                     match deepclone predicate c with
                     | Throws m => Throws m
                     | Returns clone =>
                         let copycat := set_child d clone copycat in
                         Returns (set_size (size copycat
                                            + match clone with
                                              | Some t => size t
                                              | None => 0
                                              end) copycat)
                     end
                 end
             end)
          directions (Returns copycat) in
      match cloned with
      | Throws m => Throws m
      | Returns copycat =>
          let copycat :=
            set_oversized (oversized copycat ++ filter (keeps predicate) (oversized target))
                          copycat in
          let copycat :=
            set_contents (contents copycat ++ filter (keeps predicate) (contents target))
                         copycat in
          let copycat :=
            set_size (size copycat + (Z.of_nat (length (oversized copycat))
                                      + Z.of_nat (length (contents copycat)))) copycat in
          if size copycat =? 0 then Returns None else Returns (Some copycat)
      end
  end.

(** [filter], named [filter_tree] beside the [filter] of lists. *)
Definition filter_tree (predicate : JsPredicate) (this : QuadTree)
  : Outcome (option QuadTree) :=
  deepclone predicate this.

(** [reject] *)
Definition reject (predicate : JsPredicate) (this : QuadTree)
  : Outcome (option QuadTree) :=
  filter_tree (PredicateFunction (fun i => negb (call_predicate predicate i))) this.

(** ** The elements and the nodes of a tree *)

(** The elements a node holds itself. *)
Definition local (t : QuadTree) : list ElementRect := oversized t ++ contents t.

(** Every element of a tree, a node before its children. *)
Fixpoint elements (t : QuadTree) : list ElementRect :=
  oversized t ++ contents t
  ++ flat_map (fun d => match child d t with
                        | Some c => elements c
                        | None => []
                        end) directions.

(** Every node of a tree, a node before its children. *)
Fixpoint nodes (t : QuadTree) : list QuadTree :=
  t :: flat_map (fun d => match child d t with
                          | Some c => nodes c
                          | None => []
                          end) directions.

(** The elements of what [filter] returns. *)
Definition elements_of_clone (r : option QuadTree) : list ElementRect :=
  match r with
  | Some t => elements t
  | None => []
  end.

(** [size] of the child in slot [d], 0 when the slot is empty. *)
Definition child_size (d : Direction) (t : QuadTree) : Z :=
  match child d t with
  | Some c => size c
  | None => 0
  end.

(** The nodes a traversal dequeues, in order. *)
Fixpoint visit_order (fuel : nat) (fifo : list QuadTree) : list QuadTree :=
  match fifo, fuel with
  | top :: rest, S fuel' => top :: visit_order fuel' (rest ++ live_children top)
  | _, _ => []
  end.

(** [quad.each (() => count++)] from [count = 0]. *)
Definition count_each (this : QuadTree) : option nat :=
  each (Some (fun (_ : ElementRect) (count : nat) => S count)) this O.

(** ** Invariants *)

(** Every node went through the checks of the constructor. *)
Inductive constructed : QuadTree -> Prop :=
| constructed_node (t : QuadTree) :
    1 <= qwidth t -> 1 <= qheight t -> 1 <= maxElements t ->
    (forall d c, child d t = Some c -> constructed c) ->
    constructed t.

(** [element] was accepted by the second branch of the insertion loop of
    [tree]: it fits one quadrant and the node is not at its minimal size. *)
Definition single_fit (element : Rect) (tree : QuadTree) : Prop :=
  length (fitting element tree) = 1%nat.

(** The shape the insertion loop relies on: every node is constructed, its
    existing children are those that [create] builds, and each element of its
    [contents] fits one quadrant. *)
Inductive shaped : QuadTree -> Prop :=
| shaped_node (t : QuadTree) :
    1 <= qwidth t -> 1 <= qheight t -> 1 <= maxElements t ->
    Forall (fun e : ElementRect => single_fit e t) (contents t) ->
    (forall d c, child d t = Some c -> create t d = Returns (clear c)) ->
    (forall d c, child d t = Some c -> shaped c) ->
    shaped t.

(** The invariant of the tree between two calls. *)
Inductive wf : QuadTree -> Prop :=
| wf_node (t : QuadTree) :
    1 <= qwidth t -> 1 <= qheight t -> 1 <= maxElements t ->
    Forall (fun e : ElementRect => single_fit e t) (contents t) ->
    size t = Z.of_nat (length (oversized t)) + Z.of_nat (length (contents t))
             + (child_size NW t + child_size NE t + child_size SW t + child_size SE t) ->
    (contents t <> [] -> size t - Z.of_nat (length (oversized t)) <= maxElements t) ->
    (forall d c, child d t = Some c -> create t d = Returns (clear c)) ->
    (forall d c, child d t = Some c -> 2 <= qwidth t) ->
    (forall d c, child d t = Some c -> 2 <= qheight t) ->
    (forall d c, child d t = Some c -> 1 <= size c) ->
    (forall d c (e : ElementRect),
       child d t = Some c -> In e (elements c) -> fitting e t = [d]) ->
    (forall d c, child d t = Some c -> wf c) ->
    wf t.

(** ** Insertion, node by node *)

(** The depth of the recursion that [tree] can need: its width halves at
    each level. *)
Definition depth_of (tree : QuadTree) : nat := Z.to_nat (Z.log2_up (qwidth tree)).

(** What [pushAll] does below one node, as a recursion on the tree: the
    batch is processed at the node, then each candidate in its child.
    [depth] bounds the recursion. *)
Fixpoint pushNode (depth : nat) (elements : list ElementRect) (tree : QuadTree)
  : QuadTree :=
  let (tree', fifoCandidates) := snd (for_of push_element elements (tree, no_candidates)) in
  match depth with
  | O => tree'
  | S depth' =>
      set_children
        (fun d =>
           match candidate d fifoCandidates, child d tree' with
           | Some elements', Some c => Some (pushNode depth' elements' c)
           | _, slot => slot
           end) tree'
  end.

(** The number of nodes that [pushNode] processes. *)
Fixpoint visits (depth : nat) (elements : list ElementRect) (tree : QuadTree) : nat :=
  let (tree', fifoCandidates) := snd (for_of push_element elements (tree, no_candidates)) in
  match depth with
  | O => 1
  | S depth' =>
      S (fold_right
           (fun d n =>
              match candidate d fifoCandidates, child d tree' with
              | Some elements', Some c => (visits depth' elements' c + n)%nat
              | _, _ => n
              end) O directions)
  end.

(** The states of a tree between two calls. *)
Inductive reachable : QuadTree -> Prop :=
| reachable_new (options : QuadTreeUserOptions) (t : QuadTree) :
    new_QuadTree options = Returns t -> reachable t
| reachable_pushAll (fuel : nat) (items : list JsValue) (o : Outcome unit)
    (t t' : QuadTree) :
    reachable t -> pushAll fuel items t = Some (o, t') -> reachable t'
| reachable_remove (item : ElementRect) (o : Outcome bool) (t t' : QuadTree) :
    reachable t -> remove item t = (o, t') -> reachable t'
| reachable_clear (t : QuadTree) :
    reachable t -> reachable (clear t).

(** * Definitions used to state the properties *)


(** The claim of an exact tiling for every node of width and height at least
    1, as a proposition about one node. *)
Definition exact_tiling_claim (tree : QuadTree) : Prop :=
  1 <= qwidth tree -> 1 <= qheight tree -> quadrants_partition tree.

Definition unit_node : QuadTree :=
  mkQuadTree 0 0 1 1 1 [] [] 0 None None None None.

Definition node_5_by_4 : QuadTree :=
  mkQuadTree 3 7 5 4 1 [] [] 0 None None None None.

(** An item that [pushAll] accepts: an object that has [x] and [y] and
    neither a negative [width] nor a negative [height]. *)
Definition valid_element (v : JsValue) : Prop :=
  match v with
  | JsObject _ (Some _) (Some _) ewidth eheight =>
      (forall w, ewidth = Some w -> 0 <= w) /\ (forall h, eheight = Some h -> 0 <= h)
  | _ => False
  end.

Definition pristine_100 : QuadTree :=
  mkQuadTree 0 0 100 100 2 [] [] 0 None None None None.


Definition total_count (fifo : list QuadTree) : nat := list_sum (map node_count fifo).

(** The elements in the order in which a full traversal meets them. *)
Definition traversal_order (t : QuadTree) : list ElementRect :=
  flat_map local (visit_order (node_count t) [t]).

(** The clone that [deepclone] links in slot [d]. *)
Definition clone_slot (predicate : JsPredicate) (t : QuadTree) (d : Direction)
  : option QuadTree :=
  match child d t with
  | Some c => match deepclone predicate c with
              | Returns r => r
              | Throws _ => None
              end
  | None => None
  end.

Definition size_of_clone (r : option QuadTree) : Z :=
  match r with
  | Some t => size t
  | None => 0
  end.

(** The clone of a node whose children could be cloned. *)
Definition clone_node (predicate : JsPredicate) (t : QuadTree) : QuadTree :=
  mkQuadTree (qx t) (qy t) (qwidth t) (qheight t) (maxElements t)
    (filter (keeps predicate) (contents t))
    (filter (keeps predicate) (oversized t))
    (size_of_clone (clone_slot predicate t NW) + size_of_clone (clone_slot predicate t NE)
     + size_of_clone (clone_slot predicate t SW) + size_of_clone (clone_slot predicate t SE)
     + Z.of_nat (length (filter (keeps predicate) (oversized t)))
     + Z.of_nat (length (filter (keeps predicate) (contents t))))
    (clone_slot predicate t NW) (clone_slot predicate t NE)
    (clone_slot predicate t SW) (clone_slot predicate t SE).

Definition child_elements (d : Direction) (t : QuadTree) : list ElementRect :=
  match child d t with
  | Some c => elements c
  | None => []
  end.

(** What the induction gives for the clone of a tree. *)
Definition clone_ok (predicate : JsPredicate) (t : QuadTree) (r : option QuadTree)
  : Prop :=
  elements_of_clone r = filter (keeps predicate) (elements t) /\
  size_of_clone r = Z.of_nat (length (elements_of_clone r)) /\
  match r with
  | Some c => constructed c /\ size c <> 0
  | None => True
  end.





Definition two_element_tree : QuadTree :=
  mkQuadTree 0 0 100 100 2
    [mkElement 1 (mkRect 10 10 (Some 5) (Some 5));
     mkElement 2 (mkRect 60 60 (Some 5) (Some 5))] [] 2 None None None None.

(** Two elements are the same object or not. *)
Definition ElementRect_eq_dec (a b : ElementRect) : {a = b} + {a <> b}.
Proof. repeat decide equality. Defined.

(** The number of references to [e] in a list. *)
Definition occurrences (e : ElementRect) (l : list ElementRect) : nat :=
  count_occ ElementRect_eq_dec l e.

Definition same_geometry (a b : QuadTree) : Prop :=
  qx a = qx b /\ qy a = qy b /\ qwidth a = qwidth b /\ qheight a = qheight b /\
  maxElements a = maxElements b.

(** The elements that wait in the candidates. *)
Definition pending (c : Candidates) : list ElementRect :=
  flat_map (fun d => match candidate d c with Some l => l | None => [] end) directions.

(** The capacity rule at a node: [contents] is only in use while the
    elements below the node that are not oversized are at most
    [maxElements]. *)
Definition within_capacity (t : QuadTree) : Prop :=
  contents t <> [] -> size t - Z.of_nat (length (oversized t)) <= maxElements t.

(** What the loop over a batch keeps true of the child slots and of the
    candidates, at the node that was [n] when the batch began. *)
Record slots_inv (n : QuadTree) (st : QuadTree * Candidates) : Prop := {
  si_geometry : same_geometry (fst st) n;
  si_kept : forall d c, child d n = Some c -> child d (fst st) = Some c;
  si_none : forall d, child d n = None -> candidate d (snd st) = None ->
                      child d (fst st) = None;
  si_made : forall d els, candidate d (snd st) = Some els -> child d n = None ->
                          exists c, create n d = Returns c /\ child d (fst st) = Some c;
  si_cand : forall d els, candidate d (snd st) = Some els ->
                          els <> [] /\ Forall (fun e : ElementRect => fitting e n = [d]) els;
  si_split : pending (snd st) <> [] -> 2 <= qwidth n /\ 2 <= qheight n
}.

(** What it keeps true of the elements: [done] is the part of the batch
    already processed. *)
Record counts_inv (n : QuadTree) (done : list ElementRect) (st : QuadTree * Candidates)
  : Prop := {
  ci_fit : Forall (fun e : ElementRect => single_fit e n) (contents (fst st));
  ci_size : size (fst st) = size n + Z.of_nat (length done);
  ci_perm : Permutation (oversized (fst st) ++ contents (fst st) ++ pending (snd st))
                        (oversized n ++ contents n ++ done);
  ci_cap : within_capacity n -> within_capacity (fst st)
}.

(** Two paths that part at some node: none is a prefix of the other. *)
Inductive diverge : Path -> Path -> Prop :=
| diverge_here (d1 d2 : Direction) (p q : Path) :
    d1 <> d2 -> diverge (d1 :: p) (d2 :: q)
| diverge_below (d : Direction) (p q : Path) :
    diverge p q -> diverge (d :: p) (d :: q).

(** An entry of the queue with the depth that bounds the recursion below its
    node. *)
Definition GhostEntry : Type := Path * list ElementRect * nat.

Definition entry_path (g : GhostEntry) : Path := fst (fst g).

Definition erase (gs : list GhostEntry) : list (Path * list ElementRect) :=
  map (fun g : GhostEntry => (fst (fst g), snd (fst g))) gs.

(** The effect of an entry once everything below it is processed. *)
Definition apply_entry (r : QuadTree) (g : GhostEntry) : QuadTree :=
  match node_at (entry_path g) r with
  | Some nd => replace_at (entry_path g) (pushNode (snd g) (snd (fst g)) nd) r
  | None => r
  end.

Definition apply_all (gs : list GhostEntry) (r : QuadTree) : QuadTree :=
  fold_left apply_entry gs r.

Definition entry_cost (r : QuadTree) (g : GhostEntry) : nat :=
  match node_at (entry_path g) r with
  | Some nd => visits (snd g) (snd (fst g)) nd
  | None => O
  end.

Definition cost (r : QuadTree) (gs : list GhostEntry) : nat :=
  list_sum (map (entry_cost r) gs).

(** The entries that a node enqueues for its candidates. *)
Definition ghost_children (k : nat) (c : Candidates) : list GhostEntry :=
  flat_map (fun d => match candidate d c with
                     | Some els => [([d], els, k)]
                     | None => []
                     end) directions.

Definition under (p : Path) (g : GhostEntry) : GhostEntry :=
  (p ++ fst (fst g), snd (fst g), snd g).

Definition entry_ok (root : QuadTree) (g : GhostEntry) : Prop :=
  exists nd, node_at (entry_path g) root = Some nd /\ shaped nd /\
             qwidth nd <= 2 ^ Z.of_nat (snd g).

Definition paths_diverge (gs : list GhostEntry) : Prop :=
  ForallOrdPairs (fun g h => diverge (entry_path g) (entry_path h)) gs.

Definition cand_list (d : Direction) (c : Candidates) : list ElementRect :=
  match candidate d c with
  | Some l => l
  | None => []
  end.

(** The children after [pushNode]. *)
Definition pushed_child (k : nat) (cands : Candidates) (t1 : QuadTree) (d : Direction)
  : option QuadTree :=
  match candidate d cands, child d t1 with
  | Some elements', Some c => Some (pushNode (pred k) elements' c)
  | _, slot => slot
  end.

(** What [pushNode] does to the slot [d] of the node [t], which becomes [T]. *)
Definition slot_ok (t T : QuadTree) (cands : Candidates) (d : Direction) : Prop :=
  child_size d T = child_size d t + Z.of_nat (length (cand_list d cands)) /\
  Permutation (child_elements d T) (child_elements d t ++ cand_list d cands) /\
  (forall c', child d T = Some c' ->
     create t d = Returns (clear c') /\ 2 <= qwidth t /\ 2 <= qheight t /\
     1 <= size c' /\ wf c' /\
     (forall e : ElementRect, In e (elements c') -> fitting e t = [d])).

(** The elements of the examples. *)
Definition elt_a : ElementRect := mkElement 1 (mkRect 10 10 (Some 5) (Some 5)).
Definition elt_b : ElementRect := mkElement 2 (mkRect 60 60 (Some 5) (Some 5)).
Definition elt_c : ElementRect := mkElement 3 (mkRect 10 60 (Some 5) (Some 5)).
Definition elt_d : ElementRect := mkElement 4 (mkRect 70 10 (Some 5) (Some 5)).

Definition leaf_50 (x0 y0 : Z) (e : ElementRect) : QuadTree :=
  mkQuadTree x0 y0 50 50 2 [e] [] 1 None None None None.

(** [new QuadTree ({ width: 100, height: 100, maxElements: 2 })], after
    [pushAll ([a, b, c])]: the third element exceeds the capacity and the
    root flushes its contents. *)
Definition tree_abc : QuadTree :=
  mkQuadTree 0 0 100 100 2 [] [] 3
    (Some (leaf_50 0 0 elt_a)) None
    (Some (leaf_50 0 50 elt_c)) (Some (leaf_50 50 50 elt_b)).

(** ... after [remove (a)], *)
Definition tree_bc : QuadTree :=
  mkQuadTree 0 0 100 100 2 [] [] 2
    None None (Some (leaf_50 0 50 elt_c)) (Some (leaf_50 50 50 elt_b)).

(** ... after [remove (b)], *)
Definition tree_c : QuadTree :=
  mkQuadTree 0 0 100 100 2 [] [] 1
    None None (Some (leaf_50 0 50 elt_c)) None.

(** ... and after [push (d)]: [d] is held by the root, next to a child. *)
Definition tree_cd : QuadTree :=
  mkQuadTree 0 0 100 100 2 [elt_d] [] 2
    None None (Some (leaf_50 0 50 elt_c)) None.

(** The node holds no element in [contents] and has a child. *)
Definition internal (t : QuadTree) : Prop :=
  contents t = [] /\ live_children t <> [].

(** The node holds elements in [contents] and has a child. *)
Definition leaf_with_children (t : QuadTree) : Prop :=
  contents t <> [] /\ live_children t <> [].

(** [t'] comes from [t] by calls to [push] and [remove] after none of which
    the tree is empty. *)
Inductive later : QuadTree -> QuadTree -> Prop :=
| later_now (t : QuadTree) : later t t
| later_push (fuel : nat) (item : JsValue) (t t' t'' : QuadTree) :
    later t t' -> push fuel item t' = Some (Returns tt, t'') -> size t'' <> 0 ->
    later t t''
| later_remove (item : ElementRect) (b : bool) (t t' t'' : QuadTree) :
    later t t' -> remove item t' = (Returns b, t'') -> size t'' <> 0 ->
    later t t''.

(** The claim that an internal node stays internal until its subtree is
    empty, for the root. *)
Definition never_reverts : Prop :=
  forall t t', reachable t -> internal t -> later t t' -> ~ leaf_with_children t'.

(** [push (e)] returns, with the tree [t'], whatever fuel at least [fuel0]
    the loop is given. *)
Definition pushes (e : ElementRect) (t t' : QuadTree) : Prop :=
  exists fuel0, forall fuel, (fuel0 <= fuel)%nat ->
    push fuel (to_js e) t = Some (Returns tt, t').

(** [i => i === e] *)
Definition is_object (e : ElementRect) : JsPredicate :=
  PredicateFunction (fun i => same_object i e).

(** The claim on [push], [find] and [remove], for one state of the tree and
    one element. *)
Definition push_find_remove (t : QuadTree) (e : ElementRect) : Prop :=
  exists t1 t2,
    pushes e t t1 /\
    find (is_object e) t1 = Some [e] /\
    remove e t1 = (Returns true, t2) /\
    find (is_object e) t2 = Some [] /\
    remove e t2 = (Returns false, t2).

(** The root holds [a] twice once [a] is pushed again. *)
Definition tree_a : QuadTree :=
  mkQuadTree 0 0 100 100 2 [elt_a] [] 1 None None None None.

Definition tree_aa : QuadTree :=
  mkQuadTree 0 0 100 100 2 [elt_a; elt_a] [] 2 None None None None.

(** The scenario of the tests: a space of 10000 by 10000 with [maxElements]
    5, and the rectangle [rect1] in it. *)
Definition rect1 : ElementRect := mkElement 1 (mkRect 10 10 (Some 100) (Some 100)).

Definition query (x0 y0 : Z) : ElementRect :=
  mkElement 2 (mkRect x0 y0 (Some 100) (Some 100)).

Definition pristine_10000 : QuadTree :=
  mkQuadTree 0 0 10000 10000 5 [] [] 0 None None None None.

Definition tree_rect1 : QuadTree :=
  mkQuadTree 0 0 10000 10000 5 [rect1] [] 1 None None None None.

(** * Queries by properties and node visits *)

(** [query[key] !== elt[key]] for a key of the model: [None] is a key that
    the query does not hold. *)
Definition key_matches (queried : option Z) (held : option Z) : bool :=
  match queried with
  | Some n => option_Z_eqb (Some n) held
  | None => true
  end.

(** [check] after [for (key in query) if (query[key] !== elt[key]) check =
    false].  The keys [x], [y], [width] and [height] of the query are those
    of the model; [extras] is the outcome of the comparison on the other
    keys that the query holds ([fun _ => true] when it has none). *)
Definition matches (query : JsValue) (extras : ElementRect -> bool) (elt : ElementRect)
  : bool :=
  match query with
  | JsObject _ kx ky kwidth kheight =>
      key_matches kx (Some (x elt)) && key_matches ky (Some (y elt))
      && key_matches kwidth (width elt) && key_matches kheight (height elt)
      && extras elt
  | _ => extras elt
  end.

(** [where]: a query that lacks [x] or [y] scans the tree with [find]; a
    query that has both follows [calculateDirection] from the root.
    [where] is a keyword of Rocq. *)
Definition where_ (query : JsValue) (extras : ElementRect -> bool) (this : QuadTree)
  : option (Outcome (list ElementRect)) :=
  match query with
  | JsNull => Some (Throws TypeError)
  | JsPrimitive => Some (Throws NotAnElement)
  | JsObject _ kx ky _ _ =>
      if is_null kx || is_null ky then
        option_map Returns (find (PredicateFunction (matches query extras)) this)
      else
        match validateElement query, as_element query with
        | Throws m, _ => Some (Throws m)
        | Returns _, None => Some (Throws TypeError)
        | Returns _, Some q =>
            option_map Returns
              (while_fifo
                 (fun top items =>
                    (items ++ filter (matches query extras) (oversized top)
                           ++ filter (matches query extras) (contents top),
                     children_in [calculateDirection q top] top))
                 (node_count this) [this] [])
        end
  end.

(** [get], the alias of [where] ([get] is the getter of a child slot
    above). *)
Definition QuadTree_get (query : JsValue) (extras : ElementRect -> bool) (this : QuadTree)
  : option (Outcome (list ElementRect)) :=
  where_ query extras this.

(** [visit]: [action] reads the node it is bound to and acts on a state of
    the caller; [None] is an action that has no [bind]. *)
Definition visit {S : Type} (action : option (QuadTree -> S -> S)) (this : QuadTree) (s : S)
  : option (Outcome unit * S) :=
  match action with
  | None => Some (Throws TypeError, s)
  | Some f =>
      option_map (fun s' => (Returns tt, s'))
        (while_fifo (fun that s => (f that s, live_children that))
                    (node_count this) [this] s)
  end.

(** * Definitions used to state further properties *)

(** The rectangle [e] lies in the rectangle [r]. *)
Definition within (e r : Rect) : Prop :=
  x r <= x e /\ x e + or_one (width e) <= x r + or_one (width r) /\
  y r <= y e /\ y e + or_one (height e) <= y r + or_one (height r).

(** The nodes that a loop dequeues when each node pushes [next]. *)
Fixpoint visit_by (next : QuadTree -> list QuadTree) (fuel : nat) (fifo : list QuadTree)
  : list QuadTree :=
  match fifo, fuel with
  | top :: rest, S fuel' => top :: visit_by next fuel' (rest ++ next top)
  | _, _ => []
  end.

(** The nodes that [colliding (item)] reaches, a node before its children. *)
Fixpoint selected (item : Rect) (t : QuadTree) : list QuadTree :=
  t :: flat_map (fun d => match child d t with
                          | Some c => selected item c
                          | None => []
                          end) (colliding_fits item t).

(** The nodes that [where (query)] reaches when the query has coordinates. *)
Fixpoint path_nodes (q : Rect) (t : QuadTree) : list QuadTree :=
  t :: match child (calculateDirection q t) t with
       | Some c => path_nodes q c
       | None => []
       end.

(** Where [pushAll] puts an element at a node: in [oversized] when it does
    not fit one quadrant or the node cannot split, in [contents]
    otherwise. *)
Definition placed (n : QuadTree) : Prop :=
  Forall (fun e : ElementRect =>
            length (fitting e n) <> 1%nat \/ qwidth n = 1 \/ qheight n = 1) (oversized n) /\
  Forall (fun e : ElementRect =>
            length (fitting e n) = 1%nat /\ qwidth n <> 1 /\ qheight n <> 1) (contents n).

(** A property of every node of a tree. *)
Inductive all_nodes (P : QuadTree -> Prop) : QuadTree -> Prop :=
| all_nodes_node (t : QuadTree) :
    P t -> (forall d c, child d t = Some c -> all_nodes P c) -> all_nodes P t.

(** The options that rebuild the rectangle of a node. *)
Definition options_of (t : QuadTree) : QuadTreeUserOptions :=
  mkOptions (Some (qx t)) (Some (qy t)) (Some (qwidth t)) (Some (qheight t))
            (Some (maxElements t)).

(** [pushAll (items)] returns, with the tree [t'], whatever fuel at least
    [fuel0] the loop is given. *)
Definition pushesAll (items : list JsValue) (t t' : QuadTree) : Prop :=
  exists fuel0, forall fuel, (fuel0 <= fuel)%nat ->
    pushAll fuel items t = Some (Returns tt, t').

(** The elements that wait for a child once two batches were processed at
    its parent, the first before the second. *)
Definition merge (first second : option (list ElementRect)) : option (list ElementRect) :=
  match first, second with
  | Some l, Some l' => Some (l ++ l')
  | Some l, None => Some l
  | None, s => s
  end.

(** A node without its children. *)
Definition shell (t : QuadTree) : QuadTree := set_children (fun _ => None) t.

(** A node at which a second batch is processed while the candidates of the
    first batch wait ([a]), and the same node at which the second batch is
    processed after the candidates of the first batch were processed in the
    children ([b]).  [first] holds the candidates of the first batch and
    [below] the children once these are processed. *)
Record sim (first : Candidates) (below : Direction -> option QuadTree)
  (a b : QuadTree * Candidates) : Prop := {
  sim_local : shell (fst a) = shell (fst b);
  sim_child : forall d, child d (fst b) = match candidate d first with
                                          | Some _ => below d
                                          | None => child d (fst a)
                                          end;
  sim_cand : forall d, candidate d (snd a) = merge (candidate d first) (candidate d (snd b))
}.


(** * Geometry *)

Section HalfArithmetic.

Variable n : Z.

Lemma floor_half_bounds : 2 * floor_half n <= n < 2 * floor_half n + 2.
Proof.
  unfold floor_half.
  pose proof (Z.div_mod n 2) as E.
  pose proof (Z.mod_pos_bound n 2) as B.
  lia.
Qed.

Lemma ceil_half_bounds : n <= 2 * ceil_half n < n + 2.
Proof.
  unfold ceil_half.
  pose proof (Z.div_mod (- n) 2) as E.
  pose proof (Z.mod_pos_bound (- n) 2) as B.
  lia.
Qed.

Lemma floor_ceil_half : floor_half n + ceil_half n = n.
Proof.
  pose proof floor_half_bounds. pose proof ceil_half_bounds. lia.
Qed.

Lemma left_half_big : 2 <= n -> Z.max (floor_half n) 1 = floor_half n.
Proof.
  pose proof floor_half_bounds. lia.
Qed.

Lemma left_half_one : n = 1 -> Z.max (floor_half n) 1 = 1 /\ ceil_half n = 1.
Proof.
  pose proof floor_half_bounds. pose proof ceil_half_bounds. lia.
Qed.

End HalfArithmetic.

Lemma boundingBoxCollision_true (a b : Rect) :
  boundingBoxCollision a b = true <->
  half_open_overlap (x a) (x a + or_one (width a)) (x b) (x b + or_one (width b)) /\
  half_open_overlap (y a) (y a + or_one (height a)) (y b) (y b + or_one (height b)).
Proof.
  unfold boundingBoxCollision, half_open_overlap.
  rewrite negb_true_iff, !orb_false_iff.
  rewrite Z.geb_leb, !Z.leb_gt, Z.geb_leb, Z.leb_gt.
  lia.
Qed.

Lemma boundingBoxCollision_false (a b : Rect) :
  boundingBoxCollision a b = false <->
  x b + or_one (width b) <= x a \/ x a + or_one (width a) <= x b \/
  y b + or_one (height b) <= y a \/ y a + or_one (height a) <= y b.
Proof.
  destruct (boundingBoxCollision a b) eqn:E.
  - apply boundingBoxCollision_true in E. unfold half_open_overlap in E.
    split; [discriminate | lia].
  - split; [intros _ | reflexivity].
    assert (N : ~ boundingBoxCollision a b = true) by congruence.
    rewrite boundingBoxCollision_true in N. unfold half_open_overlap in N. lia.
Qed.



Lemma boundingBoxCollision_default_extent :
  boundingBoxCollision (mkRect 0 0 None None) (mkRect 1 0 None None) = false /\
  boundingBoxCollision (mkRect 0 0 None None) (mkRect 0 0 None None) = true.
Proof. split; reflexivity. Qed.

(** ** splitTree *)

Lemma splitTree_entries (tree : QuadTree) :
  map fst (splitTree tree) = directions.
Proof. reflexivity. Qed.

Lemma quadrant_NW tree :
  quadrant tree NW = mkRect (qx tree) (qy tree)
    (Some (Z.max (floor_half (qwidth tree)) 1)) (Some (Z.max (floor_half (qheight tree)) 1)).
Proof. reflexivity. Qed.

Lemma quadrant_NE tree :
  quadrant tree NE = mkRect (qx tree + Z.max (floor_half (qwidth tree)) 1) (qy tree)
    (Some (ceil_half (qwidth tree))) (Some (Z.max (floor_half (qheight tree)) 1)).
Proof. reflexivity. Qed.

Lemma quadrant_SW tree :
  quadrant tree SW = mkRect (qx tree) (qy tree + Z.max (floor_half (qheight tree)) 1)
    (Some (Z.max (floor_half (qwidth tree)) 1)) (Some (ceil_half (qheight tree))).
Proof. reflexivity. Qed.

Lemma quadrant_SE tree :
  quadrant tree SE = mkRect (qx tree + Z.max (floor_half (qwidth tree)) 1)
    (qy tree + Z.max (floor_half (qheight tree)) 1)
    (Some (ceil_half (qwidth tree))) (Some (ceil_half (qheight tree))).
Proof. reflexivity. Qed.

Lemma splitTree_quadrants tree :
  splitTree tree = map (fun d => (d, quadrant tree d)) directions.
Proof. reflexivity. Qed.

Lemma fitting_filter (e : Rect) (t : QuadTree) :
  fitting e t = filter (fun d => boundingBoxCollision e (quadrant t d)) directions.
Proof.
  unfold fitting. rewrite splitTree_quadrants. cbn [directions map filter snd].
  destruct (boundingBoxCollision e (quadrant t NW)),
           (boundingBoxCollision e (quadrant t NE)),
           (boundingBoxCollision e (quadrant t SW)),
           (boundingBoxCollision e (quadrant t SE)); reflexivity.
Qed.

Ltac half_facts tree :=
  pose proof (floor_half_bounds (qwidth tree));
  pose proof (ceil_half_bounds (qwidth tree));
  pose proof (floor_half_bounds (qheight tree));
  pose proof (ceil_half_bounds (qheight tree)).

Ltac rect_simpl := cbn [x y width height or_one bounds qx qy qwidth qheight] in *.

Ltac open_quadrants :=
  repeat match goal with
  | H : context [quadrant _ ?d] |- _ =>
      first [ rewrite quadrant_NW in H | rewrite quadrant_NE in H
            | rewrite quadrant_SW in H | rewrite quadrant_SE in H ]
  | |- context [quadrant _ ?d] =>
      first [ rewrite quadrant_NW | rewrite quadrant_NE
            | rewrite quadrant_SW | rewrite quadrant_SE ]
  end.

Lemma quadrants_disjoint_always tree :
  1 <= qwidth tree -> 1 <= qheight tree -> quadrants_disjoint tree.
Proof.
  intros W H d1 d2 px py I1 I2. half_facts tree.
  destruct d1, d2; try reflexivity; exfalso;
    open_quadrants; unfold in_rect in *; rect_simpl; lia.
Qed.

Lemma quadrants_cover_always tree :
  1 <= qwidth tree -> 1 <= qheight tree -> quadrants_cover tree.
Proof.
  intros W H px py I. half_facts tree.
  unfold in_rect in I. rect_simpl.
  destruct (Z_lt_ge_dec px (qx tree + Z.max (floor_half (qwidth tree)) 1)),
           (Z_lt_ge_dec py (qy tree + Z.max (floor_half (qheight tree)) 1)).
  - exists NW. open_quadrants. unfold in_rect. rect_simpl. lia.
  - exists SW. open_quadrants. unfold in_rect. rect_simpl. lia.
  - exists NE. open_quadrants. unfold in_rect. rect_simpl. lia.
  - exists SE. open_quadrants. unfold in_rect. rect_simpl. lia.
Qed.

Lemma quadrants_inside_big tree :
  2 <= qwidth tree -> 2 <= qheight tree -> quadrants_inside tree.
Proof.
  intros W H d px py I. half_facts tree.
  destruct d; open_quadrants; unfold in_rect in *; rect_simpl; lia.
Qed.

(** C3, as stated, fails on a node of width 1: its NE quadrant is the cell
    next to the node. *)
Lemma splitTree_unit_node_not_partition :
  1 <= qwidth unit_node /\ 1 <= qheight unit_node /\
  in_rect (quadrant unit_node NE) 1 0 /\ ~ in_rect (bounds unit_node) 1 0 /\
  ~ exact_tiling_claim unit_node.
Proof.
  assert (I : in_rect (quadrant unit_node NE) 1 0)
    by (unfold in_rect; vm_compute; intuition discriminate).
  assert (O : ~ in_rect (bounds unit_node) 1 0)
    by (unfold in_rect; vm_compute; intuition discriminate).
  split; [simpl; lia |]. split; [simpl; lia |].
  split; [exact I |]. split; [exact O |].
  intros C. destruct C as (_ & _ & Inside); try (simpl; lia).
  apply O, (Inside NE), I.
Qed.

(** C3, amended.  For a node of width and height at least 1, [splitTree] gives
    the left quadrants the width [max (floor (w/2)) 1] and the right ones
    [ceil (w/2)] (likewise for heights), every dimension is at least 1, no
    cell lies in two quadrants and every cell of the node lies in one; the
    quadrants stay inside the node, and so partition it, when its width and
    its height are at least 2. *)
Theorem splitTree_tiling (tree : QuadTree) :
  1 <= qwidth tree -> 1 <= qheight tree ->
  (forall d,
     width (quadrant tree d) =
       Some (match d with
             | NW | SW => Z.max (floor_half (qwidth tree)) 1
             | NE | SE => ceil_half (qwidth tree)
             end) /\
     height (quadrant tree d) =
       Some (match d with
             | NW | NE => Z.max (floor_half (qheight tree)) 1
             | SW | SE => ceil_half (qheight tree)
             end) /\
     1 <= or_one (width (quadrant tree d)) /\
     1 <= or_one (height (quadrant tree d)))
  /\ quadrants_disjoint tree
  /\ quadrants_cover tree
  /\ (2 <= qwidth tree -> 2 <= qheight tree -> quadrants_partition tree).
Proof.
  intros W H. split; [| split; [| split]].
  - intros d. half_facts tree. destruct d; open_quadrants; rect_simpl; repeat split; lia.
  - now apply quadrants_disjoint_always.
  - now apply quadrants_cover_always.
  - intros W2 H2. split; [| split].
    + now apply quadrants_disjoint_always.
    + now apply quadrants_cover_always.
    + now apply quadrants_inside_big.
Qed.

Lemma splitTree_tiling_witness :
  width (quadrant node_5_by_4 NW) = Some 2 /\
  width (quadrant node_5_by_4 NE) = Some 3 /\
  quadrants_partition node_5_by_4.
Proof.
  pose proof (splitTree_tiling node_5_by_4) as T.
  destruct T as (Dims & _ & _ & Part); try (simpl; lia).
  split; [apply (Dims NW) | split; [apply (Dims NE) |]].
  apply Part; simpl; lia.
Defined.

(** * Construction *)

Lemma new_QuadTree_builds (o : QuadTreeUserOptions) (t : QuadTree) :
  new_QuadTree o = Returns t ->
  1 <= qwidth t /\ 1 <= qheight t /\ 1 <= maxElements t /\
  opt_width o = Some (qwidth t) /\ opt_height o = Some (qheight t) /\
  qx t = or_falsy (opt_x o) 0 /\ qy t = or_falsy (opt_y o) 0 /\
  maxElements t = or_falsy (opt_maxElements o) 1 /\
  t = clear t.
Proof.
  unfold new_QuadTree.
  destruct (opt_width o) as [w |]; [| discriminate].
  destruct (opt_height o) as [h |]; [| discriminate].
  destruct ((w <? 1) || (h <? 1)) eqn:D; [discriminate |].
  destruct (or_falsy (opt_maxElements o) 1 <? 1) eqn:M; [discriminate |].
  intros E. injection E as <-. cbn.
  apply orb_false_iff in D. destruct D as [Dw Dh].
  apply Z.ltb_ge in Dw, Dh, M. repeat split; auto.
Qed.

(** With valid dimensions, the constructor throws [InvalidMaxElements]
    exactly when a negative [maxElements] is supplied. *)
Lemma new_QuadTree_InvalidMaxElements (o : QuadTreeUserOptions) (w h : Z) :
  opt_width o = Some w -> opt_height o = Some h -> 1 <= w -> 1 <= h ->
  (new_QuadTree o = Throws InvalidMaxElements <->
   exists m, opt_maxElements o = Some m /\ m < 0).
Proof.
  intros Ew Eh Hw Hh. unfold new_QuadTree. rewrite Ew, Eh.
  assert (D : (w <? 1) || (h <? 1) = false)
    by (apply orb_false_iff; split; apply Z.ltb_ge; lia).
  rewrite D.
  destruct (opt_maxElements o) as [m |]; cbn [or_falsy].
  - destruct (m =? 0) eqn:Z0.
    + apply Z.eqb_eq in Z0. subst m. cbn. split; [discriminate |].
      intros (m & E & L). injection E as <-. lia.
    + apply Z.eqb_neq in Z0. destruct (m <? 1) eqn:L.
      * apply Z.ltb_lt in L. split; [| reflexivity]. intros _. exists m. split; [reflexivity | lia].
      * apply Z.ltb_ge in L. split; [discriminate |].
        intros (m' & E & L'). injection E as <-. lia.
  - cbn. split; [discriminate |]. intros (m & E & _). discriminate.
Qed.

Lemma new_QuadTree_default_maxElements (x0 y0 : option Z) (w h : Z) :
  1 <= w -> 1 <= h ->
  exists t, new_QuadTree (mkOptions x0 y0 (Some w) (Some h) None) = Returns t /\
            maxElements t = 1.
Proof.
  intros Hw Hh. unfold new_QuadTree. cbn [opt_width opt_height opt_x opt_y opt_maxElements].
  assert (D : (w <? 1) || (h <? 1) = false)
    by (apply orb_false_iff; split; apply Z.ltb_ge; lia).
  rewrite D. cbn. eexists. split; reflexivity.
Qed.

(** C9.  The constructor does not throw when [maxElements] is 0: [0 || 1]
    is 1, the check [this.maxElements < 1] sees 1, and the tree is built with
    a capacity of 1. *)
Theorem new_QuadTree_maxElements_zero :
  new_QuadTree (mkOptions None None (Some 1) (Some 1) (Some 0)) =
    Returns (mkQuadTree 0 0 1 1 1 [] [] 0 None None None None) /\
  new_QuadTree (mkOptions None None (Some 1) (Some 1) (Some 0)) <>
    Throws InvalidMaxElements /\
  new_QuadTree (mkOptions None None (Some 1) (Some 1) (Some (-1))) =
    Throws InvalidMaxElements.
Proof.
  split; [reflexivity |]. split; [discriminate | reflexivity].
Qed.

(** * Validation *)

Lemma or_falsy_0_neg (v : option Z) :
  (or_falsy v 0 <? 0) = false <-> (forall w, v = Some w -> 0 <= w).
Proof.
  destruct v as [n |]; cbn.
  - destruct (n =? 0) eqn:E.
    + apply Z.eqb_eq in E. split; [intros _ w [= <-]; lia | reflexivity].
    + rewrite Z.ltb_ge. split; [intros L w [= <-]; exact L | intros A; now apply A].
  - split; [intros _ w; discriminate | reflexivity].
Qed.

Lemma validateElement_valid (v : JsValue) :
  validateElement v = Returns tt <-> valid_element v.
Proof.
  destruct v as [| | r [ex |] [ey |] ew eh]; cbn; try (split; [discriminate | tauto]).
  rewrite <- !or_falsy_0_neg.
  destruct (or_falsy ew 0 <? 0), (or_falsy eh 0 <? 0); cbn;
    split; try discriminate; try tauto; intros [A B]; discriminate.
Qed.

Lemma validateElement_invalid (v : JsValue) :
  ~ valid_element v -> exists m, validateElement v = Throws m.
Proof.
  intros N. destruct (validateElement v) as [[] | m] eqn:E.
  - apply validateElement_valid in E. contradiction.
  - now exists m.
Qed.

Lemma valid_element_dec (v : JsValue) : {valid_element v} + {~ valid_element v}.
Proof.
  destruct (validateElement v) as [[] | m] eqn:E.
  - left. now apply validateElement_valid.
  - right. intros V. apply validateElement_valid in V. congruence.
Qed.

Lemma validation_loop_valid (items : list JsValue) :
  Forall valid_element items ->
  for_of (fun item s => (validateElement item, s)) items tt = (Returns tt, tt).
Proof.
  induction 1 as [| v items V _ IH]; cbn; [reflexivity |].
  apply validateElement_valid in V. now rewrite V.
Qed.

Lemma validation_loop_first_invalid (before after : list JsValue) (bad : JsValue) (m : Error) :
  Forall valid_element before -> validateElement bad = Throws m ->
  for_of (fun item s => (validateElement item, s)) (before ++ bad :: after) tt
  = (Throws m, tt).
Proof.
  intros V B. induction V as [| v before V _ IH]; cbn.
  - now rewrite B.
  - apply validateElement_valid in V. now rewrite V.
Qed.

Lemma first_invalid (items : list JsValue) :
  Exists (fun v => ~ valid_element v) items ->
  exists before bad after,
    items = before ++ bad :: after /\ Forall valid_element before /\ ~ valid_element bad.
Proof.
  induction items as [| v items IH]; intros E; [inversion E |].
  destruct (valid_element_dec v) as [V | N].
  - inversion E as [? ? N | ? ? E']; subst; [contradiction |].
    destruct (IH E') as (before & bad & after & -> & F & B).
    exists (v :: before), bad, after. repeat split; auto.
  - exists [], v, items. repeat split; auto.
Qed.

(** An invalid item in the batch: [pushAll] throws before the loop. *)
Lemma pushAll_first_invalid (fuel : nat) (before after : list JsValue) (bad : JsValue)
  (m : Error) (this : QuadTree) :
  Forall valid_element before -> validateElement bad = Throws m ->
  pushAll fuel (before ++ bad :: after) this = Some (Throws m, this).
Proof.
  intros F B. unfold pushAll.
  now rewrite (validation_loop_first_invalid before after bad m F B).
Qed.

Lemma pushAll_invalid (fuel : nat) (items : list JsValue) (this : QuadTree) :
  Exists (fun v => ~ valid_element v) items ->
  exists m, pushAll fuel items this = Some (Throws m, this).
Proof.
  intros E. destruct (first_invalid items E) as (before & bad & after & -> & F & B).
  destruct (validateElement_invalid bad B) as [m Em].
  exists m. now apply pushAll_first_invalid.
Qed.

(** C5.  [pushAll] validates the whole batch before it touches the tree: if
    some item is invalid, the call throws the error of the first invalid item
    and the tree is the one it was; this does not depend on the fuel of the
    insertion loop, which is not entered. *)
Theorem pushAll_all_or_nothing (fuel : nat) (items : list JsValue) (this : QuadTree) :
  Exists (fun v => ~ valid_element v) items ->
  exists before bad after m,
    items = before ++ bad :: after /\
    Forall valid_element before /\ ~ valid_element bad /\
    validateElement bad = Throws m /\
    pushAll fuel items this = Some (Throws m, this).
Proof.
  intros E. destruct (first_invalid items E) as (before & bad & after & -> & F & B).
  destruct (validateElement_invalid bad B) as [m Em].
  exists before, bad, after, m. repeat split; auto.
  now apply pushAll_first_invalid.
Qed.

Lemma pushAll_all_or_nothing_witness :
  exists m,
    pushAll 10 [JsObject 1 (Some 10) (Some 10) None None;
                JsObject 2 (Some 20) None None None;
                JsPrimitive] pristine_100
    = Some (Throws m, pristine_100).
Proof.
  destruct (pushAll_all_or_nothing 10
              [JsObject 1 (Some 10) (Some 10) None None;
               JsObject 2 (Some 20) None None None;
               JsPrimitive] pristine_100)
    as (before & bad & after & m & _ & _ & _ & _ & P).
  - apply Exists_cons_tl, Exists_cons_hd. simpl. tauto.
  - exists m. exact P.
Defined.

Lemma validateElement_cases :
  validateElement JsPrimitive = Throws NotAnElement /\
  validateElement (JsObject 0 None (Some 1) None None) = Throws MissingCoordinates /\
  validateElement (JsObject 0 (Some 1) None None None) = Throws MissingCoordinates /\
  validateElement (JsObject 0 (Some 1) (Some 1) (Some (-1)) None) = Throws InvalidExtent /\
  validateElement (JsObject 0 (Some 1) (Some 1) None (Some (-1))) = Throws InvalidExtent /\
  validateElement (JsObject 0 (Some 1) (Some 1) (Some 0) None) = Returns tt.
Proof. repeat split. Qed.

(** * The children visited by [colliding] and [onCollision] *)

Lemma fitting_nil (item : Rect) (top : QuadTree) :
  fitting item top = [] <->
  forall d, boundingBoxCollision item (quadrant top d) = false.
Proof.
  unfold fitting. rewrite splitTree_quadrants. cbn [directions map filter snd].
  split.
  - intros E d.
    destruct (boundingBoxCollision item (quadrant top NW)) eqn:A; [discriminate |].
    destruct (boundingBoxCollision item (quadrant top NE)) eqn:B; [discriminate |].
    destruct (boundingBoxCollision item (quadrant top SW)) eqn:C; [discriminate |].
    destruct (boundingBoxCollision item (quadrant top SE)) eqn:D; [discriminate |].
    destruct d; assumption.
  - intros A. now rewrite (A NW), (A NE), (A SW), (A SE).
Qed.


Lemma colliding_fits_fitting (item : Rect) (top : QuadTree) :
  fitting item top <> [] -> colliding_fits item top = fitting item top.
Proof.
  intros N. unfold colliding_fits.
  destruct (fitting item top); [contradiction | reflexivity].
Qed.





(** * Induction on trees *)

Lemma QuadTree_induction (P : QuadTree -> Prop) :
  (forall t, (forall d c, child d t = Some c -> P c) -> P t) ->
  forall t, P t.
Proof.
  intros H. fix IH 1. intros [x0 y0 w h m ct ov sz nw ne sw se].
  apply H. intros d c E. destruct d; cbn in E.
  - destruct nw as [c' |]; [| discriminate]. injection E as <-. apply IH.
  - destruct ne as [c' |]; [| discriminate]. injection E as <-. apply IH.
  - destruct sw as [c' |]; [| discriminate]. injection E as <-. apply IH.
  - destruct se as [c' |]; [| discriminate]. injection E as <-. apply IH.
Qed.

Lemma Direction_eqb_eq (a b : Direction) : Direction_eqb a b = true <-> a = b.
Proof. destruct a, b; cbn; split; congruence. Qed.

Lemma Direction_eqb_refl (a : Direction) : Direction_eqb a a = true.
Proof. now destruct a. Qed.

Lemma flat_map_live_children {B : Type} (g : QuadTree -> list B) (t : QuadTree) :
  flat_map g (live_children t) =
  flat_map (fun d => match child d t with Some c => g c | None => [] end) directions.
Proof.
  unfold live_children, directions. cbn [flat_map].
  destruct (child NW t), (child NE t), (child SW t), (child SE t);
    cbn [flat_map app]; rewrite ?app_nil_r; reflexivity.
Qed.

Lemma In_live_children (t c : QuadTree) :
  In c (live_children t) <-> exists d, child d t = Some c.
Proof.
  unfold live_children. rewrite in_flat_map. split.
  - intros (d & _ & I). exists d. destruct (child d t); [| contradiction].
    destruct I as [-> | []]. reflexivity.
  - intros (d & E). exists d. split; [destruct d; cbn; tauto |].
    rewrite E. now left.
Qed.

Lemma nodes_unfold (t : QuadTree) : nodes t = t :: flat_map nodes (live_children t).
Proof. rewrite flat_map_live_children. now destruct t. Qed.

Lemma elements_unfold (t : QuadTree) :
  elements t = local t ++ flat_map elements (live_children t).
Proof.
  rewrite flat_map_live_children. unfold local. rewrite <- app_assoc. now destruct t.
Qed.

Lemma node_count_unfold (t : QuadTree) :
  node_count t = S (list_sum (map node_count (live_children t))).
Proof.
  destruct t as [x0 y0 w h m ct ov sz nw ne sw se].
  unfold live_children, directions. cbn.
  destruct nw, ne, sw, se; cbn; lia.
Qed.

Lemma elements_nodes (t : QuadTree) : elements t = flat_map local (nodes t).
Proof.
  induction t as [t IH] using QuadTree_induction.
  rewrite elements_unfold, nodes_unfold. cbn [flat_map]. f_equal.
  assert (A : forall l, (forall c, In c l -> elements c = flat_map local (nodes c)) ->
                        flat_map elements l = flat_map local (flat_map nodes l)).
  { induction l as [| c l IHl]; intros Hl; [reflexivity |].
    cbn [flat_map]. rewrite flat_map_app.
    rewrite (Hl c) by now left.
    rewrite IHl by (intros; apply Hl; now right).
    reflexivity. }
  apply A. intros c I. apply In_live_children in I. destruct I as [d E]. eauto.
Qed.

Lemma In_elements_child (t c : QuadTree) (d : Direction) (e : ElementRect) :
  child d t = Some c -> In e (elements c) -> In e (elements t).
Proof.
  intros E I. rewrite elements_unfold. apply in_or_app. right.
  apply in_flat_map. exists c. split; [| exact I].
  apply In_live_children. now exists d.
Qed.

Lemma In_elements_inv (t : QuadTree) (e : ElementRect) :
  In e (elements t) ->
  In e (oversized t) \/ In e (contents t) \/
  exists d c, child d t = Some c /\ In e (elements c).
Proof.
  rewrite elements_unfold. unfold local. rewrite !in_app_iff, in_flat_map.
  intros [[I | I] | (c & I & J)]; auto.
  right. right. apply In_live_children in I. destruct I as [d E]. eauto.
Qed.

(** * Breadth-first traversals *)

Lemma total_count_app (a b : list QuadTree) :
  total_count (a ++ b) = (total_count a + total_count b)%nat.
Proof. unfold total_count. now rewrite map_app, list_sum_app. Qed.

Lemma total_count_step (top : QuadTree) (rest : list QuadTree) :
  total_count (top :: rest) = S (total_count (rest ++ live_children top)).
Proof.
  pose proof (node_count_unfold top) as U.
  unfold total_count in *. rewrite map_app, list_sum_app.
  unfold list_sum in *. cbn [map fold_right]. lia.
Qed.

(** A traversal that pushes every existing child dequeues the nodes of
    [visit_order] and does not run out of fuel. *)
Lemma while_fifo_visit_order {A : Type} (step : QuadTree -> A -> A) :
  forall (fuel : nat) (fifo : list QuadTree) (acc : A),
    (total_count fifo <= fuel)%nat ->
    while_fifo (fun top a => (step top a, live_children top)) fuel fifo acc =
    Some (fold_left (fun a n => step n a) (visit_order fuel fifo) acc).
Proof.
  induction fuel as [| fuel IH]; intros [| top rest] acc L; try reflexivity.
  - rewrite total_count_step in L. lia.
  - cbn [while_fifo visit_order fold_left]. apply IH.
    rewrite total_count_step in L. lia.
Qed.

Lemma visit_order_nodes :
  forall (fuel : nat) (fifo : list QuadTree),
    (total_count fifo <= fuel)%nat ->
    Permutation (visit_order fuel fifo) (flat_map nodes fifo).
Proof.
  induction fuel as [| fuel IH]; intros [| top rest] L; try reflexivity.
  - rewrite total_count_step in L. lia.
  - cbn [visit_order flat_map]. rewrite nodes_unfold. cbn [app]. constructor.
    rewrite IH by (rewrite total_count_step in L; lia).
    rewrite flat_map_app. apply Permutation_app_comm.
Qed.

Lemma total_count_singleton (t : QuadTree) : total_count [t] = node_count t.
Proof. unfold total_count. cbn. lia. Qed.

Lemma visit_order_root (t : QuadTree) :
  Permutation (visit_order (node_count t) [t]) (nodes t).
Proof.
  rewrite visit_order_nodes by (rewrite total_count_singleton; lia).
  cbn. now rewrite app_nil_r.
Qed.

Lemma Permutation_flat_map_list {A B : Type} (g : A -> list B) (l l' : list A) :
  Permutation l l' -> Permutation (flat_map g l) (flat_map g l').
Proof.
  induction 1; cbn.
  - reflexivity.
  - now apply Permutation_app_head.
  - rewrite !app_assoc. apply Permutation_app_tail, Permutation_app_comm.
  - etransitivity; eassumption.
Qed.

Lemma Permutation_filter_list {A : Type} (p : A -> bool) (l l' : list A) :
  Permutation l l' -> Permutation (filter p l) (filter p l').
Proof.
  induction 1 as [| a l l' _ IH | a b l | l l' l'' _ IH1 _ IH2]; cbn.
  - reflexivity.
  - destruct (p a); [now constructor | exact IH].
  - destruct (p a), (p b); try reflexivity. constructor.
  - etransitivity; eassumption.
Qed.

Lemma filter_flat_map {A B : Type} (p : B -> bool) (g : A -> list B) (l : list A) :
  filter p (flat_map g l) = flat_map (fun a => filter p (g a)) l.
Proof.
  induction l as [| a l IH]; cbn; [reflexivity |]. now rewrite filter_app, IH.
Qed.

Lemma fold_left_collect {A : Type} (g : QuadTree -> list A) (l : list QuadTree)
  (acc : list A) :
  fold_left (fun a n => a ++ g n) l acc = acc ++ flat_map g l.
Proof.
  revert acc. induction l as [| n l IH]; intros acc; cbn.
  - now rewrite app_nil_r.
  - now rewrite IH, app_assoc.
Qed.

Lemma traversal_order_elements (t : QuadTree) :
  Permutation (traversal_order t) (elements t).
Proof.
  unfold traversal_order. rewrite elements_nodes.
  apply Permutation_flat_map_list, visit_order_root.
Qed.

(** [find] returns: the elements that satisfy the predicate, in traversal
    order. *)
Lemma find_returns (predicate : JsPredicate) (t : QuadTree) :
  find predicate t = Some (filter (call_predicate predicate) (traversal_order t)).
Proof.
  unfold find.
  rewrite (while_fifo_visit_order
             (fun top items => items ++ filter (call_predicate predicate) (oversized top)
                                     ++ filter (call_predicate predicate) (contents top)))
    by (rewrite total_count_singleton; lia).
  f_equal.
  rewrite (fold_left_collect
             (fun n => filter (call_predicate predicate) (oversized n)
                       ++ filter (call_predicate predicate) (contents n))).
  cbn [app]. unfold traversal_order. rewrite filter_flat_map.
  apply flat_map_ext. intros n. unfold local. now rewrite filter_app.
Qed.

Lemma find_elements (predicate : JsPredicate) (t : QuadTree) :
  exists found, find predicate t = Some found /\
    Permutation found (filter (call_predicate predicate) (elements t)).
Proof.
  eexists. split; [apply find_returns |].
  apply Permutation_filter_list, traversal_order_elements.
Qed.

(** [each] returns: the action has been applied to every element, in
    traversal order. *)
Lemma each_returns {S : Type} (f : ElementRect -> S -> S) (t : QuadTree) (s : S) :
  each (Some f) t s = Some (fold_left (fun s i => f i s) (traversal_order t) s).
Proof.
  unfold each.
  rewrite (while_fifo_visit_order
             (fun top s => fold_left (fun s i => f i s) (oversized top ++ contents top) s))
    by (rewrite total_count_singleton; lia).
  f_equal. unfold traversal_order.
  generalize (visit_order (node_count t) [t]) as l. intros l. revert s.
  induction l as [| n l IH]; intros s; cbn [fold_left flat_map]; [reflexivity |].
  rewrite IH. change (local n) with (oversized n ++ contents n).
  symmetry. apply fold_left_app.
Qed.

Lemma count_each_elements (t : QuadTree) : count_each t = Some (length (elements t)).
Proof.
  unfold count_each. rewrite each_returns. f_equal.
  rewrite <- (Permutation_length (traversal_order_elements t)).
  assert (A : forall (l : list ElementRect) (n : nat),
             fold_left (fun (s : nat) (_ : ElementRect) => S s) l n = (length l + n)%nat).
  { induction l as [| e l IH]; intros n; cbn; [reflexivity |]. rewrite IH. lia. }
  rewrite A. lia.
Qed.

(** ** Traversals that visit some of the children *)

(** A traversal that pushes no more than the existing children returns. *)
Lemma while_fifo_returns {A : Type} (body : QuadTree -> A -> A * list QuadTree) :
  (forall top acc,
     (total_count (snd (body top acc)) <= total_count (live_children top))%nat) ->
  forall (fuel : nat) (fifo : list QuadTree) (acc : A),
    (total_count fifo <= fuel)%nat ->
    exists r, while_fifo body fuel fifo acc = Some r.
Proof.
  intros B. induction fuel as [| fuel IH]; intros [| top rest] acc L;
    try (eexists; reflexivity).
  - rewrite total_count_step in L. lia.
  - cbn [while_fifo]. specialize (B top acc).
    destruct (body top acc) as [acc' pushed]. cbn [snd] in B.
    apply IH. rewrite total_count_step in L. rewrite total_count_app in *. lia.
Qed.

Lemma children_in_filter (m : Direction -> bool) (top : QuadTree) :
  (total_count (children_in (filter m directions) top)
   <= total_count (live_children top))%nat.
Proof.
  unfold children_in, live_children, directions, total_count. cbn [filter].
  destruct (m NW), (m NE), (m SW), (m SE); cbn [flat_map];
    destruct (child NW top), (child NE top), (child SW top), (child SE top);
    cbn; lia.
Qed.

(** The selection of [colliding] names each child at most once. *)
Lemma colliding_fits_mask (item : Rect) (top : QuadTree) :
  exists m, colliding_fits item top = filter m directions.
Proof.
  unfold colliding_fits. rewrite fitting_filter.
  set (p := fun d => boundingBoxCollision item (quadrant top d)).
  destruct (Nat.eqb (length (filter p directions)) 0); [| now exists p].
  destruct (x item >=? qx top + qwidth top), (y item >=? qy top + qheight top); cbn.
  - now exists (fun d => Direction_eqb d SE).
  - now exists (fun d => Direction_eqb d NE || Direction_eqb d SE).
  - now exists (fun d => Direction_eqb d SW || Direction_eqb d SE).
  - now exists (fun _ => false).
Qed.

Lemma children_in_colliding_fits (item : Rect) (top : QuadTree) :
  (total_count (children_in (colliding_fits item top) top)
   <= total_count (live_children top))%nat.
Proof.
  destruct (colliding_fits_mask item top) as [m ->]. apply children_in_filter.
Qed.

(** [colliding] returns: it throws on an invalid item and returns a list
    otherwise. *)
Lemma colliding_returns (item : ElementRect) (collisionFunction : Rect -> Rect -> bool)
  (this : QuadTree) :
  exists o, colliding item collisionFunction this = Some o.
Proof.
  unfold colliding. destruct (validateElement (to_js item)); [| eexists; reflexivity].
  match goal with
  | |- context [while_fifo ?body ?n ?q ?a] =>
      assert (B : forall top acc,
                 (total_count (snd (body top acc))
                  <= total_count (live_children top))%nat)
        by (intros top acc; cbn [snd]; apply children_in_colliding_fits);
      assert (L : (total_count q <= n)%nat) by (rewrite total_count_singleton; lia);
      destruct (while_fifo_returns body B n q a L) as [r E]
  end.
  rewrite E. eexists. reflexivity.
Qed.

(** [onCollision] returns likewise. *)
Lemma onCollision_returns {S : Type} (item : ElementRect) (callback : ElementRect -> S -> S)
  (collisionFunction : Rect -> Rect -> bool) (this : QuadTree) (s : S) :
  exists o, onCollision item callback collisionFunction this s = Some o.
Proof.
  unfold onCollision. destruct (validateElement (to_js item)); [| eexists; reflexivity].
  match goal with
  | |- context [while_fifo ?body ?n ?q ?a] =>
      assert (B : forall top acc,
                 (total_count (snd (body top acc))
                  <= total_count (live_children top))%nat)
        by (intros top acc; cbn [snd]; apply children_in_colliding_fits);
      assert (L : (total_count q <= n)%nat) by (rewrite total_count_singleton; lia);
      destruct (while_fifo_returns body B n q a L) as [r E]
  end.
  rewrite E. eexists. reflexivity.
Qed.

(** * Cloning *)

Lemma or_falsy_0 (v : Z) : or_falsy (Some v) 0 = v.
Proof. cbn. destruct (v =? 0) eqn:E; [apply Z.eqb_eq in E; lia | reflexivity]. Qed.

Lemma or_falsy_positive (v d : Z) : 1 <= v -> or_falsy (Some v) d = v.
Proof. intros L. cbn. destruct (v =? 0) eqn:E; [apply Z.eqb_eq in E; lia | reflexivity]. Qed.

Lemma new_QuadTree_ok (x0 y0 w h m : Z) :
  1 <= w -> 1 <= h -> 1 <= m ->
  new_QuadTree (mkOptions (Some x0) (Some y0) (Some w) (Some h) (Some m)) =
  Returns (mkQuadTree x0 y0 w h m [] [] 0 None None None None).
Proof.
  intros W H M. unfold new_QuadTree.
  cbn [opt_x opt_y opt_width opt_height opt_maxElements].
  rewrite !or_falsy_0, (or_falsy_positive m 1 M).
  assert (D : (w <? 1) || (h <? 1) = false)
    by (apply orb_false_iff; split; apply Z.ltb_ge; lia).
  assert (N : (m <? 1) = false) by (apply Z.ltb_ge; lia).
  now rewrite D, N.
Qed.

Lemma deepclone_node (predicate : JsPredicate) (t : QuadTree) :
  1 <= qwidth t -> 1 <= qheight t -> 1 <= maxElements t ->
  (forall d c, child d t = Some c -> exists r, deepclone predicate c = Returns r) ->
  deepclone predicate t =
  if size (clone_node predicate t) =? 0 then Returns None
  else Returns (Some (clone_node predicate t)).
Proof.
  destruct t as [x0 y0 w h m ct ov sz nw ne sw se].
  cbn [qx qy qwidth qheight maxElements]. intros W H M C.
  unfold clone_node, clone_slot.
  cbn [deepclone fold_left directions child treeNW treeNE treeSW treeSE
       qx qy qwidth qheight maxElements contents oversized size].
  rewrite new_QuadTree_ok by assumption.
  destruct nw as [c1 |]; [destruct (C NW c1 eq_refl) as [r1 E1]; rewrite E1 |];
  (destruct ne as [c2 |]; [destruct (C NE c2 eq_refl) as [r2 E2]; rewrite E2 |]);
  (destruct sw as [c3 |]; [destruct (C SW c3 eq_refl) as [r3 E3]; rewrite E3 |]);
  (destruct se as [c4 |]; [destruct (C SE c4 eq_refl) as [r4 E4]; rewrite E4 |]);
  cbn [set_size set_child set_children set_oversized set_contents child Direction_eqb
       treeNW treeNE treeSW treeSE qx qy qwidth qheight maxElements contents oversized
       size app];
  unfold size_of_clone;
  match goal with
  | |- (if ?a =? 0 then _ else _) = (if ?b =? 0 then _ else _) =>
      replace a with b by lia; reflexivity
  end.
Qed.

Lemma elements_children (t : QuadTree) :
  elements t = oversized t ++ contents t
               ++ child_elements NW t ++ child_elements NE t
               ++ child_elements SW t ++ child_elements SE t.
Proof.
  destruct t as [x0 y0 w h m ct ov sz nw ne sw se].
  unfold child_elements. cbn. now rewrite app_nil_r.
Qed.

Lemma constructed_inv (t : QuadTree) :
  constructed t ->
  1 <= qwidth t /\ 1 <= qheight t /\ 1 <= maxElements t /\
  forall d c, child d t = Some c -> constructed c.
Proof. intros C. inversion C; subst. auto. Qed.

Section Deepclone.

Variable predicate : JsPredicate.

Lemma clone_slot_ok (t : QuadTree) :
  (forall d c, child d t = Some c ->
     exists r, deepclone predicate c = Returns r /\ clone_ok predicate c r) ->
  forall d,
    elements_of_clone (clone_slot predicate t d)
    = filter (keeps predicate) (child_elements d t) /\
    size_of_clone (clone_slot predicate t d)
    = Z.of_nat (length (elements_of_clone (clone_slot predicate t d))) /\
    (forall c, clone_slot predicate t d = Some c -> constructed c).
Proof.
  intros IH d. unfold clone_slot, child_elements.
  destruct (child d t) as [c |] eqn:E.
  - destruct (IH d c E) as (r & -> & El & Sz & K).
    split; [exact El |]. split; [exact Sz |]. intros c' ->. tauto.
  - cbn. split; [reflexivity |]. split; [reflexivity | discriminate].
Qed.

Lemma deepclone_ok (t : QuadTree) :
  constructed t -> exists r, deepclone predicate t = Returns r /\ clone_ok predicate t r.
Proof.
  induction t as [t IH] using QuadTree_induction. intros C.
  destruct (constructed_inv t C) as (W & H & M & Cc).
  assert (IH' : forall d c, child d t = Some c ->
                  exists r, deepclone predicate c = Returns r /\ clone_ok predicate c r)
    by (intros d c E; apply (IH d c E), (Cc d c E)).
  pose proof (clone_slot_ok t IH') as S.
  rewrite deepclone_node; auto;
    [| intros d c E; destruct (IH' d c E) as (r & Er & _); eauto].
  destruct (S NW) as (E1 & Z1 & K1), (S NE) as (E2 & Z2 & K2),
           (S SW) as (E3 & Z3 & K3), (S SE) as (E4 & Z4 & K4).
  assert (El : elements (clone_node predicate t)
               = filter (keeps predicate) (elements t)).
  { rewrite (elements_children t), !filter_app, <- E1, <- E2, <- E3, <- E4.
    unfold clone_node, elements_of_clone. cbn.
    now rewrite app_nil_r. }
  assert (Sz : size (clone_node predicate t)
               = Z.of_nat (length (elements (clone_node predicate t)))).
  { rewrite El, (elements_children t), !filter_app, <- E1, <- E2, <- E3, <- E4.
    rewrite !length_app. unfold clone_node. cbn [size]. lia. }
  destruct (size (clone_node predicate t) =? 0) eqn:Z0.
  - exists None. split; [reflexivity |]. unfold clone_ok. cbn.
    apply Z.eqb_eq in Z0. rewrite Sz in Z0.
    destruct (elements (clone_node predicate t)) eqn:En; [| cbn in Z0; lia].
    now rewrite <- El.
  - exists (Some (clone_node predicate t)). split; [reflexivity |].
    apply Z.eqb_neq in Z0. unfold clone_ok. cbn [elements_of_clone size_of_clone].
    split; [exact El |]. split; [exact Sz |]. split; [| exact Z0].
    constructor; auto.
    intros d c E. destruct d; cbn in E; eauto.
Qed.

End Deepclone.





(** C10.  On a tree built by the constructor, [filter (p)] returns [null]
    when no element passes [p], in particular on a tree without elements,
    and [reject (p)] returns [null] when every element passes [p]. *)
Theorem filter_tree_null (p : ElementRect -> bool) (this : QuadTree) :
  constructed this ->
  ((forall e, In e (elements this) -> p e = false) ->
   filter_tree (PredicateFunction p) this = Returns None)
  /\ ((forall e, In e (elements this) -> p e = true) ->
      reject (PredicateFunction p) this = Returns None)
  /\ (elements this = [] ->
      forall predicate, filter_tree predicate this = Returns None /\
                        reject predicate this = Returns None).
Proof.
  intros C.
  assert (A : forall predicate,
             (forall e, In e (elements this) -> keeps predicate e = false) ->
             filter_tree predicate this = Returns None).
  { intros predicate N.
    destruct (deepclone_ok predicate this C) as (r & E & El & Sz & K).
    unfold filter_tree. rewrite E. f_equal.
    destruct r as [clone |]; [| reflexivity]. exfalso.
    destruct K as [_ Kn]. cbn [elements_of_clone size_of_clone] in *.
    assert (F : filter (keeps predicate) (elements this) = []).
    { clear - N. induction (elements this) as [| e l IH]; [reflexivity |].
      cbn. rewrite (N e) by now left. apply IH. intros e' I. apply N. now right. }
    rewrite F in El. rewrite El in Sz. cbn in Sz. lia. }
  split; [| split].
  - intros N. apply A. exact N.
  - intros N. unfold reject. apply A. intros e I. cbn. now rewrite (N e I).
  - intros Em predicate.
    split; [| unfold reject]; apply A; rewrite Em; intros e [].
Qed.

Lemma filter_tree_null_witness :
  filter_tree (PredicateFunction (fun e => x e <? 0)) two_element_tree = Returns None /\
  reject (PredicateFunction (fun e => 0 <=? x e)) two_element_tree = Returns None /\
  filter_tree PredicateNull pristine_100 = Returns None.
Proof.
  assert (C2 : constructed two_element_tree)
    by (constructor; cbn; try lia; intros d c E; destruct d; discriminate).
  assert (C0 : constructed pristine_100)
    by (constructor; cbn; try lia; intros d c E; destruct d; discriminate).
  split; [| split].
  - destruct (filter_tree_null (fun e => x e <? 0) two_element_tree C2) as (F & _ & _).
    apply F. intros e [<- | [<- | []]]; reflexivity.
  - destruct (filter_tree_null (fun e => 0 <=? x e) two_element_tree C2) as (_ & R & _).
    apply R. intros e [<- | [<- | []]]; reflexivity.
  - destruct (filter_tree_null (fun _ => true) pristine_100 C0) as (_ & _ & E).
    apply E. reflexivity.
Defined.

(** * Elements as objects *)

Lemma option_Z_eqb_eq (a b : option Z) : option_Z_eqb a b = true <-> a = b.
Proof.
  destruct a as [m |], b as [n |]; cbn; try (split; congruence).
  rewrite Z.eqb_eq. split; congruence.
Qed.

Lemma same_object_eq (a b : ElementRect) : same_object a b = true <-> a = b.
Proof.
  unfold same_object. rewrite !andb_true_iff, Nat.eqb_eq, !Z.eqb_eq, !option_Z_eqb_eq.
  destruct a as [ra [xa ya wa ha]], b as [rb [xb yb wb hb]]. cbn.
  split; [intros ((((-> & ->) & ->) & ->) & ->); reflexivity |].
  intros E. injection E as -> -> -> -> ->. auto.
Qed.

Lemma same_object_refl (a : ElementRect) : same_object a a = true.
Proof. now apply same_object_eq. Qed.

Lemma same_object_neq (a b : ElementRect) : same_object a b = false <-> a <> b.
Proof.
  rewrite <- same_object_eq. destruct (same_object a b); split; congruence.
Qed.

(** Goals on permutations of lists of elements, through the count of each
    element. *)
Ltac count_cons :=
  repeat match goal with
  | |- context [count_occ ElementRect_eq_dec (?a :: ?l) ?z] =>
      lazymatch l with
      | [] => fail
      | _ => change (count_occ ElementRect_eq_dec (a :: l) z)
             with (count_occ ElementRect_eq_dec ([a] ++ l) z)
      end
  | H : context [count_occ ElementRect_eq_dec (?a :: ?l) ?z] |- _ =>
      lazymatch l with
      | [] => fail
      | _ => change (count_occ ElementRect_eq_dec (a :: l) z)
             with (count_occ ElementRect_eq_dec ([a] ++ l) z) in H
      end
  end.

Ltac perm_counts :=
  apply (Permutation_count_occ ElementRect_eq_dec);
  let z := fresh "z" in
  intros z;
  repeat match goal with
  | H : Permutation ?a ?b |- _ =>
      pose proof (proj1 (Permutation_count_occ ElementRect_eq_dec a b) H z);
      clear H
  end;
  repeat (count_cons; rewrite count_occ_app in * );
  change (count_occ ElementRect_eq_dec [] z) with 0%nat in *;
  lia.

(** * Geometry is all that routing reads *)

Lemma same_geometry_refl (a : QuadTree) : same_geometry a a.
Proof. unfold same_geometry. tauto. Qed.

Lemma same_geometry_trans (a b c : QuadTree) :
  same_geometry a b -> same_geometry b c -> same_geometry a c.
Proof. unfold same_geometry. intuition congruence. Qed.

Lemma same_geometry_sym (a b : QuadTree) : same_geometry a b -> same_geometry b a.
Proof. unfold same_geometry. intuition congruence. Qed.

Lemma fitting_same_geometry (e : Rect) (a b : QuadTree) :
  same_geometry a b -> fitting e a = fitting e b.
Proof.
  intros (X & Y & W & H & _). unfold fitting, splitTree. now rewrite X, Y, W, H.
Qed.

Lemma create_same_geometry (a b : QuadTree) (d : Direction) :
  same_geometry a b -> create a d = create b d.
Proof.
  intros (X & Y & W & H & M). unfold create, child_options.
  now rewrite X, Y, W, H, M.
Qed.

Lemma calculateDirection_same_geometry (e : Rect) (a b : QuadTree) :
  same_geometry a b -> calculateDirection e a = calculateDirection e b.
Proof.
  intros (X & Y & W & H & _). unfold calculateDirection, getCenter, bounds. cbn.
  now rewrite X, Y, W, H.
Qed.

Lemma same_geometry_clear (a : QuadTree) : same_geometry (clear a) a.
Proof. unfold same_geometry. cbn. tauto. Qed.

(** ** Children built by [create] *)

Lemma create_ok (t : QuadTree) (d : Direction) :
  1 <= qwidth t -> 1 <= qheight t -> 1 <= maxElements t ->
  exists c, create t d = Returns c /\ c = clear c /\
            1 <= qwidth c /\ 1 <= qheight c /\ maxElements c = maxElements t.
Proof.
  intros W H M. half_facts t. unfold create.
  destruct d; cbn [child_options]; rewrite new_QuadTree_ok by lia;
    eexists; (split; [reflexivity |]); cbn; repeat split; lia.
Qed.

Lemma create_clear_inv (t c : QuadTree) (d : Direction) :
  create t d = Returns (clear c) ->
  1 <= qwidth c /\ 1 <= qheight c /\ maxElements c = or_falsy (Some (maxElements t)) 1 /\
  1 <= maxElements c.
Proof.
  intros E. apply new_QuadTree_builds in E. cbn in E.
  destruct E as (W & H & M & _ & _ & _ & _ & Em & _).
  repeat split; auto. rewrite Em. now destruct d.
Qed.

(** The width of a child is at most the half, rounded up, of its parent's. *)
Lemma create_width (t c : QuadTree) (d : Direction) :
  2 <= qwidth t -> create t d = Returns (clear c) -> 2 * qwidth c <= qwidth t + 1.
Proof.
  intros W E. apply new_QuadTree_builds in E.
  destruct E as (_ & _ & _ & Ew & _). cbn in Ew. half_facts t.
  destruct d; cbn in Ew; injection Ew as Ew; lia.
Qed.

(** * One batch of [pushAll] at one node *)

Lemma Direction_eq_dec (a b : Direction) : {a = b} + {a <> b}.
Proof. decide equality. Qed.

Lemma candidate_set_same (d : Direction) (v : option (list ElementRect)) (c : Candidates) :
  candidate d (set_candidate d v c) = v.
Proof. now destruct d. Qed.

Lemma candidate_set_other (d d' : Direction) (v : option (list ElementRect))
  (c : Candidates) :
  d' <> d -> candidate d' (set_candidate d v c) = candidate d' c.
Proof. destruct d, d'; cbn; congruence. Qed.

Lemma child_set_child_same (d : Direction) (c : option QuadTree) (t : QuadTree) :
  child d (set_child d c t) = c.
Proof. now destruct d. Qed.

Lemma child_set_child_other (d d' : Direction) (c : option QuadTree) (t : QuadTree) :
  d' <> d -> child d' (set_child d c t) = child d' t.
Proof. destruct d, d'; cbn; congruence. Qed.

Lemma pending_add (d : Direction) (els : list ElementRect) (e : ElementRect)
  (c : Candidates) :
  candidate d c = Some els ->
  Permutation (pending (set_candidate d (Some (els ++ [e])) c)) (pending c ++ [e]).
Proof.
  intros E. destruct c as [a b c' d']. unfold pending.
  destruct d; cbn in *; subst; cbn; perm_counts.
Qed.

Lemma pending_new (d : Direction) (e : ElementRect) (c : Candidates) :
  candidate d c = None ->
  Permutation (pending (set_candidate d (Some [e]) c)) (pending c ++ [e]).
Proof.
  intros E. destruct c as [a b c' d']. unfold pending.
  destruct d; cbn in *; subst; cbn; perm_counts.
Qed.

Lemma slots_inv_start (n : QuadTree) : slots_inv n (n, no_candidates).
Proof.
  constructor; cbn.
  - apply same_geometry_refl.
  - auto.
  - auto.
  - intros d els E. destruct d; discriminate.
  - intros d els E. destruct d; discriminate.
  - intros N. now contradiction N.
Qed.

Lemma counts_inv_start (n : QuadTree) :
  Forall (fun e : ElementRect => single_fit e n) (contents n) ->
  counts_inv n [] (n, no_candidates).
Proof.
  intros F. constructor; cbn; auto; try lia; now rewrite !app_nil_r.
Qed.

Lemma pending_candidate (d : Direction) (els : list ElementRect) (c : Candidates) :
  candidate d c = Some els -> els <> [] -> pending c <> [].
Proof.
  intros E N P. apply N. destruct els as [| e els]; [reflexivity |].
  assert (I : In e (pending c)).
  { unfold pending. apply in_flat_map. exists d.
    split; [destruct d; cbn; tauto |]. rewrite E. now left. }
  rewrite P in I. contradiction.
Qed.

Section Batch.

Variable n : QuadTree.
Hypothesis n_width : 1 <= qwidth n.
Hypothesis n_height : 1 <= qheight n.
Hypothesis n_maxElements : 1 <= maxElements n.

Lemma enqueue_ok (d : Direction) (e : ElementRect) (st : QuadTree * Candidates) :
  slots_inv n st -> fitting e n = [d] -> 2 <= qwidth n -> 2 <= qheight n ->
  exists st',
    enqueue d e st = (Returns tt, st') /\ slots_inv n st' /\
    contents (fst st') = contents (fst st) /\
    oversized (fst st') = oversized (fst st) /\
    size (fst st') = size (fst st) /\
    Permutation (pending (snd st')) (pending (snd st) ++ [e]).
Proof.
  intros [G K N M C S] Fe W2 H2. destruct st as [tree cands]. cbn [fst snd] in *.
  unfold enqueue. destruct (candidate d cands) as [els |] eqn:Ec.
  - eexists. split; [reflexivity |]. cbn [fst snd].
    split; [| repeat split; auto using pending_add].
    constructor; cbn [fst snd]; auto.
    + intros d' Cn Cd. destruct (Direction_eq_dec d' d) as [-> | Nd].
      * rewrite candidate_set_same in Cd. discriminate.
      * rewrite candidate_set_other in Cd by exact Nd. auto.
    + intros d' els' Cd Cn. destruct (Direction_eq_dec d' d) as [-> | Nd].
      * eauto.
      * rewrite candidate_set_other in Cd by exact Nd. eauto.
    + intros d' els' Cd. destruct (Direction_eq_dec d' d) as [-> | Nd].
      * rewrite candidate_set_same in Cd. injection Cd as <-.
        destruct (C d els Ec) as [_ F].
        split; [intros A; now apply app_eq_nil in A as [_ A] |].
        apply Forall_app. split; [exact F | now constructor].
      * rewrite candidate_set_other in Cd by exact Nd. eauto.
  - assert (Get : exists tree',
               get d tree = Returns (tree', match child d tree' with
                                            | Some c => c
                                            | None => tree
                                            end) /\
               same_geometry tree' n /\
               contents tree' = contents tree /\ oversized tree' = oversized tree /\
               size tree' = size tree /\
               (forall d', d' <> d -> child d' tree' = child d' tree) /\
               (forall c, child d n = Some c -> child d tree' = Some c) /\
               (child d n = None ->
                exists c, create n d = Returns c /\ child d tree' = Some c)).
    { unfold get. destruct (child d n) as [c |] eqn:Cn.
      - rewrite (K d c Cn). exists tree. rewrite (K d c Cn).
        split; [reflexivity |]. split; [exact G |].
        split; [reflexivity |]. split; [reflexivity |]. split; [reflexivity |].
        split; [reflexivity |].
        split; [intros c0 [= <-]; reflexivity | discriminate].
      - rewrite (N d Cn Ec), (create_same_geometry tree n d G).
        destruct (create_ok n d n_width n_height n_maxElements) as (c & Ecr & _).
        rewrite Ecr. exists (set_child d (Some c) tree).
        rewrite child_set_child_same.
        split; [reflexivity |]. split; [exact G |].
        repeat split; auto.
        + intros d' Nd. now apply child_set_child_other.
        + discriminate.
        + intros _. exists c. split; reflexivity. }
    destruct Get as (tree' & -> & G' & Ect & Eov & Esz & Oth & Kd & Md).
    eexists. split; [reflexivity |]. cbn [fst snd].
    split; [| repeat split; auto using pending_new].
    constructor; cbn [fst snd]; auto.
    + intros d' c Cn. destruct (Direction_eq_dec d' d) as [-> | Nd]; auto.
      rewrite Oth by exact Nd. auto.
    + intros d' Cn Cd. destruct (Direction_eq_dec d' d) as [-> | Nd].
      * rewrite candidate_set_same in Cd. discriminate.
      * rewrite candidate_set_other in Cd by exact Nd. rewrite Oth by exact Nd. auto.
    + intros d' els' Cd Cn. destruct (Direction_eq_dec d' d) as [-> | Nd]; auto.
      rewrite candidate_set_other in Cd by exact Nd. rewrite Oth by exact Nd. eauto.
    + intros d' els' Cd. destruct (Direction_eq_dec d' d) as [-> | Nd].
      * rewrite candidate_set_same in Cd. injection Cd as <-.
        split; [discriminate | now constructor].
      * rewrite candidate_set_other in Cd by exact Nd. eauto.
Qed.

Lemma single_fit_direction (e : Rect) :
  single_fit e n -> exists d, fitting e n = [d].
Proof.
  unfold single_fit. destruct (fitting e n) as [| d [| d' l]]; try discriminate.
  intros _. now exists d.
Qed.

Lemma flush_ok (cts : list ElementRect) :
  Forall (fun e : ElementRect => single_fit e n) cts ->
  2 <= qwidth n -> 2 <= qheight n ->
  forall st, slots_inv n st ->
  exists st',
    for_of flush_content cts st = (Returns tt, st') /\ slots_inv n st' /\
    contents (fst st') = contents (fst st) /\
    oversized (fst st') = oversized (fst st) /\
    size (fst st') = size (fst st) /\
    Permutation (pending (snd st')) (pending (snd st) ++ cts).
Proof.
  intros F W2 H2. induction F as [| c cts Fc _ IH]; intros st I.
  - exists st. cbn [for_of]. rewrite app_nil_r.
    split; [reflexivity |]. split; [exact I |].
    do 3 (split; [reflexivity |]). reflexivity.
  - destruct (single_fit_direction c Fc) as [d Ed].
    destruct (enqueue_ok d c st I Ed W2 H2) as (st1 & E1 & I1 & C1 & O1 & S1 & P1).
    destruct (IH st1 I1) as (st2 & E2 & I2 & C2 & O2 & S2 & P2).
    exists st2. cbn [for_of]. unfold flush_content.
    rewrite (fitting_same_geometry c (fst st) n (si_geometry n st I)), Ed, E1.
    split; [exact E2 |]. split; [exact I2 |].
    split; [congruence |]. split; [congruence |]. split; [congruence |].
    perm_counts.
Qed.

Lemma push_element_ok (done : list ElementRect) (e : ElementRect)
  (st : QuadTree * Candidates) :
  slots_inv n st -> counts_inv n done st ->
  exists st',
    push_element e st = (Returns tt, st') /\
    slots_inv n st' /\ counts_inv n (done ++ [e]) st'.
Proof.
  intros I [F Sz P Cap]. pose proof I as [G K N M C S].
  destruct st as [tree cands]. cbn [fst snd] in *.
  pose proof G as (Gx & Gy & Gw & Gh & Gm).
  unfold push_element.
  assert (G1 : same_geometry (set_size (size tree + 1) tree) n) by exact G.
  rewrite (fitting_same_geometry e _ n G1).
  cbn [qwidth qheight size oversized contents maxElements set_size].
  rewrite Gw, Gh, Gm.
  destruct (negb (Nat.eqb (length (fitting e n)) 1) || (qwidth n =? 1) || (qheight n =? 1))
    eqn:Over.
  - (* oversized *)
    eexists. split; [reflexivity |]. split.
    + constructor; cbn [fst snd]; auto.
    + constructor; cbn [fst snd set_oversized set_size oversized contents size
                        maxElements]; auto.
      * rewrite length_app. cbn. lia.
      * perm_counts.
      * unfold within_capacity in *.
        cbn [set_oversized set_size oversized contents size maxElements] in *.
        intros J Nc. specialize (Cap J Nc). rewrite length_app. cbn [length]. lia.
  - apply orb_false_iff in Over. destruct Over as [Over Oh].
    apply orb_false_iff in Over. destruct Over as [Ofit Ow].
    apply negb_false_iff, Nat.eqb_eq in Ofit.
    apply Z.eqb_neq in Ow, Oh.
    destruct (size tree + 1 - Z.of_nat (length (oversized tree)) <=? maxElements n)
      eqn:Room.
    + (* contents *)
      apply Z.leb_le in Room.
      eexists. split; [reflexivity |]. split.
      * constructor; cbn [fst snd]; auto.
      * constructor; cbn [fst snd set_contents set_size oversized contents size
                          maxElements]; auto.
        -- apply Forall_app. split; [exact F | now constructor].
        -- rewrite length_app. cbn. lia.
        -- perm_counts.
        -- unfold within_capacity.
           cbn [set_contents set_size oversized contents size maxElements].
           intros _ _. lia.
    + (* split *)
      assert (W2 : 2 <= qwidth n) by lia.
      assert (H2 : 2 <= qheight n) by lia.
      destruct (single_fit_direction e Ofit) as [d Ed]. rewrite Ed.
      destruct (enqueue_ok d e (set_size (size tree + 1) tree, cands))
        as (st1 & E1 & I1 & C1 & O1 & S1 & P1); auto.
      { constructor; cbn [fst snd]; auto. }
      rewrite E1.
      destruct (flush_ok (contents tree) F W2 H2 st1 I1)
        as (st2 & E2 & I2 & C2 & O2 & S2 & P2).
      cbn [contents set_size] in *. rewrite E2.
      destruct st2 as [tree2 cands2]. cbn [fst snd] in *.
      eexists. split; [reflexivity |]. split.
      * destruct I2 as [G2 K2 N2 M2 Cd2 Sp2].
        constructor; cbn [fst snd] in *; auto.
      * constructor; cbn [fst snd set_contents set_size oversized contents size
                          maxElements]; auto.
        -- rewrite S2, S1, length_app. cbn. lia.
        -- rewrite O2, O1. cbn [oversized set_size]. perm_counts.
        -- unfold within_capacity.
           cbn [set_contents set_size oversized contents size maxElements].
           intros _ A. now contradiction A.
Qed.

(** The loop over a batch returns, with both invariants. *)
Lemma batch_ok (elements : list ElementRect) :
  forall (done : list ElementRect) (st : QuadTree * Candidates),
    slots_inv n st -> counts_inv n done st ->
    exists st',
      for_of push_element elements st = (Returns tt, st') /\
      slots_inv n st' /\ counts_inv n (done ++ elements) st'.
Proof.
  induction elements as [| e elements IH]; intros done st I C.
  - exists st. rewrite app_nil_r. auto.
  - destruct (push_element_ok done e st I C) as (st1 & E1 & I1 & C1).
    destruct (IH (done ++ [e]) st1 I1 C1) as (st2 & E2 & I2 & C2).
    exists st2. cbn [for_of]. rewrite E1. rewrite <- app_assoc in C2. auto.
Qed.

End Batch.

(** * Nodes addressed by paths *)

Lemma set_child_comm (d1 d2 : Direction) (a b : option QuadTree) (t : QuadTree) :
  d1 <> d2 ->
  set_child d1 a (set_child d2 b t) = set_child d2 b (set_child d1 a t).
Proof. destruct d1, d2; try congruence; reflexivity. Qed.

Lemma set_child_twice (d : Direction) (a b : option QuadTree) (t : QuadTree) :
  set_child d a (set_child d b t) = set_child d a t.
Proof. destruct d; reflexivity. Qed.

Lemma diverge_sym (p q : Path) : diverge p q -> diverge q p.
Proof.
  induction 1 as [d1 d2 p q N | d p q D IH].
  - apply diverge_here. congruence.
  - now apply diverge_below.
Qed.

Lemma diverge_app_l (p q s : Path) : diverge p q -> diverge (p ++ s) q.
Proof.
  induction 1 as [d1 d2 p q N | d p q D IH]; cbn.
  - now apply diverge_here.
  - now apply diverge_below.
Qed.

Lemma diverge_siblings (p : Path) (d1 d2 : Direction) :
  d1 <> d2 -> diverge (p ++ [d1]) (p ++ [d2]).
Proof.
  intros N. induction p as [| d p IH]; cbn.
  - now apply diverge_here.
  - now apply diverge_below.
Qed.

Lemma node_at_replace_diverge (p q : Path) (x : QuadTree) :
  diverge p q -> forall r, node_at q (replace_at p x r) = node_at q r.
Proof.
  induction 1 as [d1 d2 p q N | d p q D IH]; intros r; cbn [node_at replace_at].
  - destruct (child d1 r) as [c |]; [| reflexivity].
    rewrite child_set_child_other by congruence. reflexivity.
  - destruct (child d r) as [c |] eqn:E; [| now rewrite E].
    rewrite child_set_child_same. apply IH.
Qed.

Lemma replace_replace_diverge (p q : Path) (x y : QuadTree) :
  diverge p q ->
  forall r, replace_at p x (replace_at q y r) = replace_at q y (replace_at p x r).
Proof.
  induction 1 as [d1 d2 p q N | d p q D IH]; intros r; cbn [replace_at].
  - destruct (child d1 r) as [c1 |] eqn:E1, (child d2 r) as [c2 |] eqn:E2;
      rewrite ?child_set_child_other by congruence; rewrite ?E1, ?E2; try reflexivity.
    apply set_child_comm. exact N.
  - destruct (child d r) as [c |] eqn:E; [| now rewrite E].
    rewrite !child_set_child_same, !set_child_twice. now rewrite IH.
Qed.

Lemma node_at_app (p q : Path) :
  forall r, node_at (p ++ q) r = match node_at p r with
                                 | Some nd => node_at q nd
                                 | None => None
                                 end.
Proof.
  induction p as [| d p IH]; intros r; cbn [app node_at]; [reflexivity |].
  destruct (child d r); [apply IH | reflexivity].
Qed.

Lemma node_at_replace_same (p : Path) (x : QuadTree) :
  forall r nd, node_at p r = Some nd -> node_at p (replace_at p x r) = Some x.
Proof.
  induction p as [| d p IH]; intros r nd E; cbn [node_at replace_at] in *; [reflexivity |].
  destruct (child d r) as [c |]; [| discriminate].
  rewrite child_set_child_same. eapply IH, E.
Qed.

Lemma replace_replace_same (p : Path) (x y : QuadTree) :
  forall r, replace_at p x (replace_at p y r) = replace_at p x r.
Proof.
  induction p as [| d p IH]; intros r; cbn [replace_at]; [reflexivity |].
  destruct (child d r) as [c |] eqn:E; [| now rewrite E].
  rewrite child_set_child_same, set_child_twice. now rewrite IH.
Qed.

Lemma replace_at_app (p q : Path) (x : QuadTree) :
  forall r nd, node_at p r = Some nd ->
    replace_at (p ++ q) x r = replace_at p (replace_at q x nd) r.
Proof.
  induction p as [| d p IH]; intros r nd E; cbn [app node_at replace_at] in *.
  - now injection E as ->.
  - destruct (child d r) as [c |]; [| discriminate]. now rewrite (IH c nd E).
Qed.

(** * The queue of [pushAll], entry by entry *)

Lemma erase_children (p : Path) (k : nat) (c : Candidates) :
  erase (map (under p) (ghost_children k c)) = candidate_entries p c.
Proof.
  unfold ghost_children, candidate_entries, directions.
  destruct c as [[a |] [b |] [c |] [d |]]; reflexivity.
Qed.

Lemma apply_entry_commute (r : QuadTree) (g1 g2 : GhostEntry) :
  diverge (entry_path g1) (entry_path g2) ->
  apply_entry (apply_entry r g1) g2 = apply_entry (apply_entry r g2) g1.
Proof.
  intros D. pose proof (diverge_sym _ _ D) as D'. unfold apply_entry.
  destruct (node_at (entry_path g1) r) as [a |] eqn:E1,
           (node_at (entry_path g2) r) as [b |] eqn:E2;
    rewrite ?(node_at_replace_diverge _ _ _ D), ?(node_at_replace_diverge _ _ _ D'),
            ?E1, ?E2; try reflexivity.
  symmetry. apply replace_replace_diverge. exact D.
Qed.

Lemma apply_all_cons (g : GhostEntry) (gs : list GhostEntry) (r : QuadTree) :
  apply_all (g :: gs) r = apply_all gs (apply_entry r g).
Proof. reflexivity. Qed.

Lemma apply_all_app (gs hs : list GhostEntry) (r : QuadTree) :
  apply_all (gs ++ hs) r = apply_all hs (apply_all gs r).
Proof. apply fold_left_app. Qed.

Lemma apply_all_commute_one (g : GhostEntry) (gs : list GhostEntry) :
  Forall (fun g' => diverge (entry_path g) (entry_path g')) gs ->
  forall r, apply_all gs (apply_entry r g) = apply_entry (apply_all gs r) g.
Proof.
  induction 1 as [| g' gs D _ IH]; intros r; [reflexivity |].
  rewrite !apply_all_cons, (apply_entry_commute r g g' D). apply IH.
Qed.

Lemma apply_all_commute (gs hs : list GhostEntry) :
  Forall (fun g => Forall (fun h => diverge (entry_path g) (entry_path h)) hs) gs ->
  forall r, apply_all gs (apply_all hs r) = apply_all hs (apply_all gs r).
Proof.
  induction 1 as [| g gs D _ IH]; intros r; [reflexivity |].
  rewrite !apply_all_cons, <- IH, (apply_all_commute_one g hs D). reflexivity.
Qed.

Lemma apply_entry_under (p : Path) (r n0 n' : QuadTree) (g : GhostEntry) :
  node_at p r = Some n0 ->
  replace_at p (apply_entry n' g) r = apply_entry (replace_at p n' r) (under p g).
Proof.
  intros E. unfold apply_entry, under, entry_path. cbn [fst snd].
  rewrite node_at_app, (node_at_replace_same p n' r n0 E).
  destruct (node_at (fst (fst g)) n') as [b |]; [| reflexivity].
  rewrite (replace_at_app p (fst (fst g)) _ (replace_at p n' r) n'
             (node_at_replace_same p n' r n0 E)).
  now rewrite replace_replace_same.
Qed.

Lemma apply_all_under (p : Path) (r n0 : QuadTree) (gs : list GhostEntry) :
  node_at p r = Some n0 ->
  forall n', replace_at p (apply_all gs n') r
             = apply_all (map (under p) gs) (replace_at p n' r).
Proof.
  intros E. induction gs as [| g gs IH]; intros n'; cbn [map].
  - reflexivity.
  - rewrite !apply_all_cons, IH. f_equal. apply (apply_entry_under p r n0 n' g E).
Qed.

(** [pushNode], as the entries of the candidates applied to the node. *)
Lemma pushNode_children (k : nat) (elements : list ElementRect) (n : QuadTree) :
  pushNode (S k) elements n =
  apply_all (ghost_children k (snd (snd (for_of push_element elements (n, no_candidates)))))
            (fst (snd (for_of push_element elements (n, no_candidates)))).
Proof.
  cbn [pushNode].
  destruct (snd (for_of push_element elements (n, no_candidates))) as [n' cands].
  cbn [fst snd].
  destruct cands as [a b c d]. destruct n' as [x0 y0 w h m ct ov sz nw ne sw se].
  destruct a, b, c, d, nw, ne, sw, se; reflexivity.
Qed.

Lemma pushNode_O (elements : list ElementRect) (n : QuadTree) :
  pushNode O elements n = fst (snd (for_of push_element elements (n, no_candidates))).
Proof.
  cbn [pushNode].
  now destruct (snd (for_of push_element elements (n, no_candidates))).
Qed.

Lemma visits_S (k : nat) (elements : list ElementRect) (n : QuadTree) :
  visits (S k) elements n =
  S (cost (fst (snd (for_of push_element elements (n, no_candidates))))
          (ghost_children k (snd (snd (for_of push_element elements (n, no_candidates)))))).
Proof.
  cbn [visits].
  destruct (snd (for_of push_element elements (n, no_candidates))) as [n' cands].
  cbn [fst snd]. f_equal.
  destruct cands as [a b c d]. destruct n' as [x0 y0 w h m ct ov sz nw ne sw se].
  unfold cost, ghost_children, directions.
  destruct a, b, c, d, nw, ne, sw, se; cbn; lia.
Qed.

Lemma visits_positive (k : nat) (elements : list ElementRect) (n : QuadTree) :
  (1 <= visits k elements n)%nat.
Proof.
  destruct k; cbn [visits];
    destruct (snd (for_of push_element elements (n, no_candidates))); lia.
Qed.

(** * The shape that the loop keeps *)

Lemma shaped_inv (t : QuadTree) :
  shaped t ->
  1 <= qwidth t /\ 1 <= qheight t /\ 1 <= maxElements t /\
  Forall (fun e : ElementRect => single_fit e t) (contents t) /\
  (forall d c, child d t = Some c -> create t d = Returns (clear c)) /\
  (forall d c, child d t = Some c -> shaped c).
Proof. intros S. inversion S; subst. tauto. Qed.

Lemma pristine_no_child (c : QuadTree) (d : Direction) : child d (clear c) = None.
Proof. now destruct d. Qed.

Lemma shaped_fresh (t c : QuadTree) (d : Direction) :
  create t d = Returns c -> shaped c /\ c = clear c.
Proof.
  intros E. apply new_QuadTree_builds in E.
  destruct E as (W & H & M & _ & _ & _ & _ & _ & Ec).
  split; [| exact Ec]. rewrite Ec.
  constructor; cbn [clear qwidth qheight maxElements contents]; auto;
    intros d' c' E'; destruct d'; discriminate.
Qed.

Lemma single_fit_same_geometry (e : Rect) (a b : QuadTree) :
  same_geometry a b -> single_fit e b -> single_fit e a.
Proof. intros G. unfold single_fit. now rewrite (fitting_same_geometry e a b G). Qed.

(** After a batch at a shaped node: the node is shaped, and each candidate
    has its child. *)
Lemma batch_shaped (nd : QuadTree) (done : list ElementRect) (st : QuadTree * Candidates) :
  shaped nd -> slots_inv nd st -> counts_inv nd done st ->
  shaped (fst st) /\
  (forall d els, candidate d (snd st) = Some els ->
     exists c, child d (fst st) = Some c /\ shaped c /\
               create nd d = Returns (clear c) /\ 2 <= qwidth nd).
Proof.
  intros S I C. destruct (shaped_inv nd S) as (W & H & M & F & K & Sc).
  destruct I as [G Kp Nn Md Cd Sp]. destruct C as [Fit _ _ _].
  pose proof G as (Gx & Gy & Gw & Gh & Gm).
  assert (Slot : forall d c, child d (fst st) = Some c ->
                   create nd d = Returns (clear c) /\ shaped c).
  { intros d c E. destruct (child d nd) as [c0 |] eqn:E0.
    - rewrite (Kp d c0 E0) in E. injection E as <-. split; eauto.
    - destruct (candidate d (snd st)) as [els |] eqn:Ec.
      + destruct (Md d els Ec E0) as (c' & Ecr & E').
        rewrite E' in E. injection E as <-.
        destruct (shaped_fresh nd c' d Ecr) as [S' Ecl]. rewrite <- Ecl. auto.
      + rewrite (Nn d E0 Ec) in E. discriminate. }
  split.
  - constructor; try lia.
    + eapply Forall_impl; [| exact Fit]. intros e. cbn beta.
      apply single_fit_same_geometry. exact G.
    + intros d c E. rewrite (create_same_geometry (fst st) nd d G).
      apply (Slot d c E).
    + intros d c E. apply (Slot d c E).
  - intros d els Ec.
    assert (P : pending (snd st) <> [])
      by (apply (pending_candidate d els); [exact Ec | apply (Cd d els Ec)]).
    destruct (Sp P) as [W2 _].
    destruct (child d nd) as [c0 |] eqn:E0.
    + exists c0. split; [now apply Kp |]. split; [eauto |]. split; [eauto | exact W2].
    + destruct (Md d els Ec E0) as (c' & Ecr & E').
      exists c'. split; [exact E' |].
      destruct (Slot d c' E') as [A B]. auto.
Qed.

Lemma pow2_half (k : nat) (w c : Z) :
  2 <= w -> w <= 2 ^ Z.of_nat k -> 2 * c <= w + 1 ->
  c <= 2 ^ Z.of_nat (pred k) /\ (1 <= k)%nat.
Proof.
  intros W2 L C. destruct k as [| k].
  - cbn in L. lia.
  - cbn [pred]. rewrite Nat2Z.inj_succ, Z.pow_succ_r in L by lia. lia.
Qed.

(** * The loop of [pushAll] computes [pushNode] *)

Lemma ForallOrdPairs_append (A : Type) (R : A -> A -> Prop) (a b : list A) :
  ForallOrdPairs R a -> ForallOrdPairs R b ->
  Forall (fun x => Forall (R x) b) a ->
  ForallOrdPairs R (a ++ b).
Proof.
  induction 1 as [| x a Fx _ IH]; intros Fb Cross; cbn; [exact Fb |].
  inversion Cross as [| ? ? Cx Ca]; subst. constructor.
  - apply Forall_app. split; assumption.
  - apply IH; assumption.
Qed.

Lemma In_ghost_children (k : nat) (c : Candidates) (g : GhostEntry) :
  In g (ghost_children k c) <->
  exists d els, candidate d c = Some els /\ g = ([d], els, k).
Proof.
  unfold ghost_children. rewrite in_flat_map. split.
  - intros (d & _ & I). destruct (candidate d c) as [els |] eqn:E; [| contradiction].
    destruct I as [<- | []]. eauto.
  - intros (d & els & E & ->). exists d. split; [destruct d; cbn; tauto |].
    rewrite E. now left.
Qed.

Lemma ghost_children_diverge (p : Path) (k : nat) (c : Candidates) :
  paths_diverge (map (under p) (ghost_children k c)).
Proof.
  unfold paths_diverge, ghost_children, directions.
  destruct c as [[a |] [b |] [c |] [d |]]; cbn;
    repeat (constructor; [repeat (constructor; [apply diverge_siblings; discriminate |]);
                          constructor |]);
    constructor.
Qed.

Lemma ghost_children_none (k : nat) (c : Candidates) :
  (forall d els, candidate d c = Some els -> els <> []) ->
  pending c = [] -> ghost_children k c = [].
Proof.
  intros Ne P. unfold ghost_children, directions. cbn [flat_map].
  destruct (candidate NW c) as [l |] eqn:A;
    [exfalso; apply (pending_candidate NW l c A (Ne NW l A) P) |].
  destruct (candidate NE c) as [l |] eqn:B;
    [exfalso; apply (pending_candidate NE l c B (Ne NE l B) P) |].
  destruct (candidate SW c) as [l |] eqn:C;
    [exfalso; apply (pending_candidate SW l c C (Ne SW l C) P) |].
  destruct (candidate SE c) as [l |] eqn:D;
    [exfalso; apply (pending_candidate SE l c D (Ne SE l D) P) |].
  reflexivity.
Qed.

Lemma cost_app (r : QuadTree) (gs hs : list GhostEntry) :
  cost r (gs ++ hs) = (cost r gs + cost r hs)%nat.
Proof. unfold cost. now rewrite map_app, list_sum_app. Qed.

Lemma cost_replace_diverge (p : Path) (x r : QuadTree) (gs : list GhostEntry) :
  Forall (fun g => diverge p (entry_path g)) gs ->
  cost (replace_at p x r) gs = cost r gs.
Proof.
  intros D. unfold cost. f_equal. apply map_ext_in. intros g I.
  rewrite Forall_forall in D. unfold entry_cost.
  now rewrite (node_at_replace_diverge p (entry_path g) x (D g I)).
Qed.

Lemma cost_under (p : Path) (r n0 n' : QuadTree) (gs : list GhostEntry) :
  node_at p r = Some n0 ->
  cost (replace_at p n' r) (map (under p) gs) = cost n' gs.
Proof.
  intros E. unfold cost. rewrite map_map. f_equal. apply map_ext. intros g.
  unfold entry_cost, under, entry_path. cbn [fst snd].
  now rewrite node_at_app, (node_at_replace_same p n' r n0 E).
Qed.

Lemma pushAll_loop_refines :
  forall (fuel : nat) (gs : list GhostEntry) (root : QuadTree),
    paths_diverge gs -> Forall (entry_ok root) gs -> (cost root gs <= fuel)%nat ->
    pushAll_loop fuel (erase gs) root = Some (Returns tt, apply_all gs root).
Proof.
  induction fuel as [| fuel IH]; intros [| [[p els] k] grest] root D Ok L;
    try reflexivity.
  - exfalso. unfold cost in L. cbn [map list_sum fold_right] in L.
    inversion Ok as [| ? ? (nd & E & _) _]; subst.
    unfold entry_cost, entry_path in *. cbn [fst snd] in *. rewrite E in L.
    pose proof (visits_positive k els nd). unfold list_sum in L. lia.
  - inversion Ok as [| ? ? (nd & E & Sh & Wk) Ok']; subst.
    inversion D as [| ? ? Dg Dr]; subst.
    unfold entry_path in *. cbn [fst snd] in *.
    destruct (shaped_inv nd Sh) as (W & H & M & F & K & Sc).
    destruct (batch_ok nd W H M els [] (nd, no_candidates) (slots_inv_start nd)
                (counts_inv_start nd F)) as ([nd' cands] & Eb & I & C).
    cbn [app] in C.
    destruct (batch_shaped nd els (nd', cands) Sh I C) as [S' Ch]. cbn [fst snd] in *.
    (* the entries of the candidates *)
    set (gch := ghost_children (pred k) cands).
    assert (Hk : gch <> [] -> (1 <= k)%nat /\ 2 <= qwidth nd).
    { intros N. destruct gch as [| g gch'] eqn:Eg; [contradiction |].
      assert (Ig : In g (ghost_children (pred k) cands))
        by (fold gch; rewrite Eg; now left).
      apply In_ghost_children in Ig. destruct Ig as (d & l & Ec & _).
      destruct (Ch d l Ec) as (c & _ & _ & Kc & W2).
      pose proof (create_width nd c d W2 Kc) as Cw.
      destruct (pow2_half k (qwidth nd) (qwidth c) W2 Wk Cw). auto. }
    assert (Enode : pushNode k els nd = apply_all gch nd' /\
                    visits k els nd = S (cost nd' gch)).
    { destruct k as [| k'].
      - assert (gch = []) as ->.
        { destruct gch; [reflexivity |]. destruct Hk; [discriminate | lia]. }
        rewrite pushNode_O. cbn [visits]. rewrite Eb. cbn. auto.
      - rewrite pushNode_children, visits_S, Eb. cbn [fst snd pred]. auto. }
    destruct Enode as [En Ev].
    cbn [erase map fst snd pushAll_loop]. rewrite E, Eb.
    assert (Eq : map (fun g : GhostEntry => (fst (fst g), snd (fst g))) grest
                 ++ candidate_entries p cands
                 = erase (grest ++ map (under p) gch)).
    { unfold erase. rewrite map_app. f_equal. symmetry. apply erase_children. }
    rewrite Eq, IH.
    + f_equal. f_equal.
      rewrite apply_all_app, apply_all_cons.
      unfold apply_entry, entry_path. cbn [fst snd]. rewrite E, En.
      rewrite (apply_all_under p root nd gch E nd').
      apply apply_all_commute.
      rewrite Forall_forall. intros h Ih. rewrite Forall_forall. intros g Gg.
      apply in_map_iff in Ih. destruct Ih as (h0 & <- & _).
      unfold under, entry_path. cbn [fst snd]. apply diverge_app_l.
      rewrite Forall_forall in Dg. apply (Dg g Gg).
    + apply ForallOrdPairs_append.
      * exact Dr.
      * apply ghost_children_diverge.
      * rewrite Forall_forall. intros g Gg. rewrite Forall_forall. intros h Ih.
        apply in_map_iff in Ih. destruct Ih as (h0 & <- & _).
        unfold under, entry_path. cbn [fst snd].
        apply diverge_sym, diverge_app_l.
        rewrite Forall_forall in Dg. apply (Dg g Gg).
    + apply Forall_app. split.
      * rewrite Forall_forall in *. intros g Gg.
        destruct (Ok' g Gg) as (ng & Eg & Sg & Wg).
        exists ng. rewrite (node_at_replace_diverge p (entry_path g) nd' (Dg g Gg)). auto.
      * rewrite Forall_forall. intros h Ih.
        apply in_map_iff in Ih. destruct Ih as (h0 & <- & Ih0).
        assert (Ne : gch <> []) by (intros Z; rewrite Z in Ih0; contradiction).
        destruct (Hk Ne) as [K1 W2].
        apply In_ghost_children in Ih0. destruct Ih0 as (d & l & Ec & ->).
        destruct (Ch d l Ec) as (c & Ec' & Sc' & Kc & _).
        exists c. unfold under, entry_path. cbn [fst snd].
        rewrite node_at_app, (node_at_replace_same p nd' root nd E).
        cbn [node_at]. rewrite Ec'. split; [reflexivity |]. split; [exact Sc' |].
        pose proof (create_width nd c d W2 Kc) as Cw.
        apply (pow2_half k (qwidth nd) (qwidth c) W2 Wk Cw).
    + rewrite cost_app, (cost_replace_diverge p nd' root grest),
        (cost_under p root nd nd' gch E).
      * unfold cost in L. cbn [map list_sum fold_right] in L.
        unfold entry_cost at 1 in L. unfold entry_path in L. cbn [fst snd] in L.
        rewrite E, Ev in L. unfold cost in *. unfold list_sum in *. lia.
      * exact Dg.
Qed.

Lemma depth_of_enough (t : QuadTree) :
  1 <= qwidth t -> qwidth t <= 2 ^ Z.of_nat (depth_of t).
Proof.
  intros W. unfold depth_of.
  rewrite Z2Nat.id by apply Z.log2_up_nonneg.
  destruct (Z.eq_dec (qwidth t) 1) as [-> | N]; [cbn; lia |].
  apply Z.log2_up_spec. lia.
Qed.

(** More fuel does not change what the loop returns. *)
Lemma pushAll_loop_more_fuel :
  forall (fuel : nat) (fifo : list (Path * list ElementRect)) (root : QuadTree)
         (r : Outcome unit * QuadTree),
    pushAll_loop fuel fifo root = Some r ->
    forall fuel', (fuel <= fuel')%nat -> pushAll_loop fuel' fifo root = Some r.
Proof.
  induction fuel as [| fuel IH]; intros [| [p els] rest] root r E fuel' L;
    try (destruct fuel'; exact E); try discriminate.
  destruct fuel' as [| fuel']; [lia |].
  cbn [pushAll_loop] in *.
  destruct (node_at p root) as [nd |]; [| discriminate].
  destruct (for_of push_element els (nd, no_candidates)) as [[[] | m] [nd' cands]].
  - apply (IH _ _ _ E). lia.
  - exact E.
Qed.

Lemma pushAll_valid (fuel : nat) (items : list JsValue) (t : QuadTree) :
  Forall valid_element items ->
  pushAll fuel items t = pushAll_loop fuel [([], as_elements items)] t.
Proof. intros V. unfold pushAll. now rewrite (validation_loop_valid items V). Qed.

(** On a shaped tree and a valid batch, [pushAll] returns once the fuel
    covers the nodes to process, and the tree is then the one that
    [pushNode] computes. *)
Lemma pushAll_pushNode (fuel : nat) (items : list JsValue) (t : QuadTree) :
  shaped t -> Forall valid_element items ->
  (visits (depth_of t) (as_elements items) t <= fuel)%nat ->
  pushAll fuel items t
  = Some (Returns tt, pushNode (depth_of t) (as_elements items) t).
Proof.
  intros S V L. rewrite (pushAll_valid fuel items t V).
  destruct (shaped_inv t S) as (W & _).
  change (pushAll_loop fuel [([], as_elements items)] t)
    with (pushAll_loop fuel (erase [([], as_elements items, depth_of t)]) t).
  rewrite pushAll_loop_refines.
  - reflexivity.
  - repeat constructor.
  - constructor; [| constructor]. exists t. unfold entry_path. cbn [fst snd node_at].
    split; [reflexivity |]. split; [exact S |]. now apply depth_of_enough.
  - unfold cost, entry_cost, entry_path. cbn [map fst snd node_at list_sum fold_right].
    lia.
Qed.

Lemma pushAll_result (fuel : nat) (items : list JsValue) (t t' : QuadTree)
  (o : Outcome unit) :
  shaped t -> pushAll fuel items t = Some (o, t') ->
  (exists m, o = Throws m /\ t' = t /\ Exists (fun v => ~ valid_element v) items) \/
  (o = Returns tt /\ Forall valid_element items /\
   t' = pushNode (depth_of t) (as_elements items) t).
Proof.
  intros S E.
  destruct (Forall_Exists_dec valid_element valid_element_dec items) as [V | N].
  - right.
    pose proof (pushAll_pushNode
                  (Nat.max fuel (visits (depth_of t) (as_elements items) t))
                  items t S V (Nat.le_max_r _ _)) as P.
    rewrite (pushAll_valid _ items t V) in E.
    rewrite (pushAll_valid _ items t V) in P.
    rewrite (pushAll_loop_more_fuel fuel _ t _ E _ (Nat.le_max_l _ _)) in P.
    injection P as -> ->. auto.
  - left. destruct (pushAll_invalid fuel items t N) as (m & P).
    rewrite P in E. injection E as <- <-. exists m. auto.
Qed.

(** * Routing *)

Ltac collision_facts :=
  repeat match goal with
  | H : boundingBoxCollision _ _ = true |- _ =>
      apply boundingBoxCollision_true in H; unfold half_open_overlap in H
  | H : boundingBoxCollision _ _ = false |- _ =>
      apply boundingBoxCollision_false in H
  end.

(** An element that fits one quadrant of a node that can split has its
    origin in that quadrant: [calculateDirection] finds the child that
    [pushAll] chose. *)
Lemma fitting_calculateDirection (e : Rect) (t : QuadTree) (d : Direction) :
  2 <= qwidth t -> 2 <= qheight t ->
  fitting e t = [d] -> calculateDirection e t = d.
Proof.
  intros W H. rewrite fitting_filter. cbn [filter directions].
  half_facts t.
  destruct (boundingBoxCollision e (quadrant t NW)) eqn:A,
           (boundingBoxCollision e (quadrant t NE)) eqn:B,
           (boundingBoxCollision e (quadrant t SW)) eqn:C,
           (boundingBoxCollision e (quadrant t SE)) eqn:D;
    intros E; try discriminate; injection E as <-;
    collision_facts; open_quadrants; rect_simpl;
    unfold calculateDirection, getCenter, bounds; rect_simpl; cbn [fst snd];
    destruct (x e <? floor_half (qwidth t) + qx t) eqn:Lx,
             (y e <? floor_half (qheight t) + qy t) eqn:Ly;
    try reflexivity; exfalso;
    rewrite ?Z.ltb_lt, ?Z.ltb_ge in Lx, Ly; lia.
Qed.

(** * The invariant *)

Lemma wf_inv (t : QuadTree) :
  wf t ->
  (1 <= qwidth t /\ 1 <= qheight t /\ 1 <= maxElements t) /\
  Forall (fun e : ElementRect => single_fit e t) (contents t) /\
  size t = Z.of_nat (length (oversized t)) + Z.of_nat (length (contents t))
           + (child_size NW t + child_size NE t + child_size SW t + child_size SE t) /\
  within_capacity t /\
  (forall d c, child d t = Some c ->
     create t d = Returns (clear c) /\ 2 <= qwidth t /\ 2 <= qheight t /\
     1 <= size c /\ wf c /\
     (forall e : ElementRect, In e (elements c) -> fitting e t = [d])).
Proof.
  intros W. inversion W; subst.
  split; [auto |]. split; [assumption |]. split; [assumption |].
  split; [assumption |].
  intros d c E. split; [eauto |]. split; [eauto |]. split; [eauto |].
  split; [eauto |]. split; eauto.
Qed.

Lemma wf_shaped (t : QuadTree) : wf t -> shaped t.
Proof.
  induction t as [t IH] using QuadTree_induction. intros W.
  destruct (wf_inv t W) as ((Hw & Hh & Hm) & F & _ & _ & Ch).
  constructor; auto.
  - intros d c E. apply (Ch d c E).
  - intros d c E. apply (IH d c E). apply (Ch d c E).
Qed.

Lemma wf_constructed (t : QuadTree) : wf t -> constructed t.
Proof.
  induction t as [t IH] using QuadTree_induction. intros W.
  destruct (wf_inv t W) as ((Hw & Hh & Hm) & _ & _ & _ & Ch).
  constructor; auto. intros d c E. apply (IH d c E). apply (Ch d c E).
Qed.

Lemma child_size_nonneg (t : QuadTree) (d : Direction) : wf t -> 0 <= child_size d t.
Proof.
  intros W. destruct (wf_inv t W) as (_ & _ & _ & _ & Ch). unfold child_size.
  destruct (child d t) as [c |] eqn:E; [| lia]. destruct (Ch d c E) as (_ & _ & _ & S & _).
  lia.
Qed.

Lemma child_elements_length (t : QuadTree) (d : Direction) :
  (forall c, child d t = Some c -> size c = Z.of_nat (length (elements c))) ->
  child_size d t = Z.of_nat (length (child_elements d t)).
Proof.
  intros IH. unfold child_size, child_elements.
  destruct (child d t) as [c |]; [now apply IH | reflexivity].
Qed.

(** [size] is the number of elements below the node. *)
Lemma wf_size (t : QuadTree) : wf t -> size t = Z.of_nat (length (elements t)).
Proof.
  induction t as [t IH] using QuadTree_induction. intros W.
  destruct (wf_inv t W) as (_ & _ & S & _ & Ch).
  rewrite S, (elements_children t), !length_app.
  rewrite !child_elements_length; [lia | | | |];
    intros c E; apply (IH _ c E); apply (Ch _ c E).
Qed.

Lemma wf_nodes (t n : QuadTree) : wf t -> In n (nodes t) -> wf n.
Proof.
  induction t as [t IH] using QuadTree_induction. intros W I.
  rewrite nodes_unfold in I. destruct I as [<- | I]; [exact W |].
  apply in_flat_map in I. destruct I as (c & Ic & In).
  apply In_live_children in Ic. destruct Ic as [d E].
  apply (IH d c E); [| exact In].
  destruct (wf_inv t W) as (_ & _ & _ & _ & Ch). apply (Ch d c E).
Qed.

(** The capacity of [contents]. *)
Lemma wf_contents (t : QuadTree) :
  wf t -> Z.of_nat (length (contents t)) <= maxElements t.
Proof.
  intros W. destruct (wf_inv t W) as ((_ & _ & Hm) & _ & S & Cap & _).
  pose proof (child_size_nonneg t NW W). pose proof (child_size_nonneg t NE W).
  pose proof (child_size_nonneg t SW W). pose proof (child_size_nonneg t SE W).
  destruct (contents t) as [| e l] eqn:E; [cbn; lia |].
  unfold within_capacity in Cap. rewrite E in Cap.
  assert (N : e :: l <> []) by discriminate. specialize (Cap N). lia.
Qed.

Lemma wf_new (options : QuadTreeUserOptions) (t : QuadTree) :
  new_QuadTree options = Returns t -> wf t.
Proof.
  intros E. apply new_QuadTree_builds in E.
  destruct E as (W & H & M & _ & _ & _ & _ & _ & Ec). rewrite Ec.
  constructor; cbn [clear qwidth qheight maxElements contents oversized size]; auto.
  all: try (intros d c Ed; destruct d; discriminate).
  all: try (intros d c e Ed; destruct d; discriminate).
  all: try reflexivity.
  intros N. now contradiction N.
Qed.

Lemma wf_clear (t : QuadTree) : wf t -> wf (clear t).
Proof.
  intros W. destruct (wf_inv t W) as ((Hw & Hh & Hm) & _).
  constructor; cbn [clear qwidth qheight maxElements contents oversized size]; auto.
  all: try (intros d c Ed; destruct d; discriminate).
  all: try (intros d c e Ed; destruct d; discriminate).
  all: try reflexivity.
  intros N. now contradiction N.
Qed.

(** * [pushNode] keeps the invariant *)

Lemma pending_unfold (c : Candidates) :
  pending c = cand_list NW c ++ cand_list NE c ++ cand_list SW c ++ cand_list SE c.
Proof. unfold pending, cand_list, directions. cbn [flat_map]. now rewrite app_nil_r. Qed.

Lemma child_set_children (f : Direction -> option QuadTree) (t : QuadTree) (d : Direction) :
  child d (set_children f t) = f d.
Proof. now destruct d. Qed.

Lemma set_children_id (t : QuadTree) : set_children (fun d => child d t) t = t.
Proof. now destruct t. Qed.

Lemma set_children_ext (f g : Direction -> option QuadTree) (t : QuadTree) :
  (forall d, f d = g d) -> set_children f t = set_children g t.
Proof. intros E. unfold set_children. now rewrite (E NW), (E NE), (E SW), (E SE). Qed.

Lemma pushNode_unfold (k : nat) (els : list ElementRect) (t t1 : QuadTree)
  (cands : Candidates) :
  for_of push_element els (t, no_candidates) = (Returns tt, (t1, cands)) ->
  (k = O -> forall d, candidate d cands = None) ->
  pushNode k els t = set_children (pushed_child k cands t1) t1.
Proof.
  intros E Z. destruct k as [| k]; cbn [pushNode]; rewrite E; cbn [snd].
  - rewrite <- (set_children_id t1) at 1. apply set_children_ext.
    intros d. unfold pushed_child. now rewrite (Z eq_refl d).
  - reflexivity.
Qed.

Lemma clear_same_geometry (a b : QuadTree) : same_geometry a b -> clear a = clear b.
Proof. intros (X & Y & W & H & M). unfold clear. now rewrite X, Y, W, H, M. Qed.

Lemma wf_fresh (t c : QuadTree) (d : Direction) :
  create t d = Returns c -> wf c /\ size c = 0 /\ elements c = [] /\ c = clear c.
Proof.
  intros E. pose proof (wf_new _ _ E) as W. apply new_QuadTree_builds in E.
  destruct E as (_ & _ & _ & _ & _ & _ & _ & _ & Ec).
  split; [exact W |]. rewrite Ec. repeat split.
Qed.

Section PushNode.

Variable k : nat.
Variable t : QuadTree.
Variable els : list ElementRect.
Variable t1 : QuadTree.
Variable cands : Candidates.

Hypothesis t_wf : wf t.
Hypothesis t_depth : qwidth t <= 2 ^ Z.of_nat k.
Hypothesis batch : for_of push_element els (t, no_candidates) = (Returns tt, (t1, cands)).
Hypothesis slots : slots_inv t (t1, cands).
Hypothesis counts : counts_inv t els (t1, cands).

(** The induction hypothesis, for the children. *)
Hypothesis below :
  forall (els' : list ElementRect) (c : QuadTree),
    (1 <= k)%nat -> wf c -> qwidth c <= 2 ^ Z.of_nat (pred k) ->
    wf (pushNode (pred k) els' c) /\
    same_geometry (pushNode (pred k) els' c) c /\
    size (pushNode (pred k) els' c) = size c + Z.of_nat (length els') /\
    Permutation (elements (pushNode (pred k) els' c)) (elements c ++ els').

Let T : QuadTree := set_children (pushed_child k cands t1) t1.

Lemma pushNode_slot (d : Direction) : slot_ok t T cands d.
Proof.
  destruct (wf_inv t t_wf) as ((Hw & Hh & Hm) & F & Sz & Cap & Ch).
  destruct slots as [G Kp Nn Md Cd Sp]. cbn [fst snd] in *.
  unfold slot_ok, child_size, child_elements, cand_list, T.
  rewrite child_set_children. unfold pushed_child.
  destruct (candidate d cands) as [e_d |] eqn:Ec.
  - (* a candidate in direction d *)
    destruct (Cd d e_d Ec) as [Ne Fd].
    assert (P : pending cands <> []) by (apply (pending_candidate d e_d); assumption).
    destruct (Sp P) as [W2 H2].
    assert (Slot : exists c,
               child d t1 = Some c /\ wf c /\ 0 <= size c /\
               create t d = Returns (clear c) /\
               size c = child_size d t /\ elements c = child_elements d t /\
               (forall e : ElementRect, In e (elements c) -> fitting e t = [d])).
    { unfold child_size, child_elements. destruct (child d t) as [c0 |] eqn:E0.
      - exists c0. destruct (Ch d c0 E0) as (Kc & _ & _ & S1 & Wc & Rc).
        split; [now apply Kp |]. split; [exact Wc |]. split; [lia |].
        split; [exact Kc |]. split; [reflexivity |]. split; [reflexivity | exact Rc].
      - destruct (Md d e_d Ec E0) as (c & Ecr & E1). exists c.
        destruct (wf_fresh t c d Ecr) as (Wc & S0 & El & Ecl).
        split; [exact E1 |]. split; [exact Wc |]. split; [lia |].
        split; [now rewrite <- Ecl |]. split; [exact S0 |]. split; [exact El |].
        rewrite El. intros e []. }
    destruct Slot as (c & E1 & Wc & S0 & Kc & Es & Ee & Rc).
    unfold child_size, child_elements in Es, Ee. rewrite E1.
    pose proof (create_width t c d W2 Kc) as Cw.
    destruct (pow2_half k (qwidth t) (qwidth c) W2 t_depth Cw) as [Dc K1].
    destruct (below e_d c K1 Wc Dc) as (W' & G' & S' & P').
    split; [rewrite S', Es; reflexivity |].
    split; [rewrite <- Ee; exact P' |].
    intros c' [= <-].
    split; [now rewrite (clear_same_geometry _ c G') |].
    split; [exact W2 |]. split; [exact H2 |].
    split; [destruct e_d; [contradiction | cbn [length] in S'; lia] |].
    split; [exact W' |].
    intros e Ie. apply (Permutation_in _ P') in Ie. apply in_app_or in Ie.
    destruct Ie as [Ie | Ie]; [now apply Rc |].
    rewrite Forall_forall in Fd. now apply Fd.
  - (* no candidate: the slot is as it was *)
    assert (E1 : child d t1 = child d t).
    { destruct (child d t) as [c0 |] eqn:E0; [now apply Kp | now apply Nn]. }
    rewrite E1. cbn [length]. rewrite app_nil_r, Z.add_0_r.
    split; [reflexivity |]. split; [reflexivity |].
    intros c' E'. destruct (Ch d c' E') as (A & B & C & D & E & F').
    auto 10.
Qed.

Lemma pushNode_node :
  wf T /\ same_geometry T t /\ size T = size t + Z.of_nat (length els) /\
  Permutation (elements T) (elements t ++ els).
Proof.
  destruct (wf_inv t t_wf) as ((Hw & Hh & Hm) & F & Sz & Cap & Ch).
  pose proof slots as [G Kp Nn Md Cd Sp]. cbn [fst snd] in *.
  destruct counts as [Fit Csz Cperm Ccap]. cbn [fst snd] in *.
  pose proof G as (Gx & Gy & Gw & Gh & Gm).
  destruct (pushNode_slot NW) as (S1 & P1 & C1), (pushNode_slot NE) as (S2 & P2 & C2),
           (pushNode_slot SW) as (S3 & P3 & C3), (pushNode_slot SE) as (S4 & P4 & C4).
  assert (GT : same_geometry T t) by exact G.
  pose proof (Permutation_length Cperm) as Len.
  rewrite pending_unfold, !length_app in Len.
  assert (Slots : forall d c', child d T = Some c' ->
            create t d = Returns (clear c') /\ 2 <= qwidth t /\ 2 <= qheight t /\
            1 <= size c' /\ wf c' /\
            (forall e : ElementRect, In e (elements c') -> fitting e t = [d])).
  { intros d c' E. destruct (pushNode_slot d) as (_ & _ & X). exact (X c' E). }
  split; [| split; [exact GT |]; split; [exact Csz |]].
  - constructor.
    + change (qwidth T) with (qwidth t1). lia.
    + change (qheight T) with (qheight t1). lia.
    + change (maxElements T) with (maxElements t1). lia.
    + change (contents T) with (contents t1).
      eapply Forall_impl; [| exact Fit]. intros e. cbn beta.
      apply single_fit_same_geometry. exact GT.
    + rewrite S1, S2, S3, S4.
      change (size T) with (size t1). change (oversized T) with (oversized t1).
      change (contents T) with (contents t1). lia.
    + exact (Ccap Cap).
    + intros d c E. rewrite (create_same_geometry T t d GT). apply (Slots d c E).
    + intros d c E. change (qwidth T) with (qwidth t1). rewrite Gw. apply (Slots d c E).
    + intros d c E. change (qheight T) with (qheight t1). rewrite Gh. apply (Slots d c E).
    + intros d c E. apply (Slots d c E).
    + intros d c e E Ie. rewrite (fitting_same_geometry e T t GT).
      now apply (Slots d c E).
    + intros d c E. apply (Slots d c E).
  - rewrite (elements_children T), (elements_children t).
    change (oversized T) with (oversized t1). change (contents T) with (contents t1).
    rewrite pending_unfold in Cperm. clear - P1 P2 P3 P4 Cperm. perm_counts.
Qed.

End PushNode.

Lemma pushNode_wf :
  forall (k : nat) (els : list ElementRect) (t : QuadTree),
    wf t -> qwidth t <= 2 ^ Z.of_nat k ->
    wf (pushNode k els t) /\
    same_geometry (pushNode k els t) t /\
    size (pushNode k els t) = size t + Z.of_nat (length els) /\
    Permutation (elements (pushNode k els t)) (elements t ++ els).
Proof.
  induction k as [k IH] using lt_wf_ind. intros els t W D.
  destruct (wf_inv t W) as ((Hw & Hh & Hm) & F & _ & _ & _).
  destruct (batch_ok t Hw Hh Hm els [] (t, no_candidates) (slots_inv_start t)
              (counts_inv_start t F)) as ([t1 cands] & Eb & I & C).
  cbn [app] in C.
  rewrite (pushNode_unfold k els t t1 cands Eb).
  - apply (pushNode_node k t els t1 cands W D I C).
    intros els' c K1 Wc Dc. apply IH; [lia | exact Wc | exact Dc].
  - intros -> d. cbn in D.
    destruct (candidate d cands) as [l |] eqn:Ec; [exfalso | reflexivity].
    destruct I as [_ _ _ _ Cd Sp]. cbn [fst snd] in *.
    destruct (Cd d l Ec) as [Ne _].
    destruct (Sp (pending_candidate d l cands Ec Ne)). lia.
Qed.

(** * Removal *)

Lemma indexOf_None (e : ElementRect) (l : list ElementRect) :
  indexOf e l = None <-> ~ In e l.
Proof.
  induction l as [| a l IH]; cbn; [tauto |].
  destruct (same_object a e) eqn:E.
  - apply same_object_eq in E. subst a. split; [discriminate | tauto].
  - apply same_object_neq in E. destruct (indexOf e l) as [i |].
    + split; [discriminate |]. intros N. exfalso. apply N. right.
      destruct (in_dec ElementRect_eq_dec e l) as [I | I]; [exact I |].
      apply IH in I. discriminate.
    + split; [| reflexivity]. intros _ [A | A]; [contradiction |].
      now apply (proj1 IH).
Qed.

Lemma indexOf_Some (e : ElementRect) (l : list ElementRect) (i : nat) :
  indexOf e l = Some i ->
  Permutation (e :: splice i l) l /\
  Z.of_nat (length (splice i l)) = Z.of_nat (length l) - 1 /\
  (forall P : ElementRect -> Prop, Forall P l -> Forall P (splice i l)).
Proof.
  revert i. induction l as [| a l IH]; intros i; cbn [indexOf]; [discriminate |].
  destruct (same_object a e) eqn:E.
  - apply same_object_eq in E. subst a. intros [= <-]. cbn [splice length].
    split; [reflexivity |]. split; [rewrite Nat2Z.inj_succ; lia |].
    intros P F. now inversion F.
  - destruct (indexOf e l) as [j |]; [| discriminate]. intros [= <-].
    destruct (IH j eq_refl) as (P & L & F). cbn [splice length].
    split; [| split].
    + rewrite perm_swap. now constructor.
    + rewrite !Nat2Z.inj_succ. lia.
    + intros Q FQ. inversion FQ; subst. constructor; auto.
Qed.

Lemma remove_unfold (item : ElementRect) (this : QuadTree) :
  remove item this =
  match validateElement (to_js item) with
  | Throws m => (Throws m, this)
  | Returns _ =>
      match indexOf item (oversized this) with
      | Some index =>
          (Returns true,
           set_size (size this - 1) (set_oversized (splice index (oversized this)) this))
      | None =>
          match indexOf item (contents this) with
          | Some index =>
              (Returns true,
               set_size (size this - 1) (set_contents (splice index (contents this)) this))
          | None =>
              let d := calculateDirection item this in
              match child d this with
              | None => (Returns false, this)
              | Some relatedChild =>
                  match remove item relatedChild with
                  | (Returns true, relatedChild') =>
                      let this' :=
                        set_size (size this - 1) (set_child d (Some relatedChild') this) in
                      (Returns true,
                       if size relatedChild' =? 0 then set_child d None this' else this')
                  | (Returns false, relatedChild') =>
                      (Returns false, set_child d (Some relatedChild') this)
                  | (Throws m, relatedChild') =>
                      (Throws m, set_child d (Some relatedChild') this)
                  end
              end
          end
      end
  end.
Proof. destruct this; reflexivity. Qed.

Lemma set_child_same (d : Direction) (c : QuadTree) (t : QuadTree) :
  child d t = Some c -> set_child d (Some c) t = t.
Proof.
  intros E. destruct t as [x0 y0 w h m ct ov sz nw ne sw se].
  destruct d; cbn in E; subst; reflexivity.
Qed.

(** An invalid item makes [remove] throw and leaves the tree as it is. *)
Lemma remove_invalid (e : ElementRect) (t : QuadTree) (m : Error) :
  validateElement (to_js e) = Throws m -> remove e t = (Throws m, t).
Proof. intros V. rewrite remove_unfold. now rewrite V. Qed.

(** [remove] of an element that the tree does not hold returns [false] and
    leaves the tree as it is. *)
Lemma remove_absent (e : ElementRect) :
  validateElement (to_js e) = Returns tt ->
  forall t, ~ In e (elements t) -> remove e t = (Returns false, t).
Proof.
  intros V. induction t as [t IH] using QuadTree_induction. intros N.
  rewrite remove_unfold, V.
  assert (No : ~ In e (oversized t))
    by (intros I; apply N; rewrite elements_unfold; unfold local; auto using in_or_app).
  assert (Nc : ~ In e (contents t))
    by (intros I; apply N; rewrite elements_unfold; unfold local; auto using in_or_app).
  apply indexOf_None in No, Nc. rewrite No, Nc. cbn zeta.
  destruct (child (calculateDirection e t) t) as [c |] eqn:E; [| reflexivity].
  rewrite (IH _ c E).
  - now rewrite (set_child_same _ c t E).
  - intros I. apply N. apply (In_elements_child t c _ e E I).
Qed.

Lemma elements_set_size (n : Z) (t : QuadTree) : elements (set_size n t) = elements t.
Proof. now destruct t. Qed.

Lemma wf_no_elements (t : QuadTree) : wf t -> size t = 0 -> elements t = [].
Proof.
  intros W Z. rewrite (wf_size t W) in Z.
  destruct (elements t); [reflexivity | cbn in Z; lia].
Qed.

(** [remove] of an element that the tree holds returns [true], takes one
    reference to it out of the tree and keeps the invariant. *)
Lemma remove_present (e : ElementRect) :
  validateElement (to_js e) = Returns tt ->
  forall t, wf t -> In e (elements t) ->
  exists t',
    remove e t = (Returns true, t') /\ wf t' /\ same_geometry t' t /\
    size t' = size t - 1 /\ Permutation (e :: elements t') (elements t).
Proof.
  intros V. induction t as [t IH] using QuadTree_induction. intros W I.
  destruct (wf_inv t W) as ((Hw & Hh & Hm) & F & Sz & Cap & Ch).
  rewrite remove_unfold, V.
  destruct (indexOf e (oversized t)) as [i |] eqn:Io.
  - (* held in oversized *)
    destruct (indexOf_Some e _ i Io) as (P & L & _).
    eexists. split; [reflexivity |].
    split; [| split; [exact (same_geometry_refl t) |]; split; [reflexivity |]].
    + constructor; cbn [set_size set_oversized qwidth qheight maxElements contents
                        oversized size]; auto; try (intros; eapply Ch; eassumption).
      * unfold child_size in *. cbn [child set_size set_oversized treeNW treeNE treeSW
                                      treeSE] in *. lia.
      * intros N. specialize (Cap N). lia.
    + rewrite elements_set_size, (elements_children t),
        (elements_children (set_oversized _ t)).
      cbn [set_oversized oversized contents]. unfold child_elements.
      cbn [child set_oversized treeNW treeNE treeSW treeSE].
      change (treeNW t) with (child NW t). change (treeNE t) with (child NE t).
      change (treeSW t) with (child SW t). change (treeSE t) with (child SE t).
      perm_counts.
  - apply indexOf_None in Io.
    destruct (indexOf e (contents t)) as [i |] eqn:Ic.
    + (* held in contents *)
      destruct (indexOf_Some e _ i Ic) as (P & L & Fs).
      assert (Ne : contents t <> []).
      { intros Z. rewrite Z in Ic. discriminate. }
      eexists. split; [reflexivity |].
      split; [| split; [exact (same_geometry_refl t) |]; split; [reflexivity |]].
      * constructor; cbn [set_size set_contents qwidth qheight maxElements contents
                          oversized size]; auto; try (intros; eapply Ch; eassumption);
          try (apply Fs; exact F).
        -- unfold child_size in *. cbn [child set_size set_contents treeNW treeNE treeSW
                                        treeSE] in *. lia.
        -- intros _. specialize (Cap Ne). lia.
      * rewrite elements_set_size, (elements_children t),
          (elements_children (set_contents _ t)).
        cbn [set_contents oversized contents]. unfold child_elements.
        cbn [child set_contents treeNW treeNE treeSW treeSE].
        change (treeNW t) with (child NW t). change (treeNE t) with (child NE t).
        change (treeSW t) with (child SW t). change (treeSE t) with (child SE t).
        perm_counts.
    + (* held below *)
      apply indexOf_None in Ic. cbn zeta.
      destruct (In_elements_inv t e I) as [Ao | [Ac | (d & c & E & Ie)]];
        [contradiction | contradiction |].
      destruct (Ch d c E) as (Kc & W2 & H2 & S1 & Wc & Rc).
      rewrite (fitting_calculateDirection e t d W2 H2 (Rc e Ie)), E.
      destruct (IH d c E Wc Ie) as (c' & Er & Wc' & Gc & Sc & Pc).
      rewrite Er.
      set (t' := if size c' =? 0
                 then set_child d None (set_size (size t - 1) (set_child d (Some c') t))
                 else set_size (size t - 1) (set_child d (Some c') t)).
      assert (Fields : same_geometry t' t /\ contents t' = contents t /\
                       oversized t' = oversized t /\ size t' = size t - 1 /\
                       (forall d', d' <> d -> child d' t' = child d' t) /\
                       child d t' = if size c' =? 0 then None else Some c').
      { unfold t'. destruct (size c' =? 0).
        - split; [exact (same_geometry_refl t) |]. repeat split; try reflexivity.
          + intros d' N. destruct d, d'; try congruence; reflexivity.
          + now destruct d.
        - split; [exact (same_geometry_refl t) |]. repeat split; try reflexivity.
          + intros d' N. destruct d, d'; try congruence; reflexivity.
          + now destruct d. }
      clearbody t'. destruct Fields as (G' & Ect & Eov & Esz & Oth & Ed).
      assert (CS : forall d', child_size d' t'
                              = child_size d' t - if Direction_eqb d' d then 1 else 0).
      { intros d'. unfold child_size. destruct (Direction_eq_dec d' d) as [-> | N].
        - rewrite Direction_eqb_refl, Ed, E.
          destruct (size c' =? 0) eqn:Z0; [apply Z.eqb_eq in Z0 |]; lia.
        - rewrite (Oth d' N).
          destruct (Direction_eqb d' d) eqn:B; [apply Direction_eqb_eq in B; congruence |].
          lia. }
      assert (CE : forall d', Permutation
                                (child_elements d' t'
                                 ++ if Direction_eqb d' d then [e] else [])
                                (child_elements d' t)).
      { intros d'. unfold child_elements. destruct (Direction_eq_dec d' d) as [-> | N].
        - rewrite Direction_eqb_refl, Ed, E.
          assert (X : match (if size c' =? 0 then None else Some c') with
                      | Some c0 => elements c0
                      | None => []
                      end = elements c')
            by (destruct (size c' =? 0) eqn:Z0;
                [symmetry; apply wf_no_elements; [exact Wc' | now apply Z.eqb_eq]
                | reflexivity]).
          rewrite X. clear - Pc. perm_counts.
        - rewrite (Oth d' N).
          destruct (Direction_eqb d' d) eqn:B; [apply Direction_eqb_eq in B; congruence |].
          now rewrite app_nil_r. }
      exists t'. split; [reflexivity |].
      pose proof G' as (Gx & Gy & Gw & Gh & Gm).
      split; [| split; [exact G' |]; split; [exact Esz |]].
      * assert (Slot : forall d' c0, child d' t' = Some c0 ->
                  create t d' = Returns (clear c0) /\ 2 <= qwidth t /\ 2 <= qheight t /\
                  1 <= size c0 /\ wf c0 /\
                  (forall e0 : ElementRect, In e0 (elements c0) -> fitting e0 t = [d'])).
        { intros d' c0 E0. destruct (Direction_eq_dec d' d) as [-> | N].
          - rewrite Ed in E0. destruct (size c' =? 0) eqn:Z0; [discriminate |].
            injection E0 as <-. apply Z.eqb_neq in Z0.
            split; [now rewrite (clear_same_geometry c' c Gc) |].
            split; [exact W2 |]. split; [exact H2 |]. split; [lia |].
            split; [exact Wc' |].
            intros e0 I0. apply Rc. apply (Permutation_in _ Pc). now right.
          - rewrite (Oth d' N) in E0. apply (Ch d' c0 E0). }
        constructor; try lia.
        -- rewrite Ect. eapply Forall_impl; [| exact F]. intros e0. cbn beta.
           apply single_fit_same_geometry. exact G'.
        -- rewrite Esz, Eov, Ect, (CS NW), (CS NE), (CS SW), (CS SE).
           destruct d; cbn [Direction_eqb]; lia.
        -- unfold within_capacity in *. rewrite Ect, Esz, Eov, Gm.
           intros N. specialize (Cap N). lia.
        -- intros d' c0 E0. rewrite (create_same_geometry t' t d' G').
           apply (Slot d' c0 E0).
        -- intros d' c0 E0. apply (Slot d' c0 E0).
        -- intros d' c0 e0 E0 I0. rewrite (fitting_same_geometry e0 t' t G').
           now apply (Slot d' c0 E0).
        -- intros d' c0 E0. apply (Slot d' c0 E0).
      * rewrite (elements_children t'), (elements_children t), Eov, Ect.
        pose proof (CE NW) as P1. pose proof (CE NE) as P2.
        pose proof (CE SW) as P3. pose proof (CE SE) as P4.
        clear - P1 P2 P3 P4. destruct d; cbn [Direction_eqb] in *; perm_counts.
Qed.

(** What [remove] returns, on a tree that satisfies the invariant. *)
Lemma remove_result (e : ElementRect) (t t' : QuadTree) (o : Outcome bool) :
  wf t -> remove e t = (o, t') ->
  (exists m, o = Throws m /\ t' = t) \/
  (o = Returns false /\ t' = t /\ ~ In e (elements t)) \/
  (o = Returns true /\ wf t' /\ same_geometry t' t /\ size t' = size t - 1 /\
   Permutation (e :: elements t') (elements t)).
Proof.
  intros W E. destruct (validateElement (to_js e)) as [[] | m] eqn:V.
  - destruct (in_dec ElementRect_eq_dec e (elements t)) as [I | N].
    + right. right. destruct (remove_present e V t W I) as (t'' & Er & Facts).
      rewrite Er in E. injection E as <- <-. auto.
    + right. left. rewrite (remove_absent e V t N) in E. injection E as <- <-. auto.
  - left. rewrite (remove_invalid e t m V) in E. injection E as <- <-. eauto.
Qed.

(** * Every state of the tree satisfies the invariant *)

Theorem reachable_wf (t : QuadTree) : reachable t -> wf t.
Proof.
  induction 1 as [options t E | fuel items o t t' R IH E | item o t t' R IH E | t R IH].
  - apply (wf_new options t E).
  - destruct (pushAll_result fuel items t t' o (wf_shaped t IH) E)
      as [(m & _ & -> & _) | (_ & _ & ->)]; [exact IH |].
    destruct (wf_inv t IH) as ((Hw & _) & _).
    apply (pushNode_wf (depth_of t) (as_elements items) t IH (depth_of_enough t Hw)).
  - destruct (remove_result item t t' o IH E)
      as [(m & _ & ->) | [(_ & -> & _) | (_ & W & _)]]; assumption.
  - now apply wf_clear.
Qed.

(** Every state of the tree is made of nodes that the constructor built. *)
Lemma reachable_constructed (t : QuadTree) : reachable t -> constructed t.
Proof. intros R. now apply wf_constructed, reachable_wf. Qed.

Lemma reachable_push (fuel : nat) (item : JsValue) (o : Outcome unit) (t t' : QuadTree) :
  reachable t -> push fuel item t = Some (o, t') -> reachable t'.
Proof. intros R E. exact (reachable_pushAll fuel [item] o t t' R E). Qed.

(** * The capacity of [contents] *)

(** C4.  In every state of the tree that construction, [pushAll] (and
    [push]), [remove] and [clear] can reach, [contents] holds at most
    [maxElements] elements at every node. *)
Theorem contents_within_maxElements (t : QuadTree) :
  reachable t ->
  forall n, In n (nodes t) -> Z.of_nat (length (contents n)) <= maxElements n.
Proof.
  intros R n I. apply wf_contents. apply (wf_nodes t n); [| exact I].
  now apply reachable_wf.
Qed.

Lemma new_pristine_100 :
  new_QuadTree (mkOptions None None (Some 100) (Some 100) (Some 2)) = Returns pristine_100.
Proof. reflexivity. Qed.

Lemma pushAll_abc :
  pushAll 4 [to_js elt_a; to_js elt_b; to_js elt_c] pristine_100
  = Some (Returns tt, tree_abc).
Proof. reflexivity. Qed.

Lemma remove_a : remove elt_a tree_abc = (Returns true, tree_bc).
Proof. reflexivity. Qed.

Lemma remove_b : remove elt_b tree_bc = (Returns true, tree_c).
Proof. reflexivity. Qed.

Lemma push_d : push 1 (to_js elt_d) tree_c = Some (Returns tt, tree_cd).
Proof. reflexivity. Qed.

Lemma reachable_abc : reachable tree_abc.
Proof.
  eapply reachable_pushAll; [| exact pushAll_abc].
  eapply reachable_new. exact new_pristine_100.
Qed.

Lemma reachable_cd : reachable tree_cd.
Proof.
  eapply reachable_pushAll; [| exact push_d].
  eapply reachable_remove; [| exact remove_b].
  eapply reachable_remove; [| exact remove_a].
  exact reachable_abc.
Qed.

Lemma contents_within_maxElements_witness :
  Z.of_nat (length (contents tree_cd)) <= maxElements tree_cd.
Proof.
  apply (contents_within_maxElements tree_cd reachable_cd tree_cd).
  rewrite nodes_unfold. now left.
Defined.

(** * Internal nodes *)

(** C8, as stated, fails: after two removals the next element goes to the
    [contents] of the root, which still has a child, and the tree was never
    empty in between. *)
Lemma internal_node_reverts : ~ never_reverts.
Proof.
  intros C. apply (C tree_abc tree_cd).
  - exact reachable_abc.
  - split; [reflexivity | discriminate].
  - eapply later_push; [| exact push_d | discriminate].
    eapply later_remove; [| exact remove_b | discriminate].
    eapply later_remove; [| exact remove_a | discriminate].
    apply later_now.
  - split; discriminate.
Qed.

Lemma as_element_to_js (e : ElementRect) : as_element (to_js e) = Some e.
Proof. now destruct e as [r [x0 y0 w h]]. Qed.

Lemma as_elements_single (e : ElementRect) : as_elements [to_js e] = [e].
Proof. unfold as_elements. cbn [flat_map]. now rewrite as_element_to_js. Qed.

Lemma pushes_pushNode (e : ElementRect) (t : QuadTree) :
  wf t -> valid_element (to_js e) -> pushes e t (pushNode (depth_of t) [e] t).
Proof.
  intros W V. exists (visits (depth_of t) [e] t). intros fuel L.
  unfold push. rewrite (pushAll_pushNode fuel [to_js e] t (wf_shaped t W)).
  - now rewrite as_elements_single.
  - now constructor.
  - now rewrite as_elements_single.
Qed.

(** The three branches of the insertion loop, for one element at a node. *)
Lemma push_element_branches (n : QuadTree) (e : ElementRect) :
  wf n ->
  exists t1 cands,
    for_of push_element [e] (n, no_candidates) = (Returns tt, (t1, cands)) /\
    (single_fit e n -> qwidth n <> 1 -> qheight n <> 1 ->
     (size n + 1 - Z.of_nat (length (oversized n)) <= maxElements n ->
      t1 = set_contents (contents n ++ [e]) (set_size (size n + 1) n) /\
      cands = no_candidates) /\
     (maxElements n < size n + 1 - Z.of_nat (length (oversized n)) ->
      contents t1 = [])).
Proof.
  intros W. destruct (wf_inv n W) as ((Hw & Hh & Hm) & F & _ & _ & _).
  cbn [for_of]. unfold push_element.
  rewrite (fitting_same_geometry e (set_size (size n + 1) n) n (same_geometry_refl n)).
  cbn [qwidth qheight size oversized contents maxElements set_size].
  destruct (negb (Nat.eqb (length (fitting e n)) 1) || (qwidth n =? 1) || (qheight n =? 1))
    eqn:Over.
  - eexists _, _. split; [reflexivity |]. intros Fit Nw Nh. exfalso.
    unfold single_fit in Fit. rewrite Fit in Over. cbn in Over.
    apply orb_true_iff in Over. rewrite !Z.eqb_eq in Over. tauto.
  - destruct (size n + 1 - Z.of_nat (length (oversized n)) <=? maxElements n) eqn:Room.
    + apply Z.leb_le in Room. eexists _, _. split; [reflexivity |].
      intros _ _ _. split; [auto | lia].
    + apply Z.leb_gt in Room.
      apply orb_false_iff in Over. destruct Over as [Over Oh].
      apply orb_false_iff in Over. destruct Over as [Ofit Ow].
      apply negb_false_iff, Nat.eqb_eq in Ofit. apply Z.eqb_neq in Ow, Oh.
      destruct (single_fit_direction n e Ofit) as [d Ed]. rewrite Ed.
      destruct (enqueue_ok n Hw Hh Hm d e (set_size (size n + 1) n, no_candidates))
        as (st1 & E1 & I1 & _); [| exact Ed | lia | lia |].
      { destruct (slots_inv_start n) as [G0 K0 N0 M0 C0 S0].
        constructor; cbn [fst snd] in *; auto. }
      rewrite E1.
      destruct (flush_ok n Hw Hh Hm (contents n) F ltac:(lia) ltac:(lia) st1 I1)
        as ([t2 c2] & E2 & _).
      rewrite E2. eexists _, _. split; [reflexivity |].
      intros _ _ _. split; [lia | reflexivity].
Qed.

(** C8, amended.  In every reachable state, a node whose elements that are
    not oversized are more than [maxElements] holds nothing in [contents]:
    they are in its children.  An element that fits one quadrant of a root
    that can split, and with which [size - oversized.length] stays within
    [maxElements], is appended to [contents], whether the root has children
    or not (they are kept); one with which [size - oversized.length] exceeds
    [maxElements] leaves [contents] empty, the elements being kept in the
    tree. *)
Theorem contents_flushed_over_capacity (t : QuadTree) :
  reachable t ->
  (forall n, In n (nodes t) ->
     maxElements n < size n - Z.of_nat (length (oversized n)) -> contents n = [])
  /\ (forall e : ElementRect,
        valid_element (to_js e) -> single_fit e t -> qwidth t <> 1 -> qheight t <> 1 ->
        exists t',
          pushes e t t' /\ Permutation (elements t') (elements t ++ [e]) /\
          (size t + 1 - Z.of_nat (length (oversized t)) <= maxElements t ->
           contents t' = contents t ++ [e] /\ forall d, child d t' = child d t) /\
          (maxElements t < size t + 1 - Z.of_nat (length (oversized t)) ->
           contents t' = [])).
Proof.
  intros R. pose proof (reachable_wf t R) as W. split.
  - intros n I Over. pose proof (wf_nodes t n W I) as Wn.
    destruct (wf_inv n Wn) as (_ & _ & _ & Cap & _). unfold within_capacity in Cap.
    destruct (contents n) as [| e l] eqn:E; [reflexivity |].
    assert (N : e :: l <> []) by discriminate. specialize (Cap N). lia.
  - intros e V Fit Nw Nh. exists (pushNode (depth_of t) [e] t).
    destruct (wf_inv t W) as ((Hw & Hh & Hm) & _).
    destruct (pushNode_wf (depth_of t) [e] t W (depth_of_enough t Hw)) as (_ & _ & _ & P).
    split; [now apply pushes_pushNode |]. split; [exact P |].
    destruct (push_element_branches t e W) as (t1 & cands & Eb & Br).
    destruct (Br Fit Nw Nh) as [Room Split].
    assert (U : (depth_of t = O -> forall d, candidate d cands = None) ->
                pushNode (depth_of t) [e] t
                = set_children (pushed_child (depth_of t) cands t1) t1)
      by apply (pushNode_unfold (depth_of t) [e] t t1 cands Eb).
    split.
    + intros L. destruct (Room L) as [-> ->].
      rewrite U by (intros _ d; now destruct d).
      split; [reflexivity |]. intros d. rewrite child_set_children.
      unfold pushed_child. now destruct d.
    + intros L. rewrite U; [exact (Split L) |].
      intros D0 d. pose proof (depth_of_enough t Hw) as D. rewrite D0 in D. cbn in D.
      lia.
Qed.

Lemma contents_flushed_over_capacity_witness :
  exists t',
    pushes elt_d tree_c t' /\ contents t' = [elt_d] /\
    child SW t' = Some (leaf_50 0 50 elt_c).
Proof.
  assert (R : reachable tree_c).
  { eapply reachable_remove; [| exact remove_b].
    eapply reachable_remove; [| exact remove_a]. exact reachable_abc. }
  destruct (contents_flushed_over_capacity tree_c R) as [_ Push].
  destruct (Push elt_d) as (t' & P & _ & Room & _).
  - simpl. split; intros v [= <-]; lia.
  - reflexivity.
  - simpl. lia.
  - simpl. lia.
  - exists t'. destruct Room as [C K]; [simpl; lia |].
    split; [exact P |]. split; [exact C | exact (K SW)].
Defined.

(** * Insert, find, remove *)

Lemma filter_same_object (e : ElementRect) (l : list ElementRect) :
  filter (fun i => same_object i e) l = repeat e (occurrences e l).
Proof.
  unfold occurrences. induction l as [| a l IH]; cbn [filter count_occ]; [reflexivity |].
  destruct (same_object a e) eqn:E.
  - apply same_object_eq in E. subst a.
    destruct (ElementRect_eq_dec e e) as [_ | N]; [| contradiction].
    cbn [repeat]. now rewrite IH.
  - apply same_object_neq in E.
    destruct (ElementRect_eq_dec a e) as [A | _]; [contradiction | exact IH].
Qed.

(** [find (i => i === e)] returns one reference to [e] for each reference
    that the tree holds. *)
Lemma find_is_object (e : ElementRect) (t : QuadTree) :
  find (is_object e) t = Some (repeat e (occurrences e (elements t))).
Proof.
  unfold is_object. rewrite find_returns.
  change (call_predicate (PredicateFunction (fun i => same_object i e)))
    with (fun i => same_object i e).
  rewrite filter_same_object. do 2 f_equal. unfold occurrences.
  apply Permutation_count_occ. apply traversal_order_elements.
Qed.

Lemma push_more_fuel (fuel fuel' : nat) (item : JsValue) (t : QuadTree)
  (r : Outcome unit * QuadTree) :
  push fuel item t = Some r -> (fuel <= fuel')%nat -> push fuel' item t = Some r.
Proof.
  unfold push, pushAll.
  destruct (for_of (fun item s => (validateElement item, s)) [item] tt) as [[[] | m] u].
  - intros E L. apply (pushAll_loop_more_fuel fuel _ t r E fuel' L).
  - auto.
Qed.

Lemma pushes_unique (e : ElementRect) (t t1 t2 : QuadTree) :
  pushes e t t1 -> pushes e t t2 -> t1 = t2.
Proof.
  intros [f1 P1] [f2 P2].
  specialize (P1 (Nat.max f1 f2) (Nat.le_max_l _ _)).
  specialize (P2 (Nat.max f1 f2) (Nat.le_max_r _ _)). congruence.
Qed.

Lemma push_a : push 1 (to_js elt_a) pristine_100 = Some (Returns tt, tree_a).
Proof. reflexivity. Qed.

Lemma push_a_again : push 1 (to_js elt_a) tree_a = Some (Returns tt, tree_aa).
Proof. reflexivity. Qed.

Lemma reachable_a : reachable tree_a.
Proof.
  eapply reachable_pushAll; [| exact push_a].
  eapply reachable_new. exact new_pristine_100.
Qed.

(** C2, as stated, fails in a state that already holds the element: [push]
    adds a second reference, [remove] takes one out, and [find] still returns
    the element. *)
Lemma push_find_remove_held_twice :
  reachable tree_a /\ valid_element (to_js elt_a) /\
  remove elt_a tree_aa = (Returns true, tree_a) /\
  find (is_object elt_a) tree_a = Some [elt_a] /\
  ~ push_find_remove tree_a elt_a.
Proof.
  split; [exact reachable_a |].
  split; [simpl; split; intros v [= <-]; lia |].
  split; [reflexivity |]. split; [reflexivity |].
  intros (t1 & t2 & P & _ & R1 & F2 & _).
  assert (E1 : t1 = tree_aa).
  { apply (pushes_unique elt_a tree_a); [exact P |].
    exists 1%nat. intros fuel L. apply (push_more_fuel 1 fuel _ _ _ push_a_again L). }
  subst t1.
  assert (Ra : remove elt_a tree_aa = (Returns true, tree_a)) by reflexivity.
  assert (Fa : find (is_object elt_a) tree_a = Some [elt_a]) by reflexivity.
  rewrite Ra in R1. injection R1 as <-. rewrite Fa in F2. discriminate.
Qed.

(** C2, amended.  In every reachable state of the tree that does not hold
    [e], for every valid [e]: [push (e)] returns; then [find (i => i === e)]
    returns [e] alone; then [remove (e)] returns [true]; after it the same
    [find] returns nothing, and a second [remove (e)] returns [false] and
    leaves the tree as it is. *)
Theorem push_find_remove_fresh (t : QuadTree) (e : ElementRect) :
  reachable t -> valid_element (to_js e) -> ~ In e (elements t) ->
  push_find_remove t e.
Proof.
  intros R V N. pose proof (reachable_wf t R) as W.
  destruct (wf_inv t W) as ((Hw & _) & _).
  destruct (pushNode_wf (depth_of t) [e] t W (depth_of_enough t Hw))
    as (W1 & _ & _ & P1).
  set (t1 := pushNode (depth_of t) [e] t) in *.
  pose proof (proj2 (validateElement_valid (to_js e)) V) as Ve.
  assert (O1 : occurrences e (elements t1) = 1%nat).
  { unfold occurrences.
    rewrite (proj1 (Permutation_count_occ ElementRect_eq_dec _ _) P1 e).
    rewrite count_occ_app, (proj1 (count_occ_not_In ElementRect_eq_dec _ e) N).
    cbn. now destruct (ElementRect_eq_dec e e). }
  assert (I1 : In e (elements t1)).
  { apply (count_occ_In ElementRect_eq_dec). unfold occurrences in O1. lia. }
  destruct (remove_present e Ve t1 W1 I1) as (t2 & R1 & W2 & _ & _ & P2).
  assert (O2 : occurrences e (elements t2) = 0%nat).
  { unfold occurrences in *.
    pose proof (proj1 (Permutation_count_occ ElementRect_eq_dec _ _) P2 e) as C.
    cbn [count_occ] in C. destruct (ElementRect_eq_dec e e); [lia | contradiction]. }
  assert (N2 : ~ In e (elements t2)).
  { apply (count_occ_not_In ElementRect_eq_dec). exact O2. }
  exists t1, t2.
  split; [now apply pushes_pushNode |].
  split; [now rewrite find_is_object, O1 |].
  split; [exact R1 |].
  split; [now rewrite find_is_object, O2 |].
  now apply remove_absent.
Qed.

Lemma push_find_remove_fresh_witness : push_find_remove tree_c elt_d.
Proof.
  apply (push_find_remove_fresh tree_c elt_d).
  - eapply reachable_remove; [| exact remove_b].
    eapply reachable_remove; [| exact remove_a]. exact reachable_abc.
  - simpl. split; intros v [= <-]; lia.
  - simpl. intros [E | []]. discriminate.
Defined.

(** * The scenario of the tests *)

Lemma scenario_construction :
  new_QuadTree (mkOptions (Some 0) (Some 0) (Some 10000) (Some 10000) (Some 5))
  = Returns pristine_10000.
Proof. reflexivity. Qed.

Lemma scenario_push : push 1 (to_js rect1) pristine_10000 = Some (Returns tt, tree_rect1).
Proof. reflexivity. Qed.

Lemma scenario_colliding :
  colliding (query 55 55) boundingBoxCollision tree_rect1 = Some (Returns [rect1]) /\
  colliding (query 111 111) boundingBoxCollision tree_rect1 = Some (Returns []) /\
  colliding (query 110 110) boundingBoxCollision tree_rect1 = Some (Returns []) /\
  colliding (query 109 109) boundingBoxCollision tree_rect1 = Some (Returns [rect1]) /\
  colliding (query 15 100) boundingBoxCollision tree_rect1 = Some (Returns [rect1]) /\
  colliding (query 20 111) boundingBoxCollision tree_rect1 = Some (Returns []).
Proof. repeat split. Qed.

(** * Further properties of the geometry primitives *)


Lemma In_directions (d : Direction) : In d directions.
Proof. destruct d; cbn; auto. Qed.

Lemma NoDup_directions : NoDup directions.
Proof.
  unfold directions.
  repeat (constructor; [cbn; intuition discriminate |]). constructor.
Qed.

Lemma In_fitting (e : Rect) (t : QuadTree) (d : Direction) :
  In d (fitting e t) <-> boundingBoxCollision e (quadrant t d) = true.
Proof.
  rewrite fitting_filter, filter_In. split; [tauto |].
  intros H. split; [apply In_directions | assumption].
Qed.

(** X2. [fitting] lists each quadrant that the element collides with once,
    in the order NW, NE, SW, SE, and never lists three quadrants: the
    quadrants it lists are the columns times the rows that the element
    meets. *)
Theorem fitting_lengths (e : Rect) (t : QuadTree) :
  fitting e t = filter (fun d => boundingBoxCollision e (quadrant t d)) [NW; NE; SW; SE] /\
  (forall d, In d (fitting e t) <-> boundingBoxCollision e (quadrant t d) = true) /\
  NoDup (fitting e t) /\
  In (length (fitting e t)) [0; 1; 2; 4]%nat.
Proof.
  split; [apply fitting_filter |]. split; [apply In_fitting |]. split.
  - rewrite fitting_filter. apply NoDup_filter, NoDup_directions.
  - rewrite fitting_filter. cbn [filter directions].
    destruct (boundingBoxCollision e (quadrant t NW)) eqn:A,
             (boundingBoxCollision e (quadrant t NE)) eqn:B,
             (boundingBoxCollision e (quadrant t SW)) eqn:C,
             (boundingBoxCollision e (quadrant t SE)) eqn:D;
      cbn [length In]; try tauto; exfalso;
      collision_facts; open_quadrants; rect_simpl; lia.
Qed.

(** X3. In a node that can split, an element that does not collide with
    the rectangle of the node fits no quadrant; an element of positive
    width and height that fits no quadrant does not collide with the
    rectangle of the node. *)
Theorem fitting_nil_outside (e : Rect) (t : QuadTree) :
  2 <= qwidth t -> 2 <= qheight t ->
  (boundingBoxCollision e (bounds t) = false -> fitting e t = []) /\
  (positive_extent e -> fitting e t = [] -> boundingBoxCollision e (bounds t) = false).
Proof.
  intros W H. half_facts t.
  pose proof (floor_ceil_half (qwidth t)). pose proof (floor_ceil_half (qheight t)).
  split.
  - intros O. apply fitting_nil. intros d.
    apply boundingBoxCollision_false. apply boundingBoxCollision_false in O.
    destruct d; open_quadrants; rect_simpl; lia.
  - intros (Pw & Ph) N.
    pose proof (proj1 (fitting_nil e t) N) as F.
    pose proof (F NW) as A. pose proof (F NE) as B.
    pose proof (F SW) as C. pose proof (F SE) as D.
    apply boundingBoxCollision_false.
    apply boundingBoxCollision_false in A, B, C, D.
    open_quadrants; rect_simpl. lia.
Qed.

Lemma fitting_nil_outside_witness :
  fitting (mkRect 150 10 (Some 5) (Some 5)) pristine_100 = [].
Proof.
  destruct (fitting_nil_outside (mkRect 150 10 (Some 5) (Some 5)) pristine_100)
    as (X & _); [cbn; lia | cbn; lia |].
  apply X. reflexivity.
Defined.

Lemma calculateDirection_in_quadrant (e : Rect) (t : QuadTree) :
  2 <= qwidth t -> 2 <= qheight t ->
  in_rect (bounds t) (x e) (y e) ->
  in_rect (quadrant t (calculateDirection e t)) (x e) (y e).
Proof.
  intros W H. half_facts t.
  pose proof (floor_ceil_half (qwidth t)). pose proof (floor_ceil_half (qheight t)).
  unfold calculateDirection, getCenter, bounds, in_rect. rect_simpl. cbn [fst snd].
  intros I.
  destruct (x e <? floor_half (qwidth t) + qx t) eqn:Lx,
           (y e <? floor_half (qheight t) + qy t) eqn:Ly;
    rewrite ?Z.ltb_lt, ?Z.ltb_ge in Lx, Ly;
    open_quadrants; rect_simpl; lia.
Qed.

(** X4. In a node that can split, [calculateDirection] names the quadrant
    that holds the origin of the element when the origin is in the node, and
    the quadrant that [fitting] names when the element fits one quadrant:
    [remove] and [where] descend to the child that [pushAll] chose. *)
Theorem calculateDirection_quadrant (e : Rect) (t : QuadTree) :
  2 <= qwidth t -> 2 <= qheight t ->
  (in_rect (bounds t) (x e) (y e) ->
   in_rect (quadrant t (calculateDirection e t)) (x e) (y e)) /\
  (forall d, fitting e t = [d] -> calculateDirection e t = d).
Proof.
  intros W H. split.
  - apply calculateDirection_in_quadrant; assumption.
  - intros d. apply fitting_calculateDirection; assumption.
Qed.

Lemma calculateDirection_quadrant_witness :
  in_rect (quadrant pristine_100 (calculateDirection elt_b pristine_100)) 60 60 /\
  calculateDirection elt_b pristine_100 = SE.
Proof.
  destruct (calculateDirection_quadrant elt_b pristine_100) as (X & Y);
    [cbn; lia | cbn; lia |].
  split.
  - apply X. cbv. intuition discriminate.
  - apply Y. reflexivity.
Defined.

(** The child that [create] builds covers the quadrant of its slot. *)
Lemma create_quadrant (t c : QuadTree) (d : Direction) :
  1 <= maxElements t ->
  create t d = Returns c ->
  bounds c = quadrant t d /\ maxElements c = maxElements t /\ c = clear c.
Proof.
  intros M E. unfold create in E.
  destruct (new_QuadTree_builds _ _ E) as (_ & _ & _ & Ow & Oh & Ox & Oy & Om & Cl).
  unfold bounds.
  destruct d; cbn [child_options opt_width opt_height opt_x opt_y opt_maxElements] in *;
    rewrite or_falsy_0 in Ox, Oy; rewrite (or_falsy_positive _ _ M) in Om;
    injection Ow as Ow; injection Oh as Oh;
    open_quadrants; rewrite Ox, Oy, <- Ow, <- Oh; auto.
Qed.

(** X5. The getter of an empty child slot of a valid node builds a child
    that covers the quadrant of the slot as [splitTree] computes it, with
    the [maxElements] of the node and no element; it leaves the other slots
    as they are, and a second call returns the same child. *)
Theorem get_creates_quadrant (t : QuadTree) (d : Direction) :
  1 <= qwidth t -> 1 <= qheight t -> 1 <= maxElements t -> child d t = None ->
  exists c,
    get d t = Returns (set_child d (Some c) t, c) /\
    bounds c = quadrant t d /\ maxElements c = maxElements t /\
    size c = 0 /\ elements c = [] /\
    (forall d', d' <> d -> child d' (set_child d (Some c) t) = child d' t) /\
    get d (set_child d (Some c) t) = Returns (set_child d (Some c) t, c).
Proof.
  intros W H M N.
  destruct (create_ok t d W H M) as (c & E & Cl & _).
  destruct (create_quadrant t c d M E) as (B & Mx & _).
  exists c. unfold get. rewrite N, E.
  split; [reflexivity |]. split; [assumption |]. split; [assumption |].
  split; [rewrite Cl; reflexivity |]. split; [rewrite Cl; reflexivity |].
  split.
  - intros d' Ne. apply child_set_child_other. assumption.
  - rewrite child_set_child_same. reflexivity.
Qed.

Lemma get_creates_quadrant_witness :
  exists c,
    get NE pristine_100 = Returns (set_child NE (Some c) pristine_100, c) /\
    bounds c = quadrant pristine_100 NE.
Proof.
  destruct (get_creates_quadrant pristine_100 NE) as (c & G & B & _);
    [cbn; lia | cbn; lia | cbn; lia | reflexivity |].
  exists c. split; assumption.
Defined.

(** * Further properties of the states of a tree *)

Lemma all_nodes_inv (P : QuadTree -> Prop) (t : QuadTree) :
  all_nodes P t -> P t /\ forall d c, child d t = Some c -> all_nodes P c.
Proof. intros A. inversion A; subst. split; assumption. Qed.

Lemma In_nodes_inv (t n : QuadTree) :
  In n (nodes t) -> n = t \/ exists d c, child d t = Some c /\ In n (nodes c).
Proof.
  rewrite nodes_unfold. intros [E | I]; [left; symmetry; exact E | right].
  apply in_flat_map in I. destruct I as (c & Ic & In').
  apply In_live_children in Ic. destruct Ic as [d Ec]. exists d, c. split; assumption.
Qed.

Lemma In_nodes_child (t c n : QuadTree) (d : Direction) :
  child d t = Some c -> In n (nodes c) -> In n (nodes t).
Proof.
  intros E I. rewrite nodes_unfold. right. apply in_flat_map. exists c.
  split; [apply In_live_children; exists d; exact E | exact I].
Qed.

Lemma In_nodes_root (t : QuadTree) : In t (nodes t).
Proof. rewrite nodes_unfold. left. reflexivity. Qed.

Lemma all_nodes_In (P : QuadTree -> Prop) (t : QuadTree) :
  all_nodes P t <-> forall n, In n (nodes t) -> P n.
Proof.
  induction t as [t IH] using QuadTree_induction. split.
  - intros A n I. destruct (all_nodes_inv P t A) as [Pt Ch].
    destruct (In_nodes_inv t n I) as [-> | (d & c & E & I')]; [exact Pt |].
    apply (proj1 (IH d c E) (Ch d c E) n I').
  - intros F. constructor.
    + apply F, In_nodes_root.
    + intros d c E. apply (IH d c E). intros n I. apply F.
      apply (In_nodes_child t c n d E I).
Qed.

Lemma bounds_clear (c : QuadTree) : bounds (clear c) = bounds c.
Proof. reflexivity. Qed.

(** X6. In every reachable state, each child covers the quadrant of its
    slot as [splitTree] computes it and has the [maxElements] of its parent;
    a node that has a child has a width and a height of at least 2; and
    every child holds at least one element ([remove] unlinks a child that
    becomes empty). *)
Theorem reachable_children (t : QuadTree) :
  reachable t ->
  forall n, In n (nodes t) ->
  forall d c, child d n = Some c ->
    bounds c = quadrant n d /\ maxElements c = maxElements n /\
    2 <= qwidth n /\ 2 <= qheight n /\
    1 <= size c /\ elements c <> [].
Proof.
  intros R n I d c E.
  pose proof (wf_nodes t n (reachable_wf t R) I) as Wn.
  destruct (wf_inv n Wn) as ((_ & _ & Hm) & _ & _ & _ & Ch).
  destruct (Ch d c E) as (K & W2 & H2 & S1 & Wc & _).
  destruct (create_quadrant n (clear c) d Hm K) as (B & M & _).
  split; [exact B |]. split; [exact M |]. split; [exact W2 |]. split; [exact H2 |].
  split; [exact S1 |].
  intros N. pose proof (wf_size c Wc) as Sz. rewrite N in Sz. cbn in Sz. lia.
Qed.

Lemma reachable_children_witness :
  bounds (leaf_50 0 50 elt_c) = quadrant tree_abc SW /\
  maxElements (leaf_50 0 50 elt_c) = maxElements tree_abc /\
  2 <= qwidth tree_abc /\ 2 <= qheight tree_abc /\
  1 <= size (leaf_50 0 50 elt_c) /\ elements (leaf_50 0 50 elt_c) <> [].
Proof.
  apply (reachable_children tree_abc reachable_abc tree_abc (In_nodes_root tree_abc) SW).
  reflexivity.
Defined.

(** X7. In every reachable state, [size] is at each node the number of
    elements held at the node and below it, which is also the number of
    calls that [each] makes from the node. *)
Theorem size_counts_elements (t : QuadTree) :
  reachable t ->
  forall n, In n (nodes t) ->
    size n = Z.of_nat (length (elements n)) /\
    count_each n = Some (Z.to_nat (size n)).
Proof.
  intros R n I.
  pose proof (wf_size n (wf_nodes t n (reachable_wf t R) I)) as Sz.
  split; [exact Sz |].
  rewrite count_each_elements, Sz, Nat2Z.id. reflexivity.
Qed.

Lemma size_counts_elements_witness :
  size tree_abc = Z.of_nat (length (elements tree_abc)) /\
  count_each tree_abc = Some (Z.to_nat (size tree_abc)).
Proof.
  apply (size_counts_elements tree_abc reachable_abc tree_abc (In_nodes_root tree_abc)).
Defined.

(** ** Where the elements are held *)

Lemma placed_fields (a b : QuadTree) :
  same_geometry a b -> oversized a = oversized b -> contents a = contents b ->
  placed a -> placed b.
Proof.
  intros G Eo Ec [Po Pc]. pose proof G as (_ & _ & Gw & Gh & _).
  unfold placed. rewrite <- Eo, <- Ec, <- Gw, <- Gh. split.
  - eapply Forall_impl; [| exact Po]. intros e. cbn beta.
    now rewrite (fitting_same_geometry e a b G).
  - eapply Forall_impl; [| exact Pc]. intros e. cbn beta.
    now rewrite (fitting_same_geometry e a b G).
Qed.

Lemma all_nodes_pristine (c : QuadTree) : c = clear c -> all_nodes placed c.
Proof.
  intros ->. constructor.
  - split; constructor.
  - intros d c'. destruct d; discriminate.
Qed.

Lemma all_nodes_set_child (d : Direction) (c t : QuadTree) :
  all_nodes placed t -> all_nodes placed c -> all_nodes placed (set_child d (Some c) t).
Proof.
  intros A Ac. destruct (all_nodes_inv placed t A) as [Pt Ch]. constructor.
  - revert Pt. apply placed_fields; [repeat split | reflexivity | reflexivity].
  - intros d' c' E. destruct (Direction_eq_dec d' d) as [-> | Ne].
    + rewrite child_set_child_same in E. injection E as <-. exact Ac.
    + rewrite child_set_child_other in E by exact Ne. apply (Ch d' c' E).
Qed.

Lemma enqueue_placed (d : Direction) (e : ElementRect) (st st' : QuadTree * Candidates)
  (o : Outcome unit) :
  enqueue d e st = (o, st') ->
  all_nodes placed (fst st) ->
  all_nodes placed (fst st') /\ same_geometry (fst st') (fst st) /\
  oversized (fst st') = oversized (fst st) /\ contents (fst st') = contents (fst st).
Proof.
  destruct st as [tree cands]. unfold enqueue, get. cbn [fst].
  destruct (candidate d cands) as [els |].
  - intros [= <- <-] A. cbn [fst]. split; [exact A |]. repeat split.
  - destruct (child d tree) as [c |] eqn:Ec.
    + intros [= <- <-] A. cbn [fst]. split; [exact A |]. repeat split.
    + destruct (create tree d) as [c | m] eqn:Ecr.
      * intros [= <- <-] A. cbn [fst]. split; [| repeat split].
        apply all_nodes_set_child; [exact A |]. apply all_nodes_pristine.
        apply (wf_fresh tree c d Ecr).
      * intros [= <- <-] A. cbn [fst]. split; [exact A |]. repeat split.
Qed.

Lemma flush_placed (cts : list ElementRect) :
  forall (st st' : QuadTree * Candidates) (o : Outcome unit),
    for_of flush_content cts st = (o, st') ->
    all_nodes placed (fst st) ->
    all_nodes placed (fst st') /\ same_geometry (fst st') (fst st) /\
    oversized (fst st') = oversized (fst st) /\ contents (fst st') = contents (fst st).
Proof.
  induction cts as [| c cts IH]; intros st st' o E A.
  - cbn in E. injection E as <- <-. split; [exact A |]. repeat split.
  - cbn [for_of] in E. unfold flush_content in E at 1.
    destruct (fitting c (fst st)) as [| contentDir fits].
    + injection E as <- <-. split; [exact A |]. repeat split.
    + destruct (enqueue contentDir c st) as [[u | m] st1] eqn:E1.
      * destruct (enqueue_placed _ _ _ _ _ E1 A) as (A1 & G1 & O1 & C1).
        destruct (IH st1 st' o E A1) as (A2 & G2 & O2 & C2).
        split; [exact A2 |].
        split; [exact (same_geometry_trans _ _ _ G2 G1) |].
        split; congruence.
      * injection E as <- <-. apply (enqueue_placed _ _ _ _ _ E1 A).
Qed.

Lemma all_nodes_root_fields (a b : QuadTree) :
  all_nodes placed a -> placed b -> (forall d, child d b = child d a) ->
  all_nodes placed b.
Proof.
  intros A Pb Ch. destruct (all_nodes_inv placed a A) as [_ Ca].
  constructor; [exact Pb |]. intros d c E. rewrite Ch in E. apply (Ca d c E).
Qed.

Lemma push_element_placed (e : ElementRect) (st st' : QuadTree * Candidates)
  (o : Outcome unit) :
  push_element e st = (o, st') ->
  all_nodes placed (fst st) -> all_nodes placed (fst st').
Proof.
  destruct st as [tree0 cands]. unfold push_element. cbn [fst].
  set (tree := set_size (size tree0 + 1) tree0).
  intros E A0.
  assert (A : all_nodes placed tree).
  { apply (all_nodes_root_fields tree0); [exact A0 | | reflexivity].
    apply (placed_fields tree0); [repeat split | reflexivity | reflexivity |].
    apply (all_nodes_inv placed tree0 A0). }
  clearbody tree. clear A0.
  destruct (all_nodes_inv placed tree A) as [[Po Pc] _].
  destruct (negb (Nat.eqb (length (fitting e tree)) 1) || (qwidth tree =? 1)
            || (qheight tree =? 1)) eqn:Over.
  - injection E as <- <-. cbn [fst].
    apply (all_nodes_root_fields tree); [exact A | | reflexivity].
    split; cbn [oversized contents set_oversized]; [| exact Pc].
    apply Forall_app. split; [exact Po |]. constructor; [| constructor].
    apply orb_true_iff in Over. destruct Over as [Over | Oh].
    + apply orb_true_iff in Over. destruct Over as [Of | Ow].
      * left. apply negb_true_iff, Nat.eqb_neq in Of. exact Of.
      * right. left. apply Z.eqb_eq in Ow. exact Ow.
    + right. right. apply Z.eqb_eq in Oh. exact Oh.
  - apply orb_false_iff in Over. destruct Over as [Over Oh].
    apply orb_false_iff in Over. destruct Over as [Of Ow].
    apply negb_false_iff, Nat.eqb_eq in Of. apply Z.eqb_neq in Ow, Oh.
    destruct (size tree - Z.of_nat (length (oversized tree)) <=? maxElements tree).
    + injection E as <- <-. cbn [fst].
      apply (all_nodes_root_fields tree); [exact A | | reflexivity].
      split; cbn [oversized contents set_contents]; [exact Po |].
      apply Forall_app. split; [exact Pc |]. constructor; [| constructor]. auto.
    + destruct (fitting e tree) as [| direction fits]; [discriminate |].
      destruct (enqueue direction e (tree, cands)) as [[u | m] st1] eqn:E1.
      * destruct (enqueue_placed _ _ _ _ _ E1 A) as (A1 & G1 & O1 & C1).
        destruct (for_of flush_content (contents tree) st1) as [[u2 | m2] [tree2 cands2]]
          eqn:E2.
        -- destruct (flush_placed _ _ _ _ E2 A1) as (A2 & G2 & O2 & C2).
           injection E as <- <-. cbn [fst] in *.
           apply (all_nodes_root_fields tree2); [exact A2 | | reflexivity].
           split; cbn [oversized contents set_contents]; [| constructor].
           apply (all_nodes_inv placed tree2 A2).
        -- injection E as <- <-. apply (flush_placed _ _ _ _ E2 A1).
      * injection E as <- <-. apply (enqueue_placed _ _ _ _ _ E1 A).
Qed.

Lemma batch_placed (els : list ElementRect) :
  forall (st st' : QuadTree * Candidates) (o : Outcome unit),
    for_of push_element els st = (o, st') ->
    all_nodes placed (fst st) -> all_nodes placed (fst st').
Proof.
  induction els as [| e els IH]; intros st st' o E A.
  - cbn in E. injection E as <- <-. exact A.
  - cbn [for_of] in E.
    destruct (push_element e st) as [[u | m] st1] eqn:E1.
    + apply (IH st1 st' o E). apply (push_element_placed e st st1 _ E1 A).
    + injection E as <- <-. apply (push_element_placed e st _ _ E1 A).
Qed.

Lemma pushNode_placed :
  forall (k : nat) (els : list ElementRect) (t : QuadTree),
    all_nodes placed t -> all_nodes placed (pushNode k els t).
Proof.
  induction k as [| k IH]; intros els t A; cbn [pushNode];
    destruct (for_of push_element els (t, no_candidates)) as [o [t1 cands]] eqn:E;
    pose proof (batch_placed els _ _ _ E A) as A1; cbn [fst snd] in *.
  - exact A1.
  - destruct (all_nodes_inv placed t1 A1) as [P1 Ch]. constructor.
    + revert P1. apply placed_fields; [repeat split | reflexivity | reflexivity].
    + intros d c. rewrite child_set_children.
      destruct (candidate d cands) as [els' |]; [| apply Ch].
      destruct (child d t1) as [c1 |] eqn:E1; [| discriminate].
      intros [= <-]. apply IH. apply (Ch d c1 E1).
Qed.

Lemma splice_Forall (P : ElementRect -> Prop) (i : nat) (l : list ElementRect) :
  Forall P l -> Forall P (splice i l).
Proof.
  revert i. induction l as [| a l IH]; intros i F; [destruct i; exact F |].
  inversion F; subst. destruct i; cbn [splice]; [assumption |].
  constructor; [assumption | apply IH; assumption].
Qed.

Lemma remove_placed (item : ElementRect) :
  forall (t t' : QuadTree) (o : Outcome bool),
    remove item t = (o, t') -> all_nodes placed t -> all_nodes placed t'.
Proof.
  induction t as [t IH] using QuadTree_induction. intros t' o E A.
  destruct (all_nodes_inv placed t A) as [[Po Pc] Ch].
  rewrite remove_unfold in E.
  destruct (validateElement (to_js item)); [| injection E as <- <-; exact A].
  destruct (indexOf item (oversized t)) as [i |].
  { injection E as <- <-.
    apply (all_nodes_root_fields t); [exact A | | reflexivity].
    split; cbn [oversized contents set_oversized set_size]; [| exact Pc].
    apply splice_Forall. exact Po. }
  destruct (indexOf item (contents t)) as [i |].
  { injection E as <- <-.
    apply (all_nodes_root_fields t); [exact A | | reflexivity].
    split; cbn [oversized contents set_contents set_size]; [exact Po |].
    apply splice_Forall. exact Pc. }
  cbn zeta in E.
  destruct (child (calculateDirection item t) t) as [rc |] eqn:Ec;
    [| injection E as <- <-; exact A].
  destruct (remove item rc) as [[[|] | m] rc'] eqn:Er;
    pose proof (IH _ _ Ec _ _ Er (Ch _ _ Ec)) as Ar.
  - injection E as <- <-.
    assert (A1 : all_nodes placed
                   (set_size (size t - 1)
                      (set_child (calculateDirection item t) (Some rc') t))).
    { apply (all_nodes_root_fields (set_child (calculateDirection item t) (Some rc') t));
        [apply all_nodes_set_child; assumption | | reflexivity].
      split; [exact Po | exact Pc]. }
    destruct (size rc' =? 0); [| exact A1].
    destruct (all_nodes_inv placed _ A1) as [P1 Ch1]. constructor.
    + exact P1.
    + intros d c E. destruct (Direction_eq_dec d (calculateDirection item t)) as [-> | Ne].
      * rewrite child_set_child_same in E. discriminate.
      * rewrite child_set_child_other in E by exact Ne. apply (Ch1 d c E).
  - injection E as <- <-. apply all_nodes_set_child; assumption.
  - injection E as <- <-. apply all_nodes_set_child; assumption.
Qed.

Lemma reachable_placed (t : QuadTree) : reachable t -> all_nodes placed t.
Proof.
  induction 1 as [options t E | fuel items o t t' R IH E | item o t t' R IH E | t R IH].
  - apply all_nodes_pristine. apply (new_QuadTree_builds options t E).
  - destruct (pushAll_result fuel items t t' o (wf_shaped t (reachable_wf t R)) E)
      as [(m & _ & -> & _) | (_ & _ & ->)]; [exact IH |].
    apply pushNode_placed. exact IH.
  - apply (remove_placed item t t' o E IH).
  - apply all_nodes_pristine. reflexivity.
Qed.

(** X8. In every reachable state and at every node: an element of
    [oversized] fits no quadrant or several, unless the node has width or
    height 1; an element of [contents] fits one quadrant of a node that can
    split; an element held below the child of a slot fits the quadrant of
    that slot and no other, and [calculateDirection] names that slot. *)
Theorem elements_placed (t : QuadTree) :
  reachable t ->
  forall n, In n (nodes t) ->
    (forall e : ElementRect, In e (oversized n) ->
       length (fitting e n) <> 1%nat \/ qwidth n = 1 \/ qheight n = 1) /\
    (forall e : ElementRect, In e (contents n) ->
       (exists d, fitting e n = [d]) /\ 2 <= qwidth n /\ 2 <= qheight n) /\
    (forall d c (e : ElementRect), child d n = Some c -> In e (elements c) ->
       fitting e n = [d] /\ calculateDirection e n = d).
Proof.
  intros R n I.
  pose proof (proj1 (all_nodes_In placed t) (reachable_placed t R) n I) as [Po Pc].
  pose proof (wf_nodes t n (reachable_wf t R) I) as Wn.
  destruct (wf_inv n Wn) as ((Hw & Hh & _) & _ & _ & _ & Ch).
  rewrite Forall_forall in Po, Pc.
  split; [exact Po |]. split.
  - intros e Ie. destruct (Pc e Ie) as (F & Nw & Nh).
    split; [| lia]. apply (single_fit_direction n e F).
  - intros d c e E Ie. destruct (Ch d c E) as (_ & W2 & H2 & _ & _ & Rt).
    split; [apply (Rt e Ie) |].
    apply fitting_calculateDirection; [exact W2 | exact H2 | apply (Rt e Ie)].
Qed.

Lemma elements_placed_witness :
  (exists d, fitting elt_d tree_cd = [d]) /\
  fitting elt_c tree_cd = [SW] /\ calculateDirection elt_c tree_cd = SW.
Proof.
  destruct (elements_placed tree_cd reachable_cd tree_cd (In_nodes_root tree_cd))
    as (_ & C & B).
  split.
  - apply (C elt_d). cbn. auto.
  - apply (B SW (leaf_50 0 50 elt_c) elt_c); [reflexivity | cbn; auto].
Defined.

(** ** [clear] *)

Lemma children_in_leaf (fits : list Direction) (t : QuadTree) :
  (forall d, child d t = None) -> children_in fits t = [].
Proof.
  intros N. unfold children_in. induction fits as [| d fits IH]; [reflexivity |].
  cbn [flat_map]. rewrite (N d), IH. reflexivity.
Qed.

(** X9. [clear] leaves the tree that the constructor builds for the same
    rectangle and the same [maxElements]: a single node without element,
    on which every query returns nothing. *)
Theorem clear_pristine (t : QuadTree) :
  reachable t ->
  new_QuadTree (options_of t) = Returns (clear t) /\
  nodes (clear t) = [clear t] /\ elements (clear t) = [] /\ size (clear t) = 0 /\
  (forall predicate, find predicate (clear t) = Some []) /\
  (forall item collisionFunction,
     valid_element (to_js item) ->
     colliding item collisionFunction (clear t) = Some (Returns [])).
Proof.
  intros R. destruct (wf_inv t (reachable_wf t R)) as ((Hw & Hh & Hm) & _).
  split; [apply new_QuadTree_ok; assumption |].
  split; [reflexivity |]. split; [reflexivity |]. split; [reflexivity |].
  split; [reflexivity |].
  intros item cf V. unfold colliding.
  rewrite (proj2 (validateElement_valid (to_js item)) V).
  change (node_count (clear t)) with 1%nat. cbn [while_fifo].
  rewrite children_in_leaf by (intros d; destruct d; reflexivity).
  reflexivity.
Qed.

Lemma clear_pristine_witness :
  new_QuadTree (options_of tree_abc) = Returns pristine_100 /\
  find (is_object elt_a) (clear tree_abc) = Some [].
Proof.
  destruct (clear_pristine tree_abc reachable_abc) as (N & _ & _ & _ & F & _).
  split; [exact N | apply F].
Defined.

(** ** [pushAll] and [remove] *)

Lemma as_elements_to_js (els : list ElementRect) : as_elements (map to_js els) = els.
Proof.
  induction els as [| e els IH]; [reflexivity |].
  unfold as_elements in *. cbn [map flat_map]. rewrite as_element_to_js, IH. reflexivity.
Qed.

Lemma depth_of_same_geometry (a b : QuadTree) :
  same_geometry a b -> depth_of a = depth_of b.
Proof. intros (_ & _ & W & _). unfold depth_of. now rewrite W. Qed.

(** [pushAll] on valid elements, from a state that satisfies the invariant. *)
Lemma pushesAll_pushNode (els : list ElementRect) (t : QuadTree) :
  wf t -> Forall (fun e => valid_element (to_js e)) els ->
  pushesAll (map to_js els) t (pushNode (depth_of t) els t).
Proof.
  intros W V. exists (visits (depth_of t) els t). intros fuel L.
  rewrite (pushAll_pushNode fuel (map to_js els) t (wf_shaped t W)).
  - rewrite as_elements_to_js. reflexivity.
  - apply Forall_map. exact V.
  - rewrite as_elements_to_js. exact L.
Qed.

(** X10. From every reachable state, [pushAll] on valid elements returns
    (the loop ends): the tree then holds the elements it held and the
    elements of the batch, each reference once more per occurrence in the
    batch; [size] grows by the length of the batch and the rectangle of the
    root is unchanged. *)
Theorem pushAll_adds_batch (els : list ElementRect) (t : QuadTree) :
  reachable t -> Forall (fun e => valid_element (to_js e)) els ->
  exists t',
    pushesAll (map to_js els) t t' /\
    Permutation (elements t') (elements t ++ els) /\
    size t' = size t + Z.of_nat (length els) /\
    same_geometry t' t /\
    reachable t'.
Proof.
  intros R V. pose proof (reachable_wf t R) as W.
  exists (pushNode (depth_of t) els t).
  pose proof (pushesAll_pushNode els t W V) as P.
  destruct (wf_inv t W) as ((Hw & _) & _).
  destruct (pushNode_wf (depth_of t) els t W (depth_of_enough t Hw)) as (_ & G & S & Pm).
  split; [exact P |]. split; [exact Pm |]. split; [exact S |]. split; [exact G |].
  destruct P as [fuel0 P].
  apply (reachable_pushAll fuel0 (map to_js els) (Returns tt) t _ R).
  apply P. apply Nat.le_refl.
Qed.

Lemma pushAll_adds_batch_witness :
  exists t',
    pushesAll (map to_js [elt_a; elt_b; elt_c]) pristine_100 t' /\
    Permutation (elements t') (elements pristine_100 ++ [elt_a; elt_b; elt_c]) /\
    size t' = 3.
Proof.
  destruct (pushAll_adds_batch [elt_a; elt_b; elt_c] pristine_100) as (t' & P & E & S & _).
  - apply (reachable_new (mkOptions None None (Some 100) (Some 100) (Some 2))).
    reflexivity.
  - repeat (constructor; [cbn; split; intros ? [= <-]; lia |]). constructor.
  - exists t'. split; [exact P |]. split; [exact E | exact S].
Defined.

(** X11. [remove] in a reachable state.  An invalid element throws and the
    tree is unchanged; a valid element that the tree does not hold gives
    [false] and the tree is unchanged; a valid element that the tree holds
    gives [true], and the tree then holds one reference to it less and
    every other reference as before, [size] being one less. *)
Theorem remove_spec (e : ElementRect) (t : QuadTree) :
  reachable t ->
  (forall m, validateElement (to_js e) = Throws m -> remove e t = (Throws m, t)) /\
  (valid_element (to_js e) -> ~ In e (elements t) -> remove e t = (Returns false, t)) /\
  (valid_element (to_js e) -> In e (elements t) ->
   exists t',
     remove e t = (Returns true, t') /\
     Permutation (e :: elements t') (elements t) /\
     size t' = size t - 1 /\ same_geometry t' t /\ reachable t').
Proof.
  intros R. pose proof (reachable_wf t R) as W. split; [| split].
  - intros m V. apply remove_invalid. exact V.
  - intros V N. apply remove_absent; [| exact N].
    apply validateElement_valid. exact V.
  - intros V I. apply validateElement_valid in V.
    destruct (remove_present e V t W I) as (t' & E & _ & G & S & P).
    exists t'. split; [exact E |]. split; [exact P |]. split; [exact S |].
    split; [exact G |]. apply (reachable_remove e (Returns true) t t' R E).
Qed.

Lemma remove_spec_witness :
  remove elt_d tree_abc = (Returns false, tree_abc) /\
  exists t',
    remove elt_a tree_abc = (Returns true, t') /\
    Permutation (elt_a :: elements t') (elements tree_abc).
Proof.
  destruct (remove_spec elt_d tree_abc reachable_abc) as (_ & A & _).
  destruct (remove_spec elt_a tree_abc reachable_abc) as (_ & _ & B).
  split.
  - apply A; [cbn; split; intros ? [= <-]; lia |].
    cbn. intuition discriminate.
  - destruct B as (t' & E & P & _); [cbn; split; intros ? [= <-]; lia | cbn; auto |].
    exists t'. split; assumption.
Defined.

(** * Further properties of the queries *)

(** ** Loops that push a selection of the children *)

Lemma while_fifo_visit_by {A : Type} (step : QuadTree -> A -> A)
  (next : QuadTree -> list QuadTree) :
  (forall top, (total_count (next top) <= total_count (live_children top))%nat) ->
  forall (fuel : nat) (fifo : list QuadTree) (acc : A),
    (total_count fifo <= fuel)%nat ->
    while_fifo (fun top a => (step top a, next top)) fuel fifo acc =
    Some (fold_left (fun a n => step n a) (visit_by next fuel fifo) acc).
Proof.
  intros N. induction fuel as [| fuel IH]; intros [| top rest] acc L; try reflexivity.
  - rewrite total_count_step in L. lia.
  - cbn [while_fifo visit_by fold_left]. apply IH.
    rewrite total_count_step in L. rewrite total_count_app in *.
    specialize (N top). lia.
Qed.

Lemma visit_by_reaches (next : QuadTree -> list QuadTree) (sel : QuadTree -> list QuadTree) :
  (forall t, sel t = t :: flat_map sel (next t)) ->
  (forall top, (total_count (next top) <= total_count (live_children top))%nat) ->
  forall (fuel : nat) (fifo : list QuadTree),
    (total_count fifo <= fuel)%nat ->
    Permutation (visit_by next fuel fifo) (flat_map sel fifo).
Proof.
  intros U N. induction fuel as [| fuel IH]; intros [| top rest] L; try reflexivity.
  - rewrite total_count_step in L. lia.
  - cbn [visit_by flat_map]. rewrite U. cbn [app]. constructor.
    rewrite IH.
    + rewrite flat_map_app. apply Permutation_app_comm.
    + rewrite total_count_step in L. rewrite total_count_app in *.
      specialize (N top). lia.
Qed.

Lemma flat_map_children_in {B : Type} (f : QuadTree -> list B) (fits : list Direction)
  (t : QuadTree) :
  flat_map f (children_in fits t) =
  flat_map (fun d => match child d t with Some c => f c | None => [] end) fits.
Proof.
  unfold children_in. induction fits as [| d fits IH]; [reflexivity |].
  cbn [flat_map]. rewrite flat_map_app, IH.
  destruct (child d t); cbn [flat_map]; rewrite ?app_nil_r; reflexivity.
Qed.

Lemma flat_map_flat_map_list {A B C : Type} (f : A -> list B) (g : B -> list C)
  (l : list A) :
  flat_map g (flat_map f l) = flat_map (fun a => flat_map g (f a)) l.
Proof.
  induction l as [| a l IH]; [reflexivity |].
  cbn [flat_map]. rewrite flat_map_app, IH. reflexivity.
Qed.

Lemma fold_left_flat_map {A B C : Type} (f : A -> B -> A) (g : C -> list B) (l : list C)
  (a : A) :
  fold_left f (flat_map g l) a = fold_left (fun a n => fold_left f (g n) a) l a.
Proof.
  revert a. induction l as [| c l IH]; intros a; [reflexivity |].
  cbn [flat_map fold_left]. rewrite fold_left_app. apply IH.
Qed.

Lemma filter_none {A : Type} (p : A -> bool) (l : list A) :
  (forall a, In a l -> p a = false) -> filter p l = [].
Proof.
  induction l as [| a l IH]; intros N; [reflexivity |].
  cbn [filter]. rewrite (N a) by (left; reflexivity).
  apply IH. intros b I. apply N. right. exact I.
Qed.

Lemma flat_map_filter_mask {A B : Type} (m : A -> bool) (f : A -> list B) (l : list A) :
  flat_map f (filter m l) = flat_map (fun a => if m a then f a else []) l.
Proof.
  induction l as [| a l IH]; [reflexivity |].
  cbn [filter flat_map]. destruct (m a); cbn [flat_map app]; rewrite IH; reflexivity.
Qed.

Lemma filter_elements (p : ElementRect -> bool) (t : QuadTree) :
  filter p (elements t) =
  filter p (local t)
  ++ filter p (child_elements NW t) ++ filter p (child_elements NE t)
  ++ filter p (child_elements SW t) ++ filter p (child_elements SE t).
Proof.
  rewrite elements_children. unfold local. rewrite !filter_app, <- !app_assoc.
  reflexivity.
Qed.

Lemma In_child_elements (t : QuadTree) (d : Direction) (e : ElementRect) :
  In e (child_elements d t) <-> exists c, child d t = Some c /\ In e (elements c).
Proof.
  unfold child_elements. destruct (child d t) as [c |].
  - split; [intros I; exists c; auto | intros (c' & [= <-] & I); exact I].
  - split; [intros [] | intros (c' & E & _); discriminate].
Qed.

(** ** [find], [each] and [visit] *)

(** X12. [find] returns, for every tree, the elements that satisfy the
    predicate and no other, each as often as the tree holds it, the elements
    of a node before those of the nodes dequeued after it; with a predicate
    that is not a function it returns nothing. *)
Theorem find_exact (predicate : JsPredicate) (t : QuadTree) :
  exists found,
    find predicate t = Some found /\
    found = filter (call_predicate predicate) (traversal_order t) /\
    Permutation found (filter (call_predicate predicate) (elements t)) /\
    (forall e, In e found <-> In e (elements t) /\ call_predicate predicate e = true) /\
    ((forall p, predicate <> PredicateFunction p) -> found = []).
Proof.
  exists (filter (call_predicate predicate) (traversal_order t)).
  pose proof (Permutation_filter_list (call_predicate predicate) _ _
                (traversal_order_elements t)) as P.
  split; [apply find_returns |]. split; [reflexivity |]. split; [exact P |]. split.
  - intros e. rewrite <- filter_In. split; intros I.
    + apply (Permutation_in _ P I).
    + apply (Permutation_in _ (Permutation_sym P) I).
  - intros N. apply filter_none. intros e _.
    destruct predicate as [| p |]; [reflexivity | | reflexivity].
    contradiction (N p). reflexivity.
Qed.

Lemma fold_left_const {A B : Type} (l : list B) (a : A) : fold_left (fun a _ => a) l a = a.
Proof. induction l as [| b l IH]; [reflexivity | exact IH]. Qed.

(** X13. [each] calls the action once for each reference that the tree
    holds, the calls being the fold of the action over a permutation of the
    elements; with an action that is not a function it does nothing. *)
Theorem each_visits_all {S : Type} (f : ElementRect -> S -> S) (t : QuadTree) (s : S) :
  Permutation (traversal_order t) (elements t) /\
  each (Some f) t s = Some (fold_left (fun s i => f i s) (traversal_order t) s) /\
  each None t s = Some s.
Proof.
  split; [apply traversal_order_elements |]. split; [apply each_returns |].
  unfold each.
  rewrite (while_fifo_visit_order (fun (_ : QuadTree) (s : S) => s))
    by (rewrite total_count_singleton; lia).
  rewrite fold_left_const. reflexivity.
Qed.

Lemma visit_order_head (t : QuadTree) :
  exists rest, visit_order (node_count t) [t] = t :: rest.
Proof. rewrite node_count_unfold. cbn [visit_order]. eexists. reflexivity. Qed.

(** X14. [visit] calls the action once for every node of the tree, the
    root first, and for nothing else; an action without [bind] makes it
    throw before any call. *)
Theorem visit_every_node {S : Type} (f : QuadTree -> S -> S) (t : QuadTree) (s : S) :
  visit (Some f) t s
  = Some (Returns tt, fold_left (fun s n => f n s) (visit_order (node_count t) [t]) s) /\
  Permutation (visit_order (node_count t) [t]) (nodes t) /\
  (exists rest, visit_order (node_count t) [t] = t :: rest) /\
  visit None t s = Some (Throws TypeError, s).
Proof.
  split; [| split; [apply visit_order_root | split; [apply visit_order_head | reflexivity]]].
  unfold visit.
  rewrite (while_fifo_visit_order f) by (rewrite total_count_singleton; lia).
  reflexivity.
Qed.

(** ** [colliding] and [onCollision] *)

Lemma selected_unfold (item : Rect) (t : QuadTree) :
  selected item t = t :: flat_map (selected item) (children_in (colliding_fits item t) t).
Proof. rewrite flat_map_children_in. now destruct t. Qed.

Lemma selected_nodes (item : Rect) (t n : QuadTree) :
  In n (selected item t) -> In n (nodes t).
Proof.
  induction t as [t IH] using QuadTree_induction.
  rewrite selected_unfold, flat_map_children_in. intros [<- | I].
  - apply In_nodes_root.
  - apply in_flat_map in I. destruct I as (d & _ & I).
    destruct (child d t) as [c |] eqn:E; [| contradiction].
    apply (In_nodes_child t c n d E). apply (IH d c E I).
Qed.

(** The elements that [colliding] collects at a node. *)
Lemma collected_local (p : ElementRect -> bool) (n : QuadTree) :
  filter p (oversized n) ++ filter p (contents n) = filter p (local n).
Proof. unfold local. now rewrite filter_app. Qed.

(** What [colliding] returns, on the nodes that its loop dequeues. *)
Lemma colliding_visit_by (item : ElementRect) (collisionFunction : Rect -> Rect -> bool)
  (t : QuadTree) :
  valid_element (to_js item) ->
  colliding item collisionFunction t =
  Some (Returns (flat_map (fun n => filter (collides collisionFunction item) (local n))
                          (visit_by (fun top => children_in (colliding_fits item top) top)
                                    (node_count t) [t]))) /\
  Permutation (visit_by (fun top => children_in (colliding_fits item top) top)
                        (node_count t) [t])
              (selected item t).
Proof.
  intros V. split.
  - unfold colliding. rewrite (proj2 (validateElement_valid (to_js item)) V).
    rewrite (while_fifo_visit_by
               (fun top items =>
                  items ++ filter (collides collisionFunction item) (oversized top)
                        ++ filter (collides collisionFunction item) (contents top))
               (fun top => children_in (colliding_fits item top) top)).
    + cbn [option_map]. rewrite fold_left_collect. cbn [app]. do 2 f_equal.
      apply flat_map_ext. intros n. apply collected_local.
    + intros top. apply children_in_colliding_fits.
    + rewrite total_count_singleton. lia.
  - rewrite (visit_by_reaches _ (selected item)).
    + cbn [flat_map]. rewrite app_nil_r. reflexivity.
    + intros n. apply selected_unfold.
    + intros top. apply children_in_colliding_fits.
    + rewrite total_count_singleton. lia.
Qed.

(** X15. Every element that [colliding] returns is held by the tree, is
    not the item itself, and satisfies the collision function with the
    item. *)
Theorem colliding_sound (item : ElementRect) (collisionFunction : Rect -> Rect -> bool)
  (t : QuadTree) (items : list ElementRect) :
  colliding item collisionFunction t = Some (Returns items) ->
  forall e, In e items ->
    In e (elements t) /\ e <> item /\ collisionFunction item e = true.
Proof.
  intros E e I.
  destruct (valid_element_dec (to_js item)) as [V | N].
  - destruct (colliding_visit_by item collisionFunction t V) as [E' P].
    rewrite E' in E. injection E as <-.
    apply in_flat_map in I. destruct I as (n & In' & Ie).
    apply filter_In in Ie. destruct Ie as [Il C].
    unfold collides in C. apply andb_true_iff in C. destruct C as [Ne Cf].
    split; [| split; [| exact Cf]].
    + rewrite elements_nodes. apply in_flat_map. exists n. split; [| exact Il].
      apply (selected_nodes item). apply (Permutation_in _ P In').
    + apply negb_true_iff, same_object_neq in Ne. exact Ne.
  - destruct (validateElement_invalid _ N) as [m Em].
    unfold colliding in E. rewrite Em in E. discriminate.
Qed.

Lemma colliding_sound_witness :
  In rect1 (elements tree_rect1) /\ rect1 <> query 55 55 /\
  boundingBoxCollision (query 55 55) rect1 = true.
Proof.
  apply (colliding_sound (query 55 55) boundingBoxCollision tree_rect1 [rect1]).
  - reflexivity.
  - left. reflexivity.
Defined.

Lemma fits_one_within (e : Rect) (t : QuadTree) (d : Direction) :
  2 <= qwidth t -> 2 <= qheight t ->
  within e (bounds t) -> fitting e t = [d] -> within e (quadrant t d).
Proof.
  intros W H. rewrite fitting_filter. cbn [filter directions].
  half_facts t.
  pose proof (floor_ceil_half (qwidth t)). pose proof (floor_ceil_half (qheight t)).
  unfold within.
  destruct (boundingBoxCollision e (quadrant t NW)) eqn:A,
           (boundingBoxCollision e (quadrant t NE)) eqn:B,
           (boundingBoxCollision e (quadrant t SW)) eqn:C,
           (boundingBoxCollision e (quadrant t SE)) eqn:D;
    intros I E; try discriminate; injection E as <-;
    collision_facts; open_quadrants; rect_simpl; lia.
Qed.

Lemma collision_within (item e r : Rect) :
  within e r -> boundingBoxCollision item e = true -> boundingBoxCollision item r = true.
Proof.
  unfold within. intros I C. apply boundingBoxCollision_true.
  apply boundingBoxCollision_true in C. unfold half_open_overlap in *. lia.
Qed.

(** An element held below a child lies in the rectangle of the child when it
    lies in the rectangle of the node. *)
Lemma child_within (t c : QuadTree) (d : Direction) (e : ElementRect) :
  wf t -> child d t = Some c -> In e (elements c) ->
  within e (bounds t) -> within e (bounds c).
Proof.
  intros W E I In'. destruct (wf_inv t W) as ((_ & _ & Hm) & _ & _ & _ & Ch).
  destruct (Ch d c E) as (K & W2 & H2 & _ & _ & Rt).
  destruct (create_quadrant t (clear c) d Hm K) as (B & _).
  rewrite bounds_clear in B. rewrite B.
  apply fits_one_within; auto.
Qed.

(** The children that [colliding] skips hold nothing that collides. *)
Lemma skipped_child (item : Rect) (t c : QuadTree) (d : Direction) (e : ElementRect) :
  wf t -> child d t = Some c -> In e (elements c) -> within e (bounds t) ->
  boundingBoxCollision item e = true -> In d (colliding_fits item t).
Proof.
  intros W E I In' C. destruct (wf_inv t W) as ((_ & _ & Hm) & _ & _ & _ & Ch).
  destruct (Ch d c E) as (K & W2 & H2 & _ & _ & Rt).
  assert (F : In d (fitting item t)).
  { apply In_fitting. apply (collision_within item e); [| exact C].
    apply fits_one_within; auto. }
  rewrite colliding_fits_fitting; [exact F |].
  intros N. rewrite N in F. contradiction.
Qed.

Lemma selected_elements (item : ElementRect) (collisionFunction : Rect -> Rect -> bool) :
  forall t : QuadTree,
    wf t ->
    (forall e : ElementRect, In e (elements t) -> within e (bounds t)) ->
    (forall e : ElementRect, In e (elements t) -> collisionFunction item e = true ->
                             boundingBoxCollision item e = true) ->
    flat_map (fun n => filter (collides collisionFunction item) (local n))
             (selected item t)
    = filter (collides collisionFunction item) (elements t).
Proof.
  induction t as [t IH] using QuadTree_induction. intros W In' Cf.
  destruct (wf_inv t W) as (_ & _ & _ & _ & Ch).
  rewrite selected_unfold. cbn [flat_map]. rewrite filter_elements. f_equal.
  rewrite flat_map_flat_map_list, flat_map_children_in.
  destruct (colliding_fits_mask item t) as [m Em].
  rewrite Em, flat_map_filter_mask.
  assert (Slot : forall d,
             (if m d
              then match child d t with
                   | Some c => flat_map (fun n => filter (collides collisionFunction item)
                                                         (local n)) (selected item c)
                   | None => []
                   end
              else [])
             = filter (collides collisionFunction item) (child_elements d t)).
  { intros d. unfold child_elements. destruct (child d t) as [c |] eqn:E.
    - assert (Inc : forall e : ElementRect, In e (elements c) -> within e (bounds c)).
      { intros e I. apply (child_within t c d e W E I).
        apply In'. apply (In_elements_child t c d e E I). }
      destruct (m d) eqn:Md.
      + apply (IH d c E); [apply (Ch d c E) | exact Inc |].
        intros e I. apply Cf. apply (In_elements_child t c d e E I).
      + symmetry. apply filter_none. intros e I. unfold collides.
        destruct (collisionFunction item e) eqn:C; [| apply andb_false_r].
        exfalso.
        assert (F : In d (colliding_fits item t)).
        { apply (skipped_child item t c d e W E I).
          - apply In'. apply (In_elements_child t c d e E I).
          - apply Cf; [apply (In_elements_child t c d e E I) | exact C]. }
        rewrite Em in F. apply filter_In in F. destruct F as [_ F]. congruence.
    - destruct (m d); reflexivity. }
  unfold directions. cbn [flat_map]. rewrite !Slot, app_nil_r. reflexivity.
Qed.

(** X16. In a reachable state whose elements all lie in the rectangle of
    the root, [colliding] with a collision function that only accepts
    elements that [boundingBoxCollision] accepts (the default function
    itself, for one) returns every element of the tree other than the item
    that the function accepts, each as often as the tree holds it: the
    children that the descent skips hold no such element. *)
Theorem colliding_complete (item : ElementRect) (collisionFunction : Rect -> Rect -> bool)
  (t : QuadTree) :
  reachable t -> valid_element (to_js item) ->
  (forall e : ElementRect, In e (elements t) -> within e (bounds t)) ->
  (forall e : ElementRect, In e (elements t) -> collisionFunction item e = true ->
                           boundingBoxCollision item e = true) ->
  exists items,
    colliding item collisionFunction t = Some (Returns items) /\
    Permutation items (filter (collides collisionFunction item) (elements t)) /\
    (forall e, In e items <->
               In e (elements t) /\ e <> item /\ collisionFunction item e = true).
Proof.
  intros R V In' Cf.
  destruct (colliding_visit_by item collisionFunction t V) as [E P].
  eexists. split; [exact E |].
  assert (Pm : Permutation
                 (flat_map (fun n => filter (collides collisionFunction item) (local n))
                    (visit_by (fun top => children_in (colliding_fits item top) top)
                              (node_count t) [t]))
                 (filter (collides collisionFunction item) (elements t))).
  { rewrite <- (selected_elements item collisionFunction t (reachable_wf t R) In' Cf).
    apply Permutation_flat_map_list. exact P. }
  split; [exact Pm |].
  intros e. split.
  - intros I. apply (Permutation_in _ Pm) in I. apply filter_In in I.
    destruct I as [I C]. unfold collides in C. apply andb_true_iff in C.
    destruct C as [Ne C]. apply negb_true_iff, same_object_neq in Ne. auto.
  - intros (I & Ne & C). apply (Permutation_in _ (Permutation_sym Pm)).
    apply filter_In. split; [exact I |]. unfold collides.
    apply andb_true_iff. split; [| exact C].
    apply negb_true_iff, same_object_neq. exact Ne.
Qed.

Lemma colliding_complete_witness :
  exists items,
    colliding (mkElement 9 (mkRect 8 8 (Some 10) (Some 60))) boundingBoxCollision tree_abc
    = Some (Returns items) /\
    Permutation items
      (filter (collides boundingBoxCollision (mkElement 9 (mkRect 8 8 (Some 10) (Some 60))))
              (elements tree_abc)).
Proof.
  destruct (colliding_complete (mkElement 9 (mkRect 8 8 (Some 10) (Some 60)))
              boundingBoxCollision tree_abc reachable_abc) as (items & E & P & _).
  - cbn. split; intros ? [= <-]; lia.
  - intros e I. cbn in I. unfold within.
    destruct I as [<- | [<- | [<- | []]]]; cbn; lia.
  - intros e _ C. exact C.
  - exists items. split; assumption.
Defined.

(** X17. [onCollision] calls the callback on the elements that [colliding]
    returns for the same item and the same collision function, in the same
    order, and throws when [colliding] throws. *)
Theorem onCollision_colliding {S : Type} (item : ElementRect)
  (callback : ElementRect -> S -> S) (collisionFunction : Rect -> Rect -> bool)
  (t : QuadTree) (s : S) :
  (exists m, colliding item collisionFunction t = Some (Throws m) /\
             onCollision item callback collisionFunction t s = Some (Throws m, s)) \/
  (exists items,
     colliding item collisionFunction t = Some (Returns items) /\
     onCollision item callback collisionFunction t s
     = Some (Returns tt, fold_left (fun s elt => callback elt s) items s)).
Proof.
  destruct (valid_element_dec (to_js item)) as [V | N].
  - right. destruct (colliding_visit_by item collisionFunction t V) as [E _].
    eexists. split; [exact E |].
    unfold onCollision. rewrite (proj2 (validateElement_valid (to_js item)) V).
    rewrite (while_fifo_visit_by
               (fun top s =>
                  fold_left (fun s elt => callback elt s)
                            (filter (collides collisionFunction item)
                                    (oversized top ++ contents top)) s)
               (fun top => children_in (colliding_fits item top) top)).
    + cbn [option_map]. rewrite fold_left_flat_map. reflexivity.
    + intros top. apply children_in_colliding_fits.
    + rewrite total_count_singleton. lia.
  - left. destruct (validateElement_invalid _ N) as [m Em]. exists m.
    unfold colliding, onCollision. rewrite Em. split; reflexivity.
Qed.

(** * [where] *)

Lemma singleton_mask (d : Direction) : [d] = filter (Direction_eqb d) directions.
Proof. destruct d; reflexivity. Qed.

Lemma children_in_singleton (d : Direction) (top : QuadTree) :
  (total_count (children_in [d] top) <= total_count (live_children top))%nat.
Proof. rewrite singleton_mask. apply children_in_filter. Qed.

Lemma node_count_child (t c : QuadTree) (d : Direction) :
  child d t = Some c -> (node_count c < node_count t)%nat.
Proof.
  intros E. pose proof (children_in_singleton d t) as L.
  unfold children_in in L. cbn [flat_map] in L. rewrite E in L. cbn [app] in L.
  rewrite total_count_singleton in L.
  rewrite (node_count_unfold t). unfold total_count in L. lia.
Qed.

Lemma path_nodes_unfold (q : Rect) (t : QuadTree) :
  path_nodes q t = t :: match child (calculateDirection q t) t with
                        | Some c => path_nodes q c
                        | None => []
                        end.
Proof. now destruct t. Qed.

(** The loop of [where] dequeues the nodes of one path. *)
Lemma visit_by_path (q : Rect) :
  forall (fuel : nat) (t : QuadTree),
    (node_count t <= fuel)%nat ->
    visit_by (fun top => children_in [calculateDirection q top] top) fuel [t]
    = path_nodes q t.
Proof.
  induction fuel as [| fuel IH]; intros t L.
  - rewrite node_count_unfold in L. lia.
  - cbn [visit_by app]. rewrite path_nodes_unfold. f_equal.
    unfold children_in. cbn [flat_map].
    destruct (child (calculateDirection q t) t) as [c |] eqn:E; cbn [app].
    + apply IH. pose proof (node_count_child t c _ E). lia.
    + destruct fuel; reflexivity.
Qed.

Lemma matches_coordinates (q : ElementRect) (extras : ElementRect -> bool)
  (e : ElementRect) :
  matches (to_js q) extras e = true ->
  x e = x q /\ y e = y q /\ key_matches (width q) (width e) = true /\
  key_matches (height q) (height e) = true /\ extras e = true.
Proof.
  unfold matches, to_js, key_matches at 1 2. cbn [option_Z_eqb].
  rewrite !andb_true_iff, !Z.eqb_eq. intuition auto.
Qed.

Lemma calculateDirection_coordinates (a b : Rect) (t : QuadTree) :
  x a = x b -> y a = y b -> calculateDirection a t = calculateDirection b t.
Proof. intros X Y. unfold calculateDirection. now rewrite X, Y. Qed.

(** The children off the path of a query hold nothing that matches it. *)
Lemma off_path (q : ElementRect) (extras : ElementRect -> bool) (t : QuadTree)
  (d : Direction) :
  wf t -> d <> calculateDirection q t ->
  filter (matches (to_js q) extras) (child_elements d t) = [].
Proof.
  intros W Ne. destruct (wf_inv t W) as (_ & _ & _ & _ & Ch).
  apply filter_none. intros e I.
  apply In_child_elements in I. destruct I as (c & E & I).
  destruct (Ch d c E) as (_ & W2 & H2 & _ & _ & Rt).
  destruct (matches (to_js q) extras e) eqn:M; [exfalso | reflexivity].
  destruct (matches_coordinates q extras e M) as (X & Y & _).
  apply Ne. rewrite <- (calculateDirection_coordinates e q t X Y).
  symmetry. apply fitting_calculateDirection; [exact W2 | exact H2 | apply (Rt e I)].
Qed.

Lemma path_elements (q : ElementRect) (extras : ElementRect -> bool) :
  forall t : QuadTree,
    wf t ->
    flat_map (fun n => filter (matches (to_js q) extras) (local n)) (path_nodes q t)
    = filter (matches (to_js q) extras) (elements t).
Proof.
  induction t as [t IH] using QuadTree_induction. intros W.
  destruct (wf_inv t W) as (_ & _ & _ & _ & Ch).
  rewrite path_nodes_unfold. cbn [flat_map]. rewrite filter_elements. f_equal.
  assert (On : flat_map (fun n => filter (matches (to_js q) extras) (local n))
                 match child (calculateDirection q t) t with
                 | Some c => path_nodes q c
                 | None => []
                 end
               = filter (matches (to_js q) extras)
                        (child_elements (calculateDirection q t) t)).
  { unfold child_elements.
    destruct (child (calculateDirection q t) t) as [c |] eqn:E; [| reflexivity].
    apply (IH _ c E). apply (Ch _ c E). }
  rewrite On. clear On.
  destruct (calculateDirection q t) eqn:D;
    repeat match goal with
    | |- context [filter _ (child_elements ?d t)] =>
        rewrite (off_path q extras t d W) by (rewrite D; discriminate)
    end;
    rewrite ?app_nil_r; reflexivity.
Qed.

(** X18. A query that lacks [x] or [y] is answered by [find]: [where]
    returns, for every tree, the elements all of whose queried properties
    are equal to those of the query, each as often as the tree holds it. *)
Theorem where_naive (r : nat) (kx ky kwidth kheight : option Z)
  (extras : ElementRect -> bool) (t : QuadTree) :
  kx = None \/ ky = None ->
  exists items,
    where_ (JsObject r kx ky kwidth kheight) extras t = Some (Returns items) /\
    find (PredicateFunction (matches (JsObject r kx ky kwidth kheight) extras)) t
    = Some items /\
    Permutation items
      (filter (matches (JsObject r kx ky kwidth kheight) extras) (elements t)).
Proof.
  intros N.
  destruct (find_elements
              (PredicateFunction (matches (JsObject r kx ky kwidth kheight) extras)) t)
    as (found & E & P).
  exists found. split; [| split; [exact E | exact P]].
  unfold where_.
  assert (Nl : is_null kx || is_null ky = true)
    by (destruct N as [-> | ->]; [reflexivity | apply orb_true_r]).
  rewrite Nl, E. reflexivity.
Qed.

Lemma where_naive_witness :
  exists items,
    where_ (JsObject 0 None None (Some 5) None) (fun _ => true) tree_abc
    = Some (Returns items) /\
    find (PredicateFunction (matches (JsObject 0 None None (Some 5) None) (fun _ => true)))
         tree_abc = Some items /\
    Permutation items
      (filter (matches (JsObject 0 None None (Some 5) None) (fun _ => true))
              (elements tree_abc)).
Proof.
  apply (where_naive 0 None None (Some 5) None (fun _ => true) tree_abc).
  left. reflexivity.
Defined.

(** X19. In a reachable state, a valid query that has [x] and [y] is
    answered by the descent along [calculateDirection]: [where], and its
    alias [get], return exactly the elements of the tree all of whose
    queried properties are equal to those of the query; the descent misses
    no element, such an element having the coordinates of the query. *)
Theorem where_exact (q : ElementRect) (extras : ElementRect -> bool) (t : QuadTree) :
  reachable t -> valid_element (to_js q) ->
  where_ (to_js q) extras t
  = Some (Returns (filter (matches (to_js q) extras) (elements t))) /\
  QuadTree_get (to_js q) extras t
  = Some (Returns (filter (matches (to_js q) extras) (elements t))) /\
  (forall e, In e (filter (matches (to_js q) extras) (elements t)) <->
             In e (elements t) /\ x e = x q /\ y e = y q /\
             key_matches (width q) (width e) = true /\
             key_matches (height q) (height e) = true /\ extras e = true).
Proof.
  intros R V.
  assert (E : where_ (to_js q) extras t
              = Some (Returns (filter (matches (to_js q) extras) (elements t)))).
  { unfold where_. change (to_js q)
      with (JsObject (ref q) (Some (x q)) (Some (y q)) (width q) (height q)) at 1.
    cbn [is_null orb].
    rewrite (proj2 (validateElement_valid (to_js q)) V), as_element_to_js.
    rewrite (while_fifo_visit_by
               (fun top items =>
                  items ++ filter (matches (to_js q) extras) (oversized top)
                        ++ filter (matches (to_js q) extras) (contents top))
               (fun top => children_in [calculateDirection q top] top)).
    - cbn [option_map]. rewrite fold_left_collect. cbn [app]. do 2 f_equal.
      rewrite visit_by_path by lia.
      rewrite <- (path_elements q extras t (reachable_wf t R)).
      apply flat_map_ext. intros n. apply collected_local.
    - intros top. apply children_in_singleton.
    - rewrite total_count_singleton. lia. }
  split; [exact E |]. split; [exact E |].
  intros e. rewrite filter_In. split.
  - intros [I M]. split; [exact I |]. apply (matches_coordinates q extras e M).
  - intros (I & X & Y & Kw & Kh & Ex). split; [exact I |].
    unfold matches, to_js, key_matches at 1 2. cbn [option_Z_eqb].
    rewrite Kw, Kh, Ex, X, Y, !Z.eqb_refl. reflexivity.
Qed.

Lemma where_exact_witness :
  where_ (to_js elt_c) (fun _ => true) tree_cd
  = Some (Returns (filter (matches (to_js elt_c) (fun _ => true)) (elements tree_cd))).
Proof.
  destruct (where_exact elt_c (fun _ => true) tree_cd reachable_cd) as (E & _).
  - cbn. split; intros ? [= <-]; lia.
  - exact E.
Defined.

(** * Further properties of [filter] and [reject] *)

Lemma child_clone_node (predicate : JsPredicate) (t : QuadTree) (d : Direction) :
  child d (clone_node predicate t) = clone_slot predicate t d.
Proof. destruct d; reflexivity. Qed.

Lemma clone_node_geometry (predicate : JsPredicate) (t : QuadTree) :
  same_geometry (clone_node predicate t) t.
Proof. repeat split. Qed.

Lemma filter_length (p : ElementRect -> bool) (l : list ElementRect) :
  (length (filter p l) <= length l)%nat.
Proof.
  induction l as [| a l IH]; [apply Nat.le_refl |].
  cbn [filter]. destruct (p a); cbn [length]; lia.
Qed.

Lemma filter_all (p : ElementRect -> bool) (l : list ElementRect) :
  (forall e, In e l -> p e = true) -> filter p l = l.
Proof.
  induction l as [| a l IH]; intros A; [reflexivity |].
  cbn [filter]. rewrite (A a) by (left; reflexivity). f_equal.
  apply IH. intros e I. apply A. right. exact I.
Qed.

(** The clone of a tree that satisfies the invariant satisfies it. *)
Lemma deepclone_wf (predicate : JsPredicate) :
  forall t : QuadTree,
    wf t ->
    exists r,
      deepclone predicate t = Returns r /\ clone_ok predicate t r /\
      (forall c, r = Some c -> wf c /\ same_geometry c t /\ c = clone_node predicate t).
Proof.
  induction t as [t IH] using QuadTree_induction. intros W.
  destruct (wf_inv t W) as ((Hw & Hh & Hm) & F & Sz & Cap & Ch).
  assert (IH' : forall d c, child d t = Some c ->
            exists r, deepclone predicate c = Returns r /\ clone_ok predicate c r /\
                      (forall c', r = Some c' ->
                         wf c' /\ same_geometry c' c /\ c' = clone_node predicate c))
    by (intros d c E; apply (IH d c E), (Ch d c E)).
  destruct (deepclone_ok predicate t (wf_constructed t W)) as (r & E & Ok).
  exists r. split; [exact E |]. split; [exact Ok |]. intros c ->.
  rewrite deepclone_node in E; auto;
    [| intros d c' E'; destruct (IH' d c' E') as (r' & Er & _); eauto].
  destruct (size (clone_node predicate t) =? 0); [discriminate |].
  injection E as <-.
  split; [| split; [apply clone_node_geometry | reflexivity]].
  pose proof (clone_node_geometry predicate t) as G.
  assert (Slot : forall d c', clone_slot predicate t d = Some c' ->
            exists c0, child d t = Some c0 /\ clone_ok predicate c0 (Some c') /\
                       wf c' /\ same_geometry c' c0).
  { intros d c'. unfold clone_slot. destruct (child d t) as [c0 |] eqn:E0; [| discriminate].
    destruct (IH' d c0 E0) as (r0 & -> & Ok0 & W0). intros ->.
    exists c0. destruct (W0 c' eq_refl) as (A & B & _). auto. }
  assert (Bound : forall d, 0 <= size_of_clone (clone_slot predicate t d) <= child_size d t).
  { intros d. unfold child_size, size_of_clone.
    destruct (clone_slot predicate t d) as [c' |] eqn:Es.
    - destruct (Slot d c' Es) as (c0 & E0 & (El & Sc & _) & _ & _). rewrite E0.
      cbn [size_of_clone elements_of_clone] in *.
      destruct (Ch d c0 E0) as (_ & _ & _ & _ & W0 & _).
      rewrite Sc, El, (wf_size c0 W0).
      pose proof (filter_length (keeps predicate) (elements c0)). lia.
    - pose proof (child_size_nonneg t d W) as N. unfold child_size in N. lia. }
  constructor.
  - exact Hw.
  - exact Hh.
  - exact Hm.
  - change (contents (clone_node predicate t)) with (filter (keeps predicate) (contents t)).
    rewrite Forall_forall in *. intros e I. apply filter_In in I. destruct I as [I _].
    unfold single_fit. rewrite (fitting_same_geometry e _ t G). apply (F e I).
  - unfold child_size. rewrite !child_clone_node. cbn [size oversized contents clone_node].
    unfold size_of_clone. lia.
  - change (contents (clone_node predicate t)) with (filter (keeps predicate) (contents t)).
    intros Ne.
    assert (Nc : contents t <> []) by (intros N; rewrite N in Ne; now apply Ne).
    specialize (Cap Nc).
    pose proof (Bound NW). pose proof (Bound NE). pose proof (Bound SW).
    pose proof (Bound SE).
    pose proof (filter_length (keeps predicate) (contents t)).
    cbn [size oversized maxElements clone_node]. lia.
  - intros d c'. rewrite child_clone_node. intros Es.
    destruct (Slot d c' Es) as (c0 & E0 & _ & _ & G0).
    rewrite (create_same_geometry _ t d G), (clear_same_geometry c' c0 G0).
    apply (Ch d c0 E0).
  - intros d c'. rewrite child_clone_node. intros Es.
    destruct (Slot d c' Es) as (c0 & E0 & _). apply (Ch d c0 E0).
  - intros d c'. rewrite child_clone_node. intros Es.
    destruct (Slot d c' Es) as (c0 & E0 & _). apply (Ch d c0 E0).
  - intros d c'. rewrite child_clone_node. intros Es.
    destruct (Slot d c' Es) as (c0 & E0 & (El & Sc & _ & Nz) & _).
    cbn [size_of_clone elements_of_clone] in *. lia.
  - intros d c' e. rewrite child_clone_node. intros Es I.
    destruct (Slot d c' Es) as (c0 & E0 & (El & _) & _).
    cbn [elements_of_clone] in El. rewrite El in I. apply filter_In in I.
    rewrite (fitting_same_geometry e _ t G). apply (Ch d c0 E0). apply I.
  - intros d c'. rewrite child_clone_node. intros Es.
    destruct (Slot d c' Es) as (c0 & E0 & _ & W0 & _). exact W0.
Qed.

(** X20. The tree that [filter] returns for a reachable state satisfies
    the invariant of the reachable states (sizes, capacity, geometry of the
    children, placement of the elements), has the rectangle of the original
    and holds the elements of the original that pass the predicate, in the
    order of the original. *)
Theorem filter_tree_wf (predicate : JsPredicate) (t clone : QuadTree) :
  reachable t -> filter_tree predicate t = Returns (Some clone) ->
  wf clone /\ same_geometry clone t /\
  elements clone = filter (keeps predicate) (elements t) /\
  size clone = Z.of_nat (length (elements clone)) /\
  (forall n, In n (nodes clone) -> Z.of_nat (length (contents n)) <= maxElements n).
Proof.
  intros R E. unfold filter_tree in E.
  destruct (deepclone_wf predicate t (reachable_wf t R)) as (r & E' & (El & Sz & _) & K).
  rewrite E' in E. injection E as ->.
  destruct (K clone eq_refl) as (W & G & _).
  split; [exact W |]. split; [exact G |]. split; [exact El |]. split; [exact Sz |].
  intros n I. apply wf_contents. apply (wf_nodes clone n W I).
Qed.

Lemma filter_tree_wf_witness :
  wf (mkQuadTree 0 0 100 100 2 [] [] 1
        (Some (leaf_50 0 0 elt_a)) None None None) /\
  same_geometry (mkQuadTree 0 0 100 100 2 [] [] 1
                   (Some (leaf_50 0 0 elt_a)) None None None) tree_abc.
Proof.
  destruct (filter_tree_wf (is_object elt_a) tree_abc
              (mkQuadTree 0 0 100 100 2 [] [] 1
                 (Some (leaf_50 0 0 elt_a)) None None None) reachable_abc)
    as (W & G & _).
  - reflexivity.
  - split; assumption.
Defined.

Lemma deepclone_null :
  forall t : QuadTree,
    wf t ->
    deepclone PredicateNull t = Returns (if size t =? 0 then None else Some t).
Proof.
  induction t as [t IH] using QuadTree_induction. intros W.
  destruct (wf_inv t W) as ((Hw & Hh & Hm) & F & Sz & Cap & Ch).
  assert (Hs : forall d, clone_slot PredicateNull t d = child d t).
  { intros d. unfold clone_slot. destruct (child d t) as [c |] eqn:E; [| reflexivity].
    destruct (Ch d c E) as (_ & _ & _ & S1 & Wc & _).
    rewrite (IH d c E Wc).
    destruct (size c =? 0) eqn:Z0; [apply Z.eqb_eq in Z0; lia | reflexivity]. }
  assert (Hf : forall l, filter (keeps PredicateNull) l = l)
    by (intros l; apply filter_all; reflexivity).
  assert (Hc : clone_node PredicateNull t = t).
  { unfold clone_node. rewrite !Hs, !Hf.
    replace (size_of_clone (child NW t) + size_of_clone (child NE t)
             + size_of_clone (child SW t) + size_of_clone (child SE t)
             + Z.of_nat (length (oversized t)) + Z.of_nat (length (contents t)))
      with (size t)
      by (rewrite Sz; unfold child_size, size_of_clone; lia).
    destruct t; reflexivity. }
  rewrite deepclone_node; auto.
  - rewrite Hc. destruct (size t =? 0); reflexivity.
  - intros d c E. destruct (Ch d c E) as (_ & _ & _ & _ & Wc & _).
    rewrite (IH d c E Wc). eauto.
Qed.

(** X21. [filter] without predicate ([null] or [undefined]) returns, for a
    reachable state that holds an element, a tree equal to the original
    node for node: the deep copy drops nothing and recomputes the same
    sizes.  For an empty tree it returns [null]. *)
Theorem filter_tree_null_copy (t : QuadTree) :
  reachable t ->
  (elements t <> [] -> filter_tree PredicateNull t = Returns (Some t)) /\
  (elements t = [] -> filter_tree PredicateNull t = Returns None).
Proof.
  intros R. pose proof (reachable_wf t R) as W.
  pose proof (wf_size t W) as Sz. unfold filter_tree. rewrite (deepclone_null t W).
  split; intros N.
  - destruct (size t =? 0) eqn:Z0; [| reflexivity].
    apply Z.eqb_eq in Z0. rewrite Z0 in Sz.
    destruct (elements t); [contradiction | cbn in Sz; lia].
  - rewrite N in Sz. cbn in Sz. rewrite Sz. reflexivity.
Qed.

Lemma filter_tree_null_copy_witness :
  filter_tree PredicateNull tree_abc = Returns (Some tree_abc).
Proof.
  destruct (filter_tree_null_copy tree_abc reachable_abc) as (X & _).
  apply X. cbn. discriminate.
Defined.

Lemma filter_partition (p : ElementRect -> bool) (l : list ElementRect) :
  Permutation (filter p l ++ filter (fun i => negb (p i)) l) l.
Proof.
  induction l as [| a l IH]; [constructor |].
  cbn [filter]. destruct (p a); cbn [negb app].
  - constructor. exact IH.
  - apply Permutation_sym, Permutation_cons_app, Permutation_sym. exact IH.
Qed.

(** X22. For a predicate that is not [null], [filter] and [reject] split
    the elements of a constructed tree: every reference is in exactly one
    of the two results, the elements that pass the predicate in the first
    and the others in the second.  Without predicate, [reject] keeps every
    element, as [filter] does. *)
Theorem filter_reject_partition (predicate : JsPredicate) (t : QuadTree) :
  constructed t ->
  exists kept_tree rejected_tree,
    filter_tree predicate t = Returns kept_tree /\
    reject predicate t = Returns rejected_tree /\
    (predicate <> PredicateNull ->
     Permutation (elements_of_clone kept_tree ++ elements_of_clone rejected_tree)
                 (elements t) /\
     (forall e, In e (elements_of_clone kept_tree) -> call_predicate predicate e = true) /\
     (forall e, In e (elements_of_clone rejected_tree) ->
                call_predicate predicate e = false)) /\
    (predicate = PredicateNull ->
     elements_of_clone kept_tree = elements t /\
     elements_of_clone rejected_tree = elements t).
Proof.
  intros C. unfold reject, filter_tree.
  destruct (deepclone_ok predicate t C) as (rk & Ek & (Elk & _)).
  destruct (deepclone_ok
              (PredicateFunction (fun i => negb (call_predicate predicate i))) t C)
    as (rr & Er & (Elr & _)).
  exists rk, rr. split; [exact Ek |]. split; [exact Er |].
  cbn [keeps call_predicate] in Elr. split.
  - intros N.
    assert (K : forall e, keeps predicate e = call_predicate predicate e)
      by (intros e; destruct predicate; [contradiction | reflexivity | reflexivity]).
    rewrite (filter_ext _ _ K) in Elk.
    rewrite Elk, Elr. split; [apply filter_partition |]. split.
    + intros e I. apply filter_In in I. apply I.
    + intros e I. apply filter_In in I. destruct I as [_ I].
      apply negb_true_iff in I. exact I.
  - intros ->. rewrite Elk, Elr. split; apply filter_all; reflexivity.
Qed.

Lemma filter_reject_partition_witness :
  exists kept_tree rejected_tree,
    filter_tree (PredicateFunction (fun e => x e <? 50)) two_element_tree
    = Returns kept_tree /\
    reject (PredicateFunction (fun e => x e <? 50)) two_element_tree
    = Returns rejected_tree /\
    Permutation (elements_of_clone kept_tree ++ elements_of_clone rejected_tree)
                (elements two_element_tree).
Proof.
  destruct (filter_reject_partition (PredicateFunction (fun e => x e <? 50))
              two_element_tree) as (k & r & Ek & Er & P & _).
  - constructor; cbn; try lia. intros d c E. destruct d; discriminate.
  - exists k, r. split; [exact Ek |]. split; [exact Er |]. apply P. discriminate.
Defined.

(** * Batches that follow each other *)

Lemma for_of_app {A S : Type} (body : A -> S -> Outcome unit * S) (l1 l2 : list A) (s : S) :
  for_of body (l1 ++ l2) s =
  match for_of body l1 s with
  | (Returns _, s1) => for_of body l2 s1
  | (Throws m, s1) => (Throws m, s1)
  end.
Proof.
  revert s. induction l1 as [| a l1 IH]; intros s; [reflexivity |].
  cbn [app for_of]. destruct (body a s) as [[u | m] s']; [apply IH | reflexivity].
Qed.

Lemma shell_fields (a b : QuadTree) :
  shell a = shell b ->
  same_geometry a b /\ contents a = contents b /\ oversized a = oversized b /\
  size a = size b.
Proof.
  destruct a, b. unfold shell, set_children, same_geometry. cbn.
  intros E. injection E. intros. subst. repeat split.
Qed.

Lemma shell_set_size (n : Z) (a b : QuadTree) :
  shell a = shell b -> shell (set_size n a) = shell (set_size n b).
Proof.
  destruct a, b. unfold shell, set_children, set_size. cbn.
  intros E. injection E. intros. subst. reflexivity.
Qed.

Lemma shell_set_oversized (l : list ElementRect) (a b : QuadTree) :
  shell a = shell b -> shell (set_oversized l a) = shell (set_oversized l b).
Proof.
  destruct a, b. unfold shell, set_children, set_oversized. cbn.
  intros E. injection E. intros. subst. reflexivity.
Qed.

Lemma shell_set_contents (l : list ElementRect) (a b : QuadTree) :
  shell a = shell b -> shell (set_contents l a) = shell (set_contents l b).
Proof.
  destruct a, b. unfold shell, set_children, set_contents. cbn.
  intros E. injection E. intros. subst. reflexivity.
Qed.

Lemma shell_set_child (d : Direction) (c c' : option QuadTree) (a b : QuadTree) :
  shell a = shell b -> shell (set_child d c a) = shell (set_child d c' b).
Proof. intros E. exact E. Qed.

Lemma set_children_eq (f g : Direction -> option QuadTree) (a b : QuadTree) :
  shell a = shell b -> (forall d, f d = g d) -> set_children f a = set_children g b.
Proof.
  destruct a, b. unfold shell, set_children. cbn.
  intros E F. injection E. intros. subst.
  rewrite (F NW), (F NE), (F SW), (F SE). reflexivity.
Qed.

Lemma merge_none (first second : option (list ElementRect)) :
  merge first second = None -> first = None /\ second = None.
Proof. destruct first, second; cbn; intros E; try discriminate; auto. Qed.

Section Simulation.

Variable first : Candidates.
Variable below : Direction -> option QuadTree.

Hypothesis below_some :
  forall d els, candidate d first = Some els -> exists c, below d = Some c.

Lemma enqueue_sim (d : Direction) (e : ElementRect) (a a' b : QuadTree * Candidates) :
  sim first below a b -> enqueue d e a = (Returns tt, a') ->
  exists b', enqueue d e b = (Returns tt, b') /\ sim first below a' b'.
Proof.
  destruct a as [ta ca], b as [tb cb]. intros [L Ch Cd] E. cbn [fst snd] in *.
  destruct (shell_fields ta tb L) as (G & _).
  unfold enqueue in *. pose proof (Cd d) as Cdd.
  destruct (candidate d ca) as [els |] eqn:Eca.
  - injection E as <-.
    destruct (candidate d cb) as [elsb |] eqn:Ecb.
    + eexists. split; [reflexivity |]. constructor; cbn [fst snd]; auto.
      intros d'. destruct (Direction_eq_dec d' d) as [-> | Ne].
      * rewrite !candidate_set_same.
        destruct (candidate d first); cbn [merge] in *; injection Cdd as ->;
          rewrite <- ?app_assoc; reflexivity.
      * rewrite !candidate_set_other by exact Ne. apply Cd.
    + destruct (candidate d first) as [l1 |] eqn:E1; cbn [merge] in Cdd;
        [| discriminate].
      injection Cdd as ->. destruct (below_some d l1 E1) as [c Pc].
      unfold get. rewrite (Ch d), E1, Pc.
      eexists. split; [reflexivity |]. constructor; cbn [fst snd]; auto.
      intros d'. destruct (Direction_eq_dec d' d) as [-> | Ne].
      * rewrite !candidate_set_same, E1. reflexivity.
      * rewrite !candidate_set_other by exact Ne. apply Cd.
  - symmetry in Cdd. apply merge_none in Cdd. destruct Cdd as [E1 Ecb].
    rewrite Ecb. unfold get in *. rewrite (Ch d), E1.
    destruct (child d ta) as [c |] eqn:Eta.
    + injection E as <-. eexists. split; [reflexivity |].
      constructor; cbn [fst snd]; auto.
      intros d'. destruct (Direction_eq_dec d' d) as [-> | Ne].
      * rewrite !candidate_set_same, E1. reflexivity.
      * rewrite !candidate_set_other by exact Ne. apply Cd.
    + rewrite <- (create_same_geometry ta tb d G).
      destruct (create ta d) as [c | m] eqn:Ecr; [| discriminate].
      injection E as <-. eexists. split; [reflexivity |].
      constructor; cbn [fst snd].
      * apply shell_set_child. exact L.
      * intros d'. destruct (Direction_eq_dec d' d) as [-> | Ne].
        -- rewrite !child_set_child_same, E1. reflexivity.
        -- rewrite !child_set_child_other by exact Ne. apply Ch.
      * intros d'. destruct (Direction_eq_dec d' d) as [-> | Ne].
        -- rewrite !candidate_set_same, E1. reflexivity.
        -- rewrite !candidate_set_other by exact Ne. apply Cd.
Qed.

Lemma flush_sim (cts : list ElementRect) :
  forall a a' b : QuadTree * Candidates,
    sim first below a b -> for_of flush_content cts a = (Returns tt, a') ->
    exists b', for_of flush_content cts b = (Returns tt, b') /\ sim first below a' b'.
Proof.
  induction cts as [| c cts IH]; intros a a' b S E.
  - cbn in *. injection E as <-. exists b. split; [reflexivity | exact S].
  - cbn [for_of] in *. unfold flush_content in * |- *.
    destruct (shell_fields (fst a) (fst b) (sim_local _ _ _ _ S)) as (G & _).
    rewrite <- (fitting_same_geometry c (fst a) (fst b) G).
    destruct (fitting c (fst a)) as [| contentDir fits]; [discriminate |].
    destruct (enqueue contentDir c a) as [[[] | m] a1] eqn:E1; [| discriminate].
    destruct (enqueue_sim contentDir c a a1 b S E1) as (b1 & Eb1 & S1).
    rewrite Eb1. apply (IH a1 a' b1 S1 E).
Qed.

Lemma sim_child_fields (ta tb ta' tb' : QuadTree) :
  (forall d, child d ta' = child d ta) -> (forall d, child d tb' = child d tb) ->
  (forall d, child d tb = match candidate d first with
                          | Some _ => below d
                          | None => child d ta
                          end) ->
  forall d, child d tb' = match candidate d first with
                          | Some _ => below d
                          | None => child d ta'
                          end.
Proof. intros A B Ch d. rewrite A, B. apply Ch. Qed.

Lemma push_element_sim (e : ElementRect) (a a' b : QuadTree * Candidates) :
  sim first below a b -> push_element e a = (Returns tt, a') ->
  exists b', push_element e b = (Returns tt, b') /\ sim first below a' b'.
Proof.
  destruct a as [ta ca], b as [tb cb]. intros S E.
  pose proof S as [L Ch Cd]. cbn [fst snd] in *.
  destruct (shell_fields ta tb L) as (G & Ec & Eo & Es).
  pose proof G as (Gx & Gy & Gw & Gh & Gm).
  assert (S0 : sim first below (set_size (size ta + 1) ta, ca)
                   (set_size (size ta + 1) tb, cb)).
  { constructor; cbn [fst snd]; [apply shell_set_size; exact L | | exact Cd].
    apply (sim_child_fields ta tb); [intros d; destruct d; reflexivity .. | exact Ch]. }
  unfold push_element in *.
  assert (G1 : same_geometry (set_size (size tb + 1) tb) (set_size (size ta + 1) ta))
    by (apply same_geometry_sym; exact G).
  rewrite (fitting_same_geometry e _ _ G1).
  cbn [qwidth qheight size oversized contents maxElements set_size] in *.
  rewrite <- Gw, <- Gh, <- Gm, <- Es, <- Eo, <- Ec.
  destruct (negb (Nat.eqb (length (fitting e (set_size (size ta + 1) ta))) 1)
            || (qwidth ta =? 1) || (qheight ta =? 1)).
  - injection E as <-. eexists. split; [reflexivity |].
    constructor; cbn [fst snd]; [| | exact Cd].
    + apply shell_set_oversized, shell_set_size. exact L.
    + apply (sim_child_fields ta tb); [intros d; destruct d; reflexivity .. | exact Ch].
  - destruct (size ta + 1 - Z.of_nat (length (oversized ta)) <=? maxElements ta).
    + injection E as <-. eexists. split; [reflexivity |].
      constructor; cbn [fst snd]; [| | exact Cd].
      * apply shell_set_contents, shell_set_size. exact L.
      * apply (sim_child_fields ta tb); [intros d; destruct d; reflexivity .. | exact Ch].
    + destruct (fitting e (set_size (size ta + 1) ta)) as [| direction fits];
        [discriminate |].
      destruct (enqueue direction e (set_size (size ta + 1) ta, ca))
        as [[[] | m] a1] eqn:E1; [| discriminate].
      destruct (enqueue_sim direction e _ a1 _ S0 E1) as (b1 & Eb1 & S1).
      rewrite Eb1.
      destruct (for_of flush_content (contents ta) a1) as [[[] | m] [tree2 cands2]]
        eqn:E2; [| discriminate].
      destruct (flush_sim (contents ta) a1 _ b1 S1 E2) as ([tree2' cands2'] & Eb2 & S2).
      rewrite Eb2. injection E as <-. eexists. split; [reflexivity |].
      destruct S2 as [L2 Ch2 Cd2]. cbn [fst snd] in *.
      constructor; cbn [fst snd]; [| | exact Cd2].
      * apply shell_set_contents. exact L2.
      * apply (sim_child_fields tree2 tree2');
          [intros d; destruct d; reflexivity .. | exact Ch2].
Qed.

Lemma batch_sim (els : list ElementRect) :
  forall a a' b : QuadTree * Candidates,
    sim first below a b -> for_of push_element els a = (Returns tt, a') ->
    exists b', for_of push_element els b = (Returns tt, b') /\ sim first below a' b'.
Proof.
  induction els as [| e els IH]; intros a a' b S E.
  - cbn in *. injection E as <-. exists b. split; [reflexivity | exact S].
  - cbn [for_of] in *.
    destruct (push_element e a) as [[[] | m] a1] eqn:E1; [| discriminate].
    destruct (push_element_sim e a a1 b S E1) as (b1 & Eb1 & S1).
    rewrite Eb1. apply (IH a1 a' b1 S1 E).
Qed.

End Simulation.

(** The child that waits for a candidate. *)
Lemma candidate_child (k : nat) (t t1 : QuadTree) (cands : Candidates) (d : Direction)
  (els : list ElementRect) :
  wf t -> qwidth t <= 2 ^ Z.of_nat k -> slots_inv t (t1, cands) ->
  candidate d cands = Some els ->
  exists c,
    child d t1 = Some c /\ wf c /\ qwidth c <= 2 ^ Z.of_nat (pred k) /\
    ((child d t = Some c) \/ (child d t = None /\ create t d = Returns c)).
Proof.
  intros W D [G Kp Nn Md Cd Sp] Ec. cbn [fst snd] in *.
  destruct (wf_inv t W) as (_ & _ & _ & _ & Ch).
  destruct (Cd d els Ec) as [Ne _].
  destruct (Sp (pending_candidate d els cands Ec Ne)) as [W2 H2].
  destruct (child d t) as [c0 |] eqn:E0.
  - exists c0. destruct (Ch d c0 E0) as (Kc & _ & _ & _ & Wc & _).
    split; [apply Kp; exact E0 |]. split; [exact Wc |].
    split; [| left; reflexivity].
    apply (pow2_half k (qwidth t) (qwidth c0) W2 D (create_width t c0 d W2 Kc)).
  - destruct (Md d els Ec E0) as (c & Ecr & E1). exists c.
    destruct (wf_fresh t c d Ecr) as (Wc & _ & _ & Ecl).
    split; [exact E1 |]. split; [exact Wc |]. split; [| right; split; [reflexivity | exact Ecr]].
    assert (Kc : create t d = Returns (clear c)) by (rewrite <- Ecl; exact Ecr).
    apply (pow2_half k (qwidth t) (qwidth c) W2 D (create_width t c d W2 Kc)).
Qed.

Lemma no_candidate_at_depth_O (t t1 : QuadTree) (cands : Candidates) :
  qwidth t <= 2 ^ Z.of_nat 0 -> slots_inv t (t1, cands) ->
  forall d, candidate d cands = None.
Proof.
  intros D [_ _ _ _ Cd Sp] d. cbn [fst snd] in *. cbn in D.
  destruct (candidate d cands) as [l |] eqn:Ec; [exfalso | reflexivity].
  destruct (Cd d l Ec) as [Ne _].
  destruct (Sp (pending_candidate d l cands Ec Ne)). lia.
Qed.

(** Processing two batches at a node, then their candidates in the
    children, gives the tree that processing the first batch down to the
    leaves, then the second, gives. *)
Lemma pushNode_app :
  forall (k : nat) (els1 els2 : list ElementRect) (t : QuadTree),
    wf t -> qwidth t <= 2 ^ Z.of_nat k ->
    pushNode k (els1 ++ els2) t = pushNode k els2 (pushNode k els1 t).
Proof.
  induction k as [k IH] using lt_wf_ind. intros els1 els2 t W D.
  destruct (wf_inv t W) as ((Hw & Hh & Hm) & F & _ & _ & _).
  destruct (batch_ok t Hw Hh Hm els1 [] (t, no_candidates) (slots_inv_start t)
              (counts_inv_start t F)) as ([t1 c1] & Eb1 & I1 & C1).
  cbn [app] in C1.
  destruct (batch_ok t Hw Hh Hm els2 els1 (t1, c1) I1 C1) as ([t2 c2] & Eb2 & I2 & C2).
  assert (Eb : for_of push_element (els1 ++ els2) (t, no_candidates)
               = (Returns tt, (t2, c2))) by (rewrite for_of_app, Eb1; exact Eb2).
  assert (Z1 : k = O -> forall d, candidate d c1 = None)
    by (intros ->; apply (no_candidate_at_depth_O t t1 c1 D I1)).
  assert (Z2 : k = O -> forall d, candidate d c2 = None)
    by (intros ->; apply (no_candidate_at_depth_O t t2 c2 D I2)).
  rewrite (pushNode_unfold k (els1 ++ els2) t t2 c2 Eb Z2).
  rewrite (pushNode_unfold k els1 t t1 c1 Eb1 Z1).
  assert (Below : forall d els, candidate d c1 = Some els ->
                    exists c, pushed_child k c1 t1 d = Some c).
  { intros d els Ec. destruct (candidate_child k t t1 c1 d els W D I1 Ec) as (c & E1 & _).
    unfold pushed_child. rewrite Ec, E1. eauto. }
  assert (S0 : sim c1 (pushed_child k c1 t1) (t1, c1)
                   (set_children (pushed_child k c1 t1) t1, no_candidates)).
  { constructor; cbn [fst snd].
    - reflexivity.
    - intros d. rewrite child_set_children. unfold pushed_child.
      destruct (candidate d c1); reflexivity.
    - intros d. destruct d; cbn; destruct c1 as [[] [] [] []]; reflexivity. }
  destruct (batch_sim c1 (pushed_child k c1 t1) Below els2 _ _ _ S0 Eb2)
    as ([t2' c2'] & Eb2' & [L Ch Cd]).
  cbn [fst snd] in *.
  assert (Z2' : k = O -> forall d, candidate d c2' = None).
  { intros K d. specialize (Cd d). rewrite (Z2 K d) in Cd. symmetry in Cd.
    apply merge_none in Cd. apply Cd. }
  rewrite (pushNode_unfold k els2 _ t2' c2' Eb2' Z2').
  apply set_children_eq; [exact L |].
  intros d. unfold pushed_child. rewrite (Ch d), (Cd d).
  destruct (candidate d c1) as [l1 |] eqn:E1; cbn [merge]; [| reflexivity].
  destruct (candidate_child k t t1 c1 d l1 W D I1 E1) as (c & Et1 & Wc & Dc & Or1).
  assert (K1 : (1 <= k)%nat).
  { destruct k; [| lia]. rewrite (Z1 eq_refl d) in E1. discriminate. }
  assert (Et2 : child d t2 = Some c).
  { assert (E2 : exists l2, candidate d c2 = Some l2)
      by (rewrite (Cd d), E1; destruct (candidate d c2'); cbn [merge]; eauto).
    destruct E2 as [l2 E2].
    destruct (candidate_child k t t2 c2 d l2 W D I2 E2) as (c' & Et2 & _ & _ & Or2).
    rewrite Et2. f_equal.
    destruct Or1 as [A | [A A']], Or2 as [B | [B B']]; congruence. }
  rewrite Et2. unfold pushed_child. rewrite E1, Et1.
  destruct (candidate d c2') as [l2 |]; [| reflexivity].
  f_equal. apply IH; [lia | exact Wc | exact Dc].
Qed.

(** X23. From a reachable state, [pushAll] on a batch of valid elements
    leaves the tree, node for node, in the state that [pushAll] on the
    beginning of the batch followed by [pushAll] on the rest leaves: a
    batch can be split at any place, down to single calls of [push]. *)
Theorem pushAll_app (els1 els2 : list ElementRect) (t : QuadTree) :
  reachable t ->
  Forall (fun e => valid_element (to_js e)) els1 ->
  Forall (fun e => valid_element (to_js e)) els2 ->
  exists t1 t2,
    pushesAll (map to_js els1) t t1 /\
    pushesAll (map to_js els2) t1 t2 /\
    pushesAll (map to_js (els1 ++ els2)) t t2.
Proof.
  intros R V1 V2. pose proof (reachable_wf t R) as W.
  destruct (wf_inv t W) as ((Hw & _) & _).
  pose proof (depth_of_enough t Hw) as D.
  destruct (pushNode_wf (depth_of t) els1 t W D) as (W1 & G1 & _).
  exists (pushNode (depth_of t) els1 t),
         (pushNode (depth_of t) els2 (pushNode (depth_of t) els1 t)).
  split; [apply pushesAll_pushNode; assumption |]. split.
  - pose proof (pushesAll_pushNode els2 _ W1 V2) as P.
    rewrite (depth_of_same_geometry _ t G1) in P. exact P.
  - rewrite <- (pushNode_app (depth_of t) els1 els2 t W D).
    apply pushesAll_pushNode; [exact W |]. apply Forall_app. split; assumption.
Qed.

Lemma pushAll_app_witness :
  exists t1 t2,
    pushesAll (map to_js [elt_a; elt_b]) pristine_100 t1 /\
    pushesAll (map to_js [elt_c]) t1 t2 /\
    pushesAll (map to_js ([elt_a; elt_b] ++ [elt_c])) pristine_100 t2.
Proof.
  apply (pushAll_app [elt_a; elt_b] [elt_c] pristine_100).
  - apply (reachable_new (mkOptions None None (Some 100) (Some 100) (Some 2))).
    reflexivity.
  - repeat (constructor; [cbn; split; intros ? [= <-]; lia |]). constructor.
  - repeat (constructor; [cbn; split; intros ? [= <-]; lia |]). constructor.
Defined.

(** * The depth of a tree and the order of the traversals *)

(** The height of a child is at most the half, rounded up, of its parent's. *)
Lemma create_height (t c : QuadTree) (d : Direction) :
  2 <= qheight t -> create t d = Returns (clear c) -> 2 * qheight c <= qheight t + 1.
Proof.
  intros H E. apply new_QuadTree_builds in E.
  destruct E as (_ & _ & _ & _ & Eh & _). cbn in Eh. half_facts t.
  destruct d; cbn in Eh; injection Eh as Eh; lia.
Qed.

Lemma nodes_depth :
  forall t : QuadTree,
    wf t ->
    forall (k h : nat), qwidth t <= 2 ^ Z.of_nat k -> qheight t <= 2 ^ Z.of_nat h ->
    forall n, In n (nodes t) ->
      exists path, node_at path t = Some n /\ (length path <= k)%nat /\
                   (length path <= h)%nat.
Proof.
  induction t as [t IH] using QuadTree_induction. intros W k h Dk Dh n I.
  destruct (wf_inv t W) as (_ & _ & _ & _ & Ch).
  destruct (In_nodes_inv t n I) as [-> | (d & c & E & I')].
  - exists []. cbn. split; [reflexivity |]. split; apply Nat.le_0_l.
  - destruct (Ch d c E) as (K & W2 & H2 & _ & Wc & _).
    destruct (pow2_half k (qwidth t) (qwidth c) W2 Dk (create_width t c d W2 K))
      as [Dk' K1].
    destruct (pow2_half h (qheight t) (qheight c) H2 Dh (create_height t c d H2 K))
      as [Dh' H1].
    destruct (IH d c E Wc (pred k) (pred h) Dk' Dh' n I') as (path & Ep & Lk & Lh).
    exists (d :: path). cbn [node_at length]. rewrite E.
    split; [exact Ep |]. split; lia.
Qed.

Lemma log2_up_enough (w : Z) : 1 <= w -> w <= 2 ^ Z.of_nat (Z.to_nat (Z.log2_up w)).
Proof.
  intros W. rewrite Z2Nat.id by apply Z.log2_up_nonneg.
  destruct (Z.eq_dec w 1) as [-> | N]; [cbn; lia |].
  apply Z.log2_up_spec. lia.
Qed.

(** X24. In every reachable state, every node is reached from the root by
    a path of children whose length is at most the logarithm in base 2,
    rounded up, of the width of the root, and of its height: the tree of a
    space of width [w] is at most [log2_up w] deep. *)
Theorem reachable_depth (t : QuadTree) :
  reachable t ->
  forall n, In n (nodes t) ->
    exists path,
      node_at path t = Some n /\
      (length path <= Z.to_nat (Z.log2_up (qwidth t)))%nat /\
      (length path <= Z.to_nat (Z.log2_up (qheight t)))%nat.
Proof.
  intros R n I. pose proof (reachable_wf t R) as W.
  destruct (wf_inv t W) as ((Hw & Hh & _) & _).
  apply (nodes_depth t W); [apply log2_up_enough | apply log2_up_enough | exact I];
    assumption.
Qed.

Lemma reachable_depth_witness :
  exists path,
    node_at path tree_abc = Some (leaf_50 0 50 elt_c) /\
    (length path <= Z.to_nat (Z.log2_up (qwidth tree_abc)))%nat /\
    (length path <= Z.to_nat (Z.log2_up (qheight tree_abc)))%nat.
Proof.
  apply (reachable_depth tree_abc reachable_abc).
  cbn. auto.
Defined.

(** ** Breadth first *)






